(** * Power Tab Editor: MIDI event generation and repeat navigation

    A shallow embedding of [source/audio/repeatcontroller.cpp] and of the
    event generator of [source/midiplayer.cpp], with the properties of the
    playback core stated and proved against it.

    Conventions of the embedding:
    - [uint8_t], [uint32_t] and [int] values are integers in [Z]; where the
      source narrows a value to [uint8_t] the reduction modulo 256 is written
      out;
    - [double] timestamps and durations are exact rationals in [Q] (the
      rounding of IEEE arithmetic is not modelled), compared with [==];
    - [std::map] and [std::multimap] are key-ordered association lists and an
      iterator is an index into the list ([length] is [end()]);
    - member functions that mutate the object take the object and return the
      new one. *)

From Stdlib Require Import ZArith QArith Qround List Bool Lia Arith.
From Stdlib Require Import Sorting.Permutation Sorting.Sorted.
Import ListNotations.

Set Implicit Arguments.
#[local] Open Scope Z_scope.

(** ** System locations *)

(** Modelled from the spec: class [SystemLocation] (its header is not among
    the sources): the pair (systemIndex, positionIndex), totally ordered by
    system index first and position index second. *)
Record SystemLocation : Type := mkSystemLocation
  { getSystemIndex : Z;
    getPositionIndex : Z }.

(** Modelled from the spec: [SystemLocation::operator<], system index
    first, position index second. *)
Definition loc_ltb (a b : SystemLocation) : bool :=
  (getSystemIndex a <? getSystemIndex b)
  || ((getSystemIndex a =? getSystemIndex b)
      && (getPositionIndex a <? getPositionIndex b)).

(** Modelled from the spec: [SystemLocation::operator==]. *)
Definition loc_eqb (a b : SystemLocation) : bool :=
  (getSystemIndex a =? getSystemIndex b)
  && (getPositionIndex a =? getPositionIndex b).

Definition loc_leb (a b : SystemLocation) : bool := negb (loc_ltb b a).

(** ** Ordered associative containers *)

Section OrderedContainers.
Variables K V : Type.
Variable ltb : K -> K -> bool.

(** [std::multimap::lower_bound]: the first entry whose key is not less
    than [k]. *)
Fixpoint lower_bound (k : K) (m : list (K * V)) : nat :=
  match m with
  | [] => O
  | (k', _) :: m' => if ltb k' k then S (lower_bound k m') else O
  end.

(** [std::map::upper_bound]: the first entry whose key is greater than
    [k]. *)
Fixpoint upper_bound (k : K) (m : list (K * V)) : nat :=
  match m with
  | [] => O
  | (k', _) :: m' => if ltb k k' then O else S (upper_bound k m')
  end.

(** [std::multimap::insert]: the entry goes after every entry whose key is
    not greater than [k]. *)
Fixpoint multimap_insert (k : K) (v : V) (m : list (K * V)) : list (K * V) :=
  match m with
  | [] => [(k, v)]
  | (k', v') :: m' =>
      if ltb k k' then (k, v) :: m else (k', v') :: multimap_insert k v m'
  end.

(** [m[k] = v] on a [std::map]: replaces the entry with an equivalent key,
    inserts in key order otherwise. *)
Fixpoint map_assign (k : K) (v : V) (m : list (K * V)) : list (K * V) :=
  match m with
  | [] => [(k, v)]
  | (k', v') :: m' =>
      if ltb k k' then (k, v) :: m
      else if ltb k' k then (k', v') :: map_assign k v m'
      else (k, v) :: m'
  end.

(** [std::multimap::find]: an entry with an equivalent key, here the first
    one in key order, or [None] for [end()]. *)
Definition multimap_find (k : K) (m : list (K * V)) : option (K * V) :=
  match nth_error m (lower_bound k m) with
  | Some (k', v) => if ltb k k' then None else Some (k', v)
  | None => None
  end.

(** [std::multimap::erase(iterator)]. *)
Fixpoint erase (i : nat) (m : list (K * V)) : list (K * V) :=
  match m, i with
  | [], _ => []
  | _ :: m', O => m'
  | e :: m', S i' => e :: erase i' m'
  end.

(** Assignment through a reference to the mapped value at an iterator. *)
Fixpoint set_second (i : nat) (v : V) (m : list (K * V)) : list (K * V) :=
  match m, i with
  | [], _ => []
  | (k, _) :: m', O => (k, v) :: m'
  | e :: m', S i' => e :: set_second i' v m'
  end.
End OrderedContainers.

(** ** Directions *)

(** The symbol types of [Direction], in the order of [directionText] in
    [direction.cpp], which is indexed by the symbol type. *)
Inductive symbolTypes : Type :=
| coda | doubleCoda | segno | segnoSegno | fine | daCapo | dalSegno
| dalSegnoSegno | toCoda | toDoubleCoda | daCapoAlCoda | daCapoAlDoubleCoda
| dalSegnoAlCoda | dalSegnoAlDoubleCoda | dalSegnoSegnoAlCoda
| dalSegnoSegnoAlDoubleCoda | daCapoAlFine | dalSegnoAlFine
| dalSegnoSegnoAlFine.

Definition symbolTypeValue (s : symbolTypes) : Z :=
  match s with
  | coda => 0 | doubleCoda => 1 | segno => 2 | segnoSegno => 3 | fine => 4
  | daCapo => 5 | dalSegno => 6 | dalSegnoSegno => 7 | toCoda => 8
  | toDoubleCoda => 9 | daCapoAlCoda => 10 | daCapoAlDoubleCoda => 11
  | dalSegnoAlCoda => 12 | dalSegnoAlDoubleCoda => 13
  | dalSegnoSegnoAlCoda => 14 | dalSegnoSegnoAlDoubleCoda => 15
  | daCapoAlFine => 16 | dalSegnoAlFine => 17 | dalSegnoSegnoAlFine => 18
  end.

Definition symbol_ltb (a b : symbolTypes) : bool :=
  symbolTypeValue a <? symbolTypeValue b.

(** The navigation states a direction can require ([Direction::activeNone]
    and the like; the enumeration is declared in [direction.h]). *)
Inductive activeSymbols : Type :=
| activeNone | activeDaCapo | activeDalSegno | activeDalSegnoSegno.

(** [DirectionSymbol(symbolType, activeSymbol, repeatNumber)]. *)
Record DirectionSymbol : Type := mkDirectionSymbol
  { getSymbolType : symbolTypes;
    requiredActiveSymbol : activeSymbols;
    requiredRepeatNumber : Z }.

(** A [Direction] of the score: its position and its symbol array. *)
Record Direction : Type := mkDirection
  { Direction_GetPosition : Z;
    m_symbolArray : list DirectionSymbol }.

(** ** The score *)

(** A barline with the fields of its time signature that playback reads. *)
Record Barline : Type := mkBarline
  { Barline_GetPosition : Z;
    IsRepeatStart : bool;
    IsRepeatEnd : bool;
    GetRepeatCount : Z;
    GetBeatsPerMeasure : Z;
    GetBeatAmount : Z;
    GetPulses : Z }.

Record AlternateEnding : Type := mkAlternateEnding
  { AlternateEnding_GetSystem : Z;
    AlternateEnding_GetPosition : Z;
    endingNumbers : list Z }.

Inductive bendTypes : Type :=
| normalBend | bendAndRelease | bendAndHold | preBend | preBendAndRelease
| preBendAndHold | gradualRelease | immediateRelease.

Inductive slideOutOfTypes : Type :=
| slideOutOfShiftSlide | slideOutOfLegatoSlide | slideOutOfDownwards
| slideOutOfUpwards | slideOutOfOther.

Inductive slideIntoTypes : Type :=
| slideIntoFromBelow | slideIntoFromAbove | slideIntoOther.

(** The arguments [Note::GetBend] fills in. *)
Record Bend : Type := mkBend
  { bend_type : bendTypes;
    bentPitch : Z;
    releasePitch : Z;
    bendDuration : Z;
    drawStartPoint : Z;
    drawEndPoint : Z }.

(** A note, as read through the getters of [Note]; an effect the note does
    not have is [None]. *)
Record Note : Type := mkNote
  { GetString : Z;
    GetFretNumber : Z;
    IsTied : bool;
    HasTieWrap : bool;
    IsMuted : bool;
    IsGhostNote : bool;
    IsNaturalHarmonic : bool;
    GetTappedHarmonic : option Z;
    GetArtificialHarmonic : option (Z * Z * Z);
    GetBend : option Bend;
    GetSlideOutOf : option (slideOutOfTypes * Z);
    GetSlideInto : option slideIntoTypes;
    GetTrill : option Z }.

Definition isSome {A : Type} (o : option A) : bool :=
  match o with Some _ => true | None => false end.

Definition HasTappedHarmonic (n : Note) := isSome (GetTappedHarmonic n).
Definition HasArtificialHarmonic (n : Note) := isSome (GetArtificialHarmonic n).
Definition HasBend (n : Note) := isSome (GetBend n).
Definition HasSlideOutOf (n : Note) := isSome (GetSlideOutOf n).
Definition HasSlideInto (n : Note) := isSome (GetSlideInto n).
Definition HasSlide (n : Note) := HasSlideInto n || HasSlideOutOf n.
Definition HasTrill (n : Note) := isSome (GetTrill n).

(** A position, as read through the getters of [Position]: [GetDuration] is
    the length in quarter notes that [Position::GetDuration] returns. *)
Record Position : Type := mkPosition
  { GetPosition : Z;
    GetDurationType : Z;
    GetDuration : Q;
    IsRest : bool;
    IsAcciaccatura : bool;
    HasArpeggioDown : bool;
    HasArpeggioUp : bool;
    HasVibrato : bool;
    HasWideVibrato : bool;
    HasLetRing : bool;
    HasTremoloPicking : bool;
    IsStaccato : bool;
    HasPalmMuting : bool;
    GetNotes : list Note }.

Definition set_notes (p : Position) (notes : list Note) : Position :=
  mkPosition (GetPosition p) (GetDurationType p) (GetDuration p) (IsRest p)
             (IsAcciaccatura p) (HasArpeggioDown p) (HasArpeggioUp p)
             (HasVibrato p) (HasWideVibrato p) (HasLetRing p)
             (HasTremoloPicking p) (IsStaccato p) (HasPalmMuting p) notes.

(** A staff: the positions of each of its voices. *)
Record Staff : Type := mkStaff
  { GetVoices : list (list Position) }.

Definition NUM_STAFF_VOICES : nat := 2.

Definition GetVoice (staff : Staff) (voice : nat) : list Position :=
  nth voice (GetVoices staff) [].

Record Guitar : Type := mkGuitar
  { GetTuning : list Z;
    GetCapo : Z }.

Record TempoMarker : Type := mkTempoMarker
  { TempoMarker_GetSystem : Z;
    TempoMarker_GetPosition : Z;
    IsAlterationOfPace : bool;
    GetBeatsPerMinute : Z;
    GetBeatType : Z }.

Record System : Type := mkSystem
  { GetBarlines : list Barline;
    GetDirections : list Direction;
    GetStaves : list Staff;
    GetPositionCount : Z }.

Record Score : Type := mkScore
  { GetSystems : list System;
    GetGuitars : list Guitar;
    GetTempoMarkers : list TempoMarker;
    GetAlternateEndings : list AlternateEnding }.

Definition GetSystemCount (s : Score) : Z := Z.of_nat (length (GetSystems s)).

Definition emptySystem : System := mkSystem [] [] [] 0.

(** [score->GetSystem(i)]; an index that is out of range is outside the
    contract of [Score] and reads as a system without positions. *)
Definition GetSystem (s : Score) (i : Z) : System :=
  if i <? 0 then emptySystem else nth (Z.to_nat i) (GetSystems s) emptySystem.

(** ** Repeat groups *)

(** The interface of class [Repeat] and of
    [DirectionSymbol::shouldPerformDirection], both declared in headers that
    are not among the sources; the controller is written against it. *)
Class RepeatOps (Repeat : Type) : Type :=
  { Repeat_new : SystemLocation -> Repeat;
    addRepeatEnd : Repeat -> SystemLocation -> Z -> Repeat;
    addAlternateEnding : Repeat -> AlternateEnding -> Repeat;
    getActiveRepeat : Repeat -> Z;
    reset : Repeat -> Repeat;
    performRepeat : Repeat -> SystemLocation -> Repeat * SystemLocation;
    shouldPerformDirection : DirectionSymbol -> activeSymbols -> Z -> bool }.

(** ** The repeat controller *)

Section RepeatController.
Context {Repeat : Type} {ops : RepeatOps Repeat}.

(** The members of the controller.  [repeats] is a map, [directions] and
    [symbolLocations] are filled with [insert] and read with [equal_range]
    and [find]; they are kept here as multimaps in key order, in which
    [find] yields the entry that was inserted first for its key. *)
Record RepeatController : Type := mkRepeatController
  { score : Score;
    repeats : list (SystemLocation * Repeat);
    directions : list (SystemLocation * DirectionSymbol);
    symbolLocations : list (symbolTypes * SystemLocation);
    activeSymbol : activeSymbols }.

Definition set_repeats (c : RepeatController) r : RepeatController :=
  mkRepeatController (score c) r (directions c) (symbolLocations c)
                     (activeSymbol c).

Definition set_directions (c : RepeatController) d : RepeatController :=
  mkRepeatController (score c) (repeats c) d (symbolLocations c)
                     (activeSymbol c).

Definition set_symbolLocations (c : RepeatController) s : RepeatController :=
  mkRepeatController (score c) (repeats c) (directions c) s (activeSymbol c).

Definition set_activeSymbol (c : RepeatController) a : RepeatController :=
  mkRepeatController (score c) (repeats c) (directions c)
                     (symbolLocations c) a.

(** [indexDirections]: every symbol of every direction of the system is
    entered under the direction's location.  The source reads the symbol at
    [index], which stays 0, on each of the [GetSymbolCount()] rounds. *)
Definition indexDirection (systemIndex : Z) (c : RepeatController)
           (direction : Direction) : RepeatController :=
  let location := mkSystemLocation systemIndex (Direction_GetPosition direction) in
  fold_left
    (fun c (_ : DirectionSymbol) =>
       match nth_error (m_symbolArray direction) 0 with
       | Some sym =>
           set_symbolLocations
             (set_directions c
                (multimap_insert loc_ltb location sym (directions c)))
             (multimap_insert symbol_ltb (getSymbolType sym) location
                              (symbolLocations c))
       | None => c
       end)
    (m_symbolArray direction) c.

Definition indexDirections (systemIndex : Z) (system : System)
           (c : RepeatController) : RepeatController :=
  fold_left (indexDirection systemIndex) (GetDirections system) c.

(** One barline of the scan of [indexRepeats]. *)
Definition indexBarline (currentSystemIndex : Z) (c : RepeatController)
           (currentBar : Barline) : RepeatController :=
  let location :=
    mkSystemLocation currentSystemIndex (Barline_GetPosition currentBar) in
  if IsRepeatStart currentBar then
    set_repeats c (map_assign loc_ltb location (Repeat_new location) (repeats c))
  else if IsRepeatEnd currentBar then
    (* repeats.rbegin()->second.addRepeatEnd(...) *)
    let last := Nat.pred (length (repeats c)) in
    match nth_error (repeats c) last with
    | Some (_, r) =>
        set_repeats c
          (set_second last
             (addRepeatEnd r location (GetRepeatCount currentBar))
             (repeats c))
    | None => c
    end
  else c.

Fixpoint indexSystems (currentSystemIndex : Z) (systems : list System)
         (c : RepeatController) : RepeatController :=
  match systems with
  | [] => c
  | system :: rest =>
      let c1 := fold_left (indexBarline currentSystemIndex)
                          (GetBarlines system) c in
      let c2 := indexDirections currentSystemIndex system c1 in
      indexSystems (currentSystemIndex + 1) rest c2
  end.

(** [getPreviousRepeatGroup]: the iterator of the active repeat, the last
    group that starts at or before [location] (the first group when none
    does). *)
Definition getPreviousRepeatGroup (c : RepeatController)
           (location : SystemLocation) : nat :=
  Nat.pred (upper_bound loc_ltb location (repeats c)).

Definition indexAlternateEnding (c : RepeatController)
           (altEnding : AlternateEnding) : RepeatController :=
  let altEndingLocation :=
    mkSystemLocation (AlternateEnding_GetSystem altEnding)
                     (AlternateEnding_GetPosition altEnding) in
  let i := getPreviousRepeatGroup c altEndingLocation in
  match nth_error (repeats c) i with
  | Some (_, activeRepeat) =>
      set_repeats c
        (set_second i (addAlternateEnding activeRepeat altEnding) (repeats c))
  | None => c
  end.

(** [indexRepeats], run by the constructor. *)
Definition indexRepeats (c : RepeatController) : RepeatController :=
  let scoreStartLocation := mkSystemLocation 0 0 in
  let c0 :=
    set_repeats c
      (map_assign loc_ltb scoreStartLocation (Repeat_new scoreStartLocation)
                  (repeats c)) in
  let c1 := indexSystems 0 (GetSystems (score c)) c0 in
  fold_left indexAlternateEnding (GetAlternateEndings (score c)) c1.

(** [RepeatController::RepeatController(score)]. *)
Definition newRepeatController (s : Score) : RepeatController :=
  indexRepeats (mkRepeatController s [] [] [] activeNone).

(** [performMusicalDirection]: the target of a direction; sets the
    navigation state for the Da Capo and Dal Segno families. *)
Definition performMusicalDirection (c : RepeatController)
           (directionType : symbolTypes) : RepeatController * SystemLocation :=
  match directionType with
  | fine =>
      let lastSystemIndex := (GetSystemCount (score c) - 1) mod 2 ^ 32 in
      (c, mkSystemLocation lastSystemIndex
            (GetPositionCount (GetSystem (score c) lastSystemIndex)))
  | daCapo | daCapoAlCoda | daCapoAlDoubleCoda | daCapoAlFine =>
      (set_activeSymbol c activeDaCapo, mkSystemLocation 0 0)
  | _ =>
      let '(c', nextSymbol) :=
        match directionType with
        | dalSegno | dalSegnoAlCoda | dalSegnoAlDoubleCoda | dalSegnoAlFine =>
            (set_activeSymbol c activeDalSegno, segno)
        | dalSegnoSegno | dalSegnoSegnoAlCoda | dalSegnoSegnoAlDoubleCoda
        | dalSegnoSegnoAlFine =>
            (set_activeSymbol c activeDalSegnoSegno, segnoSegno)
        | toCoda => (c, coda)
        | toDoubleCoda => (c, doubleCoda)
        | _ => (c, coda) (* nextSymbol keeps its initial value 0 *)
        end in
      match multimap_find symbol_ltb nextSymbol (symbolLocations c') with
      | Some (_, location) => (c', location)
      | None => (c', mkSystemLocation 0 0)
      end
  end.

(** Step 2 of [checkForRepeat] (the block "check for directions at
    location"): returns the controller and [newLocation] after it. *)
Definition checkDirections (c : RepeatController) (activeRepeat : nat)
           (currentLocation : SystemLocation)
  : RepeatController * SystemLocation :=
  let first := lower_bound loc_ltb currentLocation (directions c) in
  match nth_error (directions c) first, nth_error (repeats c) activeRepeat with
  | Some (_, direction), Some (_, r) =>
      (* directionsAtLocation.first != directions.end() *)
      if shouldPerformDirection direction (activeSymbol c) (getActiveRepeat r)
      then
        let '(c1, newLocation) :=
          performMusicalDirection c (getSymbolType direction) in
        if negb (loc_eqb newLocation currentLocation) then
          (set_repeats
             (set_directions c1 (erase first (directions c1)))
             (set_second activeRepeat (reset r) (repeats c1)),
           newLocation)
        else (c1, newLocation)
      else (c, currentLocation)
  | _, _ => (c, currentLocation)
  end.

(** Steps 1 to 3: the active group, the directions, then the repeat. *)
Definition resolveLocation (c : RepeatController)
           (currentLocation : SystemLocation)
  : RepeatController * SystemLocation :=
  let activeRepeat := getPreviousRepeatGroup c currentLocation in
  let '(c1, newLocation) := checkDirections c activeRepeat currentLocation in
  if loc_eqb newLocation currentLocation then
    match nth_error (repeats c1) activeRepeat with
    | Some (_, r) =>
        let '(r', newLocation') := performRepeat r currentLocation in
        (set_repeats c1 (set_second activeRepeat r' (repeats c1)),
         newLocation')
    | None => (c1, newLocation)
    end
  else (c1, newLocation).

(** [checkForRepeat(currentSystem, currentPos, newSystem, newPos)]: the
    result carries the controller, the returned flag and the values of the
    two reference parameters after the call. *)
Definition checkForRepeat (c : RepeatController)
           (currentSystem currentPos newSystem newPos : Z)
  : RepeatController * (bool * (Z * Z)) :=
  match repeats c with
  | [] => (c, (false, (newSystem, newPos)))
  | _ :: _ =>
      let currentLocation := mkSystemLocation currentSystem currentPos in
      let '(c', newLocation) := resolveLocation c currentLocation in
      if loc_eqb newLocation currentLocation then
        (c', (false, (newSystem, newPos)))
      else
        (c', (true, (getSystemIndex newLocation, getPositionIndex newLocation)))
  end.
End RepeatController.

(** Modelled from the spec: class [Repeat] and
    [DirectionSymbol::shouldPerformDirection] (their sources are missing), for
    a score without alternate endings: a group anchored at its start bar,
    with its end bars and their repeat counts and a pass counter that starts
    at zero.  A repeat is taken at an end bar while the pass count is below
    the bar's repeat count; a direction is performed when its required active
    symbol is the current one and its required repeat number is 0 (none) or
    the current pass count.  Alternate endings are stored and not consulted. *)
Module SpecRepeat.
(** Modelled from the spec: the data of class [Repeat]. *)
Record Repeat : Type := mkRepeat
  { startBarLocation : SystemLocation;
    endBars : list (SystemLocation * Z);
    alternateEndings : list AlternateEnding;
    activeRepeat : Z }.

(** Equality of navigation states. *)
Definition activeSymbols_eqb (a b : activeSymbols) : bool :=
  match a, b with
  | activeNone, activeNone | activeDaCapo, activeDaCapo
  | activeDalSegno, activeDalSegno
  | activeDalSegnoSegno, activeDalSegnoSegno => true
  | _, _ => false
  end.

(** Modelled from the spec: [Repeat::performRepeat], for a group without
    alternate endings: at one of its end bars, while the pass count is below
    the repeat count of the bar, count the pass and return the start bar;
    return the given location otherwise. *)
Definition Repeat_performRepeat (r : Repeat) (loc : SystemLocation)
  : Repeat * SystemLocation :=
  match multimap_find loc_ltb loc (endBars r) with
  | Some (_, repeatCount) =>
      if activeRepeat r <? repeatCount then
        (mkRepeat (startBarLocation r) (endBars r) (alternateEndings r)
                  (activeRepeat r + 1),
         startBarLocation r)
      else (r, loc)
  | None => (r, loc)
  end.

(** Modelled from the spec: the member functions of [Repeat] and
    [DirectionSymbol::shouldPerformDirection]. *)
#[global] Instance ops : RepeatOps Repeat :=
  {| Repeat_new := fun loc => mkRepeat loc [] [] 0;
     addRepeatEnd := fun r loc count =>
       mkRepeat (startBarLocation r) (map_assign loc_ltb loc count (endBars r))
                (alternateEndings r) (activeRepeat r);
     addAlternateEnding := fun r e =>
       mkRepeat (startBarLocation r) (endBars r) (alternateEndings r ++ [e])
                (activeRepeat r);
     getActiveRepeat := activeRepeat;
     reset := fun r =>
       mkRepeat (startBarLocation r) (endBars r) (alternateEndings r) 0;
     performRepeat := Repeat_performRepeat;
     shouldPerformDirection := fun d currentSymbol currentRepeatNumber =>
       activeSymbols_eqb (requiredActiveSymbol d) currentSymbol
       && ((requiredRepeatNumber d =? 0)
           || (requiredRepeatNumber d =? currentRepeatNumber)) |}.
End SpecRepeat.

(** ** MIDI events *)

Inductive VelocityType : Type :=
| DEFAULT_VELOCITY | MUTED_VELOCITY | GHOST_VELOCITY | PALM_MUTED_VELOCITY.

Inductive VibratoType : Type := NORMAL_VIBRATO | WIDE_VIBRATO.

(** The events of [source/audio]; the arguments follow the constructor calls
    of [midiplayer.cpp].  [on] is [true] for [VIBRATO_ON] and [LET_RING_ON];
    a vibrato-off event is built without a type. *)
Inductive MidiEvent : Type :=
| PlayNoteEvent (channel : Z) (startTime duration : Q)
                (pitch positionIndex systemIndex : Z) (guitar : Guitar)
                (isMuted : bool) (velocity : VelocityType)
| StopNoteEvent (channel : Z) (startTime : Q)
                (positionIndex systemIndex pitch : Z)
| VibratoEvent (channel : Z) (startTime : Q) (positionIndex systemIndex : Z)
               (on : bool) (type : option VibratoType)
| LetRingEvent (channel : Z) (startTime : Q) (positionIndex systemIndex : Z)
               (on : bool)
| BendEvent (channel : Z) (startTime : Q) (positionIndex systemIndex : Z)
            (pitchBendAmount : Z).

Record BendEventInfo : Type := mkBendEventInfo
  { timestamp : Q;
    pitchBendAmount : Z }.

(** ** The environment of the player *)

(** Constants and helpers that [midiplayer.cpp] uses and that are declared in
    headers that are not among the sources. *)
Class PlayerEnv : Type :=
  { GRACE_NOTE_DURATION : Q;
    ARPEGGIO_OFFSET : Q;
    DEFAULT_BEND : Z;                 (* BendEvent::DEFAULT_BEND *)
    BEND_QUARTER_TONE : Q;            (* BendEvent::BEND_QUARTER_TONE *)
    DEFAULT_BEATS_PER_MINUTE : Q;     (* TempoMarker::DEFAULT_BEATS_PER_MINUTE *)
    DEFAULT_BEAT_TYPE : Q;            (* TempoMarker::DEFAULT_BEAT_TYPE *)
    TempoMarker_quarter : Q;          (* TempoMarker::quarter *)
    GetMidiNoteOctave : Z -> Z;       (* midi::GetMidiNoteOctave *)
    GetPrecedingBarline : System -> Z -> Barline;
    IsOnlyPositionInBar : Staff -> Position -> System -> bool }.

Definition to_uint8 (z : Z) : Z := z mod 256.
Definition to_uint32 (z : Z) : Z := z mod 2 ^ 32.

(** Conversion of a [double] to an integer type: truncation toward zero. *)
Definition Qtruncate (q : Q) : Z := Z.quot (Qnum q) (Zpos (Qden q)).

(** [std::max] on doubles. *)
Definition Qmax (a b : Q) : Q := if Qle_bool b a then a else b.

(** ** Helpers of the score model used by the player *)

(** Modelled from the spec: [Position::SortNotesDown] and
    [Position::SortNotesUp] (class [Position] of the document model is not
    among the sources) reorder the notes of the position by string, by
    ascending and by descending string number. *)
Fixpoint insertNote (leb : Z -> Z -> bool) (n : Note) (l : list Note)
  : list Note :=
  match l with
  | [] => [n]
  | m :: l' =>
      if leb (GetString n) (GetString m) then n :: l
      else m :: insertNote leb n l'
  end.

(** Modelled from the spec: the notes in the order of their strings. *)
Definition sortNotes (leb : Z -> Z -> bool) (l : list Note) : list Note :=
  fold_right (insertNote leb) [] l.

(** Modelled from the spec: [Position::SortNotesDown]. *)
Definition SortNotesDown (p : Position) : Position :=
  set_notes p (sortNotes Z.leb (GetNotes p)).

(** Modelled from the spec: [Position::SortNotesUp]. *)
Definition SortNotesUp (p : Position) : Position :=
  set_notes p (sortNotes Z.geb (GetNotes p)).

Inductive SearchDirection : Type := PrevNote | NextNote.

(** Modelled from the spec: [Staff::GetAdjacentNoteOnString] (class [Staff]
    is not among the sources): the note on the same string in the adjacent
    position of the voice, if there is one.  The position is given by its
    index [j] in the voice. *)
Definition GetAdjacentNoteOnString (searchDirection : SearchDirection)
           (positions : list Position) (j : nat) (note : Note) : option Note :=
  let adjacent :=
    match searchDirection with
    | PrevNote => match j with O => None | S j' => nth_error positions j' end
    | NextNote => nth_error positions (S j)
    end in
  match adjacent with
  | Some p => find (fun n => GetString n =? GetString note) (GetNotes p)
  | None => None
  end.

(** ** The event generator of the MIDI player *)

Section MidiPlayer.
Context {env : PlayerEnv}.
Variable currentScore : Score.

#[local] Open Scope Q_scope.

(** [getCurrentTempoMarker]: the last marker of the score that passes the
    test of the loop; [currentSystemIndex] is the member of the player. *)
Definition getCurrentTempoMarker (currentSystemIndex positionIndex : Z)
  : option TempoMarker :=
  fold_left
    (fun currentTempoMarker temp =>
       if (TempoMarker_GetSystem temp <=? currentSystemIndex)%Z
          && (TempoMarker_GetPosition temp <=? positionIndex)%Z
          && negb (IsAlterationOfPace temp)
       then Some temp else currentTempoMarker)
    (GetTempoMarkers currentScore) None.

(** [getCurrentTempo]: the duration of a quarter note in milliseconds. *)
Definition getCurrentTempo (currentSystemIndex positionIndex : Z) : Q :=
  let '(bpm, beatType) :=
    match getCurrentTempoMarker currentSystemIndex positionIndex with
    | Some tempoMarker =>
        (inject_Z (GetBeatsPerMinute tempoMarker),
         inject_Z (GetBeatType tempoMarker))
    | None => (DEFAULT_BEATS_PER_MINUTE, DEFAULT_BEAT_TYPE)
    end in
  60 / bpm * 1000 * (TempoMarker_quarter / beatType).

Definition calculateNoteDuration (currentSystemIndex : Z)
           (currentPosition : Position) : Q :=
  let tempo := getCurrentTempo currentSystemIndex (GetPosition currentPosition) in
  GetDuration currentPosition * tempo.

Definition getWholeRestDuration (currentSystemIndex : Z) (system : System)
           (staff : Staff) (position : Position) (originalDuration : Q) : Q :=
  let prevBarline := GetPrecedingBarline system (GetPosition position) in
  if negb (IsOnlyPositionInBar staff position system) then originalDuration
  else
    let tempo := getCurrentTempo currentSystemIndex (GetPosition position) in
    let beatDuration := inject_Z (GetBeatAmount prevBarline) in
    let duration := tempo * 4 / beatDuration in
    let numBeats := GetBeatsPerMeasure prevBarline in
    duration * inject_Z numBeats.

(** [initHarmonicPitches]; a fret without an entry reads as 0. *)
Definition harmonicPitches (fret : Z) : Z :=
  if (fret =? 3)%Z then 31%Z
  else if (fret =? 4) || (fret =? 9) || (fret =? 16) || (fret =? 28) then 28%Z
  else if (fret =? 5) || (fret =? 24) then 24%Z
  else if (fret =? 7) || (fret =? 19) then 19%Z
  else if (fret =? 12)%Z then 12%Z
  else 0%Z.

Definition getHarmonicPitch (basePitch fretOffset : Z) : Z :=
  to_uint8 (to_uint8 basePitch + harmonicPitches (to_uint8 fretOffset)).

Definition getActualNotePitch (note : Note) (guitar : Guitar) : Z :=
  let openStringPitch :=
    to_uint32 (nth (Z.to_nat (GetString note)) (GetTuning guitar) 0%Z
               + GetCapo guitar) in
  let pitch := to_uint32 (openStringPitch + GetFretNumber note) in
  let pitch :=
    if IsNaturalHarmonic note
    then getHarmonicPitch openStringPitch (GetFretNumber note) else pitch in
  let pitch :=
    match GetTappedHarmonic note with
    | Some tappedFret =>
        getHarmonicPitch pitch (tappedFret - GetFretNumber note)
    | None => pitch
    end in
  match GetArtificialHarmonic note with
  | Some (key, _, octaveDiff) =>
      to_uint32 ((GetMidiNoteOctave pitch + octaveDiff + 2) * 12 + key)
  | None => pitch
  end.

Definition getNoteVelocity (position : Position) (note : Note) : VelocityType :=
  if IsGhostNote note then GHOST_VELOCITY
  else if IsMuted note then MUTED_VELOCITY
  else if HasPalmMuting position then PALM_MUTED_VELOCITY
  else DEFAULT_VELOCITY.

(** [generateGradualBend]: the samples it appends to [bends]. *)
Definition generateGradualBend (startTime duration : Q)
           (startBendAmount releaseBendAmount : Z) : list BendEventInfo :=
  let startBendAmount := to_uint8 startBendAmount in
  let releaseBendAmount := to_uint8 releaseBendAmount in
  let numBendEvents := Z.abs (startBendAmount - releaseBendAmount) in
  let bendEventDuration := duration / inject_Z numBendEvents in
  map (fun i : nat =>
         let timestamp := startTime + bendEventDuration * inject_Z (Z.of_nat i) in
         if (startBendAmount <? releaseBendAmount)%Z
         then mkBendEventInfo timestamp (to_uint8 (startBendAmount + Z.of_nat i))
         else mkBendEventInfo timestamp (to_uint8 (startBendAmount - Z.of_nat i)))
      (seq 1 (Z.to_nat numBendEvents)).

Definition bendTypes_eqb (a b : bendTypes) : bool :=
  match a, b with
  | normalBend, normalBend | bendAndRelease, bendAndRelease
  | bendAndHold, bendAndHold | preBend, preBend
  | preBendAndRelease, preBendAndRelease | preBendAndHold, preBendAndHold
  | gradualRelease, gradualRelease | immediateRelease, immediateRelease => true
  | _, _ => false
  end.

(** [generateBends]: the samples appended to [bends] and the new value of
    the member [activePitchBend]. *)
Definition generateBends (startTime duration currentTempo : Q)
           (activePitchBend : Z) (bend : Bend) : list BendEventInfo * Z :=
  let type := bend_type bend in
  let has t := bendTypes_eqb type t in
  let bendAmount :=
    to_uint8 (Qfloor (inject_Z DEFAULT_BEND
                      + inject_Z (bentPitch bend) * BEND_QUARTER_TONE)) in
  let releaseAmount :=
    to_uint8 (Qfloor (inject_Z DEFAULT_BEND
                      + inject_Z (releasePitch bend) * BEND_QUARTER_TONE)) in
  let bends :=
    (* perform a pre-bend *)
    (if has preBend || has preBendAndRelease || has preBendAndHold
     then [mkBendEventInfo startTime bendAmount] else [])
    (* perform a normal (gradual) bend *)
    ++ (if has normalBend || has bendAndHold then
          if (bendDuration bend =? 0)%Z then
            generateGradualBend startTime (currentTempo / 8) DEFAULT_BEND
                                bendAmount
          else if (bendDuration bend =? 1)%Z then
            generateGradualBend startTime duration DEFAULT_BEND bendAmount
          else []
        else [])
    (* bend and release: up to the bent pitch over half the duration *)
    ++ (if has bendAndRelease
        then generateGradualBend startTime (duration / 2) DEFAULT_BEND
                                 bendAmount
        else [])
    (* bend back down to the release pitch *)
    ++ (if has preBendAndRelease then
          generateGradualBend startTime duration bendAmount releaseAmount
        else if has bendAndRelease then
          generateGradualBend (startTime + duration / 2) (duration / 2)
                              bendAmount releaseAmount
        else if has gradualRelease then
          generateGradualBend startTime duration activePitchBend releaseAmount
        else [])
    (* reset to the release pitch bend value *)
    ++ (if has preBend || has immediateRelease || has normalBend
        then [mkBendEventInfo (startTime + duration) releaseAmount] else []) in
  (bends, if has bendAndHold || has preBendAndHold then bendAmount
          else releaseAmount).

(** [generateSlides]: the samples appended to [bends]. *)
Definition generateSlides (startTime noteDuration currentTempo : Q)
           (note : Note) : list BendEventInfo :=
  let SLIDE_OUT_OF_STEPS := 5 in
  let SLIDE_BELOW_BEND :=
    Qfloor (inject_Z DEFAULT_BEND - SLIDE_OUT_OF_STEPS * 2 * BEND_QUARTER_TONE) in
  let SLIDE_ABOVE_BEND :=
    Qfloor (inject_Z DEFAULT_BEND + SLIDE_OUT_OF_STEPS * 2 * BEND_QUARTER_TONE) in
  (match GetSlideOutOf note with
   | Some (type, steps) =>
       let bendAmount :=
         match type with
         | slideOutOfLegatoSlide | slideOutOfShiftSlide =>
             to_uint8 (Qfloor (inject_Z DEFAULT_BEND
                               + inject_Z steps * 2 * BEND_QUARTER_TONE))
         | slideOutOfDownwards => to_uint8 SLIDE_BELOW_BEND
         | slideOutOfUpwards => to_uint8 SLIDE_ABOVE_BEND
         | slideOutOfOther => to_uint8 DEFAULT_BEND
         end in
       let slideDuration := noteDuration / 2 in
       generateGradualBend (startTime + slideDuration) slideDuration
                           DEFAULT_BEND bendAmount
       ++ [mkBendEventInfo (startTime + noteDuration) (to_uint8 DEFAULT_BEND)]
   | None => []
   end)
  ++ (match GetSlideInto note with
      | Some type =>
          let bendAmount :=
            match type with
            | slideIntoFromBelow => to_uint8 SLIDE_BELOW_BEND
            | slideIntoFromAbove => to_uint8 SLIDE_ABOVE_BEND
            | slideIntoOther => to_uint8 DEFAULT_BEND
            end in
          let slideDuration := currentTempo / 4 in
          generateGradualBend startTime slideDuration bendAmount DEFAULT_BEND
      | None => []
      end).
End MidiPlayer.

Section EventGenerator.
Context {env : PlayerEnv}.
Variable currentScore : Score.
(** The member [currentSystemIndex] of the player, which [run] keeps equal
    to the index of the system being generated. *)
Variable currentSystemIndex : Z.
Variable systemIndex : Z.
Variable system : System.
(** The staff index [i], its staff and its guitar. *)
Variable i : Z.
Variable staff : Staff.
Variable guitar : Guitar.

#[local] Open Scope Q_scope.

(** The loop of tremolo picking and trills: [numNotes] rounds from round
    [k]; returns the events and the value of [pitch] after the swaps. *)
Fixpoint tremoloLoop (numNotes : nat) (k : Z) (startTime tremPickNoteDuration : Q)
         (positionIndex : Z) (isMuted : bool) (velocity : VelocityType)
         (pitch otherPitch : Z) : list MidiEvent * Z :=
  match numNotes with
  | O => ([], pitch)
  | S n =>
      let currentStartTime := startTime + inject_Z k * tremPickNoteDuration in
      let '(events, pitch') :=
        tremoloLoop n (k + 1)%Z startTime tremPickNoteDuration positionIndex
                    isMuted velocity otherPitch pitch in
      (StopNoteEvent i currentStartTime positionIndex systemIndex pitch
       :: PlayNoteEvent i currentStartTime tremPickNoteDuration otherPitch
                        positionIndex systemIndex guitar isMuted velocity
       :: events,
       pitch')
  end.

(** The pitch a note carries after the tie check: its own resolved pitch,
    or for a tied note the resolved pitch of the previous note on its
    string when there is one. *)
Definition carriedPitch (positions : list Position) (j : nat) (note : Note) : Z :=
  let pitch := getActualNotePitch note guitar in
  if negb (IsTied note) then pitch
  else
    match GetAdjacentNoteOnString PrevNote positions j note with
    | Some prevNote => getActualNotePitch prevNote guitar
    | None => pitch
    end.

(** The body of the loop over the notes of a position, after the arpeggio
    adjustment of [startTime] and [duration]: the events pushed for the
    note and the new [activePitchBend]. *)
Definition generateNote (positions : list Position) (j : nat)
           (position : Position) (currentTempo startTime duration : Q)
           (activePitchBend : Z) (note : Note) : list MidiEvent * Z :=
  let positionIndex := GetPosition position in
  let pitch := getActualNotePitch note guitar in
  let velocity := getNoteVelocity position note in
  let playEvents :=
    if negb (IsTied note)
    then [PlayNoteEvent i startTime duration pitch positionIndex systemIndex
                        guitar (IsMuted note) velocity]
    else [] in
  let pitch := carriedPitch positions j note in
  (* generate all events that involve pitch bends *)
  let slides :=
    if HasSlide note then generateSlides startTime duration currentTempo note
    else [] in
  let '(bends, activePitchBend') :=
    match GetBend note with
    | Some bend => generateBends startTime duration currentTempo activePitchBend bend
    | None => ([], activePitchBend)
    end in
  let bendEvents :=
    map (fun event =>
           BendEvent i (timestamp event) positionIndex systemIndex
                     (pitchBendAmount event))
        (slides ++ bends) in
  (* tremolo picking or trills *)
  let '(tremoloEvents, pitch) :=
    if HasTremoloPicking position || HasTrill note then
      let tremPickNoteDuration := currentTempo / 8 in
      let numNotes := Qtruncate (duration / tremPickNoteDuration) in
      let otherPitch :=
        match GetTrill note with
        | Some otherFret => to_uint32 (pitch + (GetFretNumber note - otherFret))
        | None => pitch
        end in
      tremoloLoop (Z.to_nat numNotes) 0 startTime tremPickNoteDuration
                  positionIndex (IsMuted note) velocity pitch otherPitch
    else ([], pitch) in
  let tiedToNextNote :=
    match GetAdjacentNoteOnString NextNote positions j note with
    | Some nextNote => IsTied nextNote
    | None => false
    end in
  (* end the note, unless we are tied to the next note *)
  let stopEvents :=
    if negb (HasTieWrap note) && negb tiedToNextNote then
      let noteLength :=
        if IsStaccato position then duration / 2
        else if HasPalmMuting position then duration / (115 # 100)
        else duration in
      [StopNoteEvent i (startTime + noteLength) positionIndex systemIndex pitch]
    else [] in
  (playEvents ++ bendEvents ++ tremoloEvents ++ stopEvents, activePitchBend').

(** The loop over the notes of a position.  The state is [startTime],
    [duration] and [activePitchBend]; the events are returned in the order
    they are pushed. *)
Fixpoint notesLoop (positions : list Position) (j : nat) (position : Position)
         (currentTempo : Q) (notes : list Note)
         (startTime duration : Q) (activePitchBend : Z)
  : (Q * Q * Z) * list MidiEvent :=
  match notes with
  | [] => ((startTime, duration, activePitchBend), [])
  | note :: rest =>
      let '(startTime, duration) :=
        if HasArpeggioDown position || HasArpeggioUp position
        then (startTime + ARPEGGIO_OFFSET, duration - ARPEGGIO_OFFSET)
        else (startTime, duration) in
      let '(events, activePitchBend) :=
        generateNote positions j position currentTempo startTime duration
                     activePitchBend note in
      let '(final, events') :=
        notesLoop positions j position currentTempo rest startTime duration
                  activePitchBend in
      (final, events ++ events')
  end.

(** The variables of the loop over the positions of a voice; the positions
    are part of the state because an arpeggio reorders the notes of a
    position in place. *)
Record VoiceState : Type := mkVoiceState
  { vs_positions : list Position;
    vs_startTime : Q;
    vs_endTime : Q;
    vs_letRingActive : bool;
    vs_activePitchBend : Z }.

Fixpoint replace_nth {A : Type} (n : nat) (x : A) (l : list A) : list A :=
  match l, n with
  | [], _ => []
  | _ :: l', O => x :: l'
  | y :: l', S n' => y :: replace_nth n' x l'
  end.

(** The let-ring branch of a position: the event pushed, if any, and the
    new value of [letRingActive]. *)
Definition letRingStep (position : Position) (j count : nat)
           (startTime duration : Q) (letRingActive : bool)
  : list MidiEvent * bool :=
  let positionIndex := GetPosition position in
  if HasLetRing position && negb letRingActive then
    ([LetRingEvent i startTime positionIndex systemIndex true], true)
  else if negb (HasLetRing position) && letRingActive then
    ([LetRingEvent i startTime positionIndex systemIndex false], false)
  else if letRingActive && Nat.eqb (S j) count then
    ([LetRingEvent i (startTime + duration) positionIndex systemIndex false],
     false)
  else ([], letRingActive).

(** The duration by which a rest advances the cursor. *)
Definition restDuration (position : Position) : Q :=
  let duration := calculateNoteDuration currentScore currentSystemIndex position in
  if (GetDurationType position =? 1)%Z
  then getWholeRestDuration currentScore currentSystemIndex system staff
                            position duration
  else duration.

(** One round of the loop over the positions of a voice, for index [j]. *)
Definition generatePosition (j : nat) (st : VoiceState)
  : VoiceState * list MidiEvent :=
  match nth_error (vs_positions st) j with
  | None => (st, [])
  | Some position =>
      let currentTempo :=
        getCurrentTempo currentScore currentSystemIndex (GetPosition position) in
      let duration :=
        calculateNoteDuration currentScore currentSystemIndex position in
      if IsRest position then
        let startTime := vs_startTime st + restDuration position in
        (mkVoiceState (vs_positions st) startTime
                      (Qmax (vs_endTime st) startTime)
                      (vs_letRingActive st) (vs_activePitchBend st),
         [])
      else
        let '(duration, startTime) :=
          if IsAcciaccatura position
          then (GRACE_NOTE_DURATION, vs_startTime st - GRACE_NOTE_DURATION)
          else (duration, vs_startTime st) in
        let positionIndex := GetPosition position in
        let position :=
          if HasArpeggioDown position then SortNotesDown position
          else if HasArpeggioUp position then SortNotesUp position
          else position in
        let positions := replace_nth j position (vs_positions st) in
        let vibratoEvents :=
          if HasVibrato position || HasWideVibrato position then
            let type :=
              if HasVibrato position then NORMAL_VIBRATO else WIDE_VIBRATO in
            [VibratoEvent i startTime positionIndex systemIndex true (Some type);
             VibratoEvent i (startTime + duration) positionIndex systemIndex
                          false None]
          else [] in
        let '(letRingEvents, letRingActive) :=
          letRingStep position j (length positions) startTime duration
                      (vs_letRingActive st) in
        let '((startTime, duration, activePitchBend), noteEvents) :=
          notesLoop positions j position currentTempo (GetNotes position)
                    startTime duration (vs_activePitchBend st) in
        let startTime := startTime + duration in
        (mkVoiceState positions startTime (Qmax (vs_endTime st) startTime)
                      letRingActive activePitchBend,
         vibratoEvents ++ letRingEvents ++ noteEvents)
  end.

(** The loop over the positions of a voice: [count] rounds from index [j]. *)
Fixpoint positionsLoop (count j : nat) (st : VoiceState)
  : VoiceState * list MidiEvent :=
  match count with
  | O => (st, [])
  | S count' =>
      let '(st1, events) := generatePosition j st in
      let '(st2, events') := positionsLoop count' (S j) st1 in
      (st2, events ++ events')
  end.

(** The body of the loop over the voices of a staff: returns the state at
    the end of the voice and the events of the voice. *)
Definition generateVoice (voice : nat) (systemStartTime endTime : Q)
  : VoiceState * list MidiEvent :=
  let positions := GetVoice staff voice in
  positionsLoop (length positions) 0
                (mkVoiceState positions systemStartTime endTime false
                              (to_uint8 DEFAULT_BEND)).

(** The loop over the voices of the staff: the new [endTime] and the
    events. *)
Fixpoint voicesLoop (count voice : nat) (systemStartTime endTime : Q)
  : Q * list MidiEvent :=
  match count with
  | O => (endTime, [])
  | S count' =>
      let '(st, events) := generateVoice voice systemStartTime endTime in
      let '(endTime', events') :=
        voicesLoop count' (S voice) systemStartTime (vs_endTime st) in
      (endTime', events ++ events')
  end.
End EventGenerator.

(** [generateEventsForSystem]: the events appended to the event list and the
    returned end time. *)
Fixpoint stavesLoop {env : PlayerEnv} (currentScore : Score)
         (currentSystemIndex systemIndex : Z) (system : System)
         (staves : list Staff) (i : nat) (systemStartTime endTime : Q)
  : Q * list MidiEvent :=
  match staves with
  | [] => (endTime, [])
  | staff :: rest =>
      let guitar := nth i (GetGuitars currentScore) (mkGuitar [] 0) in
      let '(endTime1, events) :=
        voicesLoop currentScore currentSystemIndex systemIndex system
                   (Z.of_nat i) staff guitar NUM_STAFF_VOICES 0
                   systemStartTime endTime in
      let '(endTime2, events') :=
        stavesLoop currentScore currentSystemIndex systemIndex system rest
                   (S i) systemStartTime endTime1 in
      (endTime2, events ++ events')
  end.

Definition generateEventsForSystem {env : PlayerEnv} (currentScore : Score)
           (currentSystemIndex systemIndex : Z) (systemStartTime : Q)
  : Q * list MidiEvent :=
  let system := GetSystem currentScore systemIndex in
  stavesLoop currentScore currentSystemIndex systemIndex system
             (GetStaves system) 0 systemStartTime systemStartTime.

(** ** Observers used in the statements *)

Definition loc_of (systemIndex positionIndex : Z) : SystemLocation :=
  mkSystemLocation systemIndex positionIndex.

Section ControllerObservers.
Context {Repeat : Type} {ops : RepeatOps Repeat}.

(** The test of line 147 of [checkForRepeat], "no position shift
    occurred", together with the early return on an empty repeat index. *)
Definition noPositionChange (c : RepeatController)
           (currentLocation : SystemLocation) : bool :=
  match repeats c with
  | [] => true
  | _ :: _ => loc_eqb (snd (resolveLocation c currentLocation)) currentLocation
  end.

(** The direction a query performs, if any: the entry the direction block
    looked at, when the block leaves a location other than the current one
    (the condition under which the source erases it). *)
Definition performedDirection (c : RepeatController)
           (currentLocation : SystemLocation)
  : option (SystemLocation * DirectionSymbol) :=
  match repeats c with
  | [] => None
  | _ :: _ =>
      let activeRepeat := getPreviousRepeatGroup c currentLocation in
      if loc_eqb (snd (checkDirections c activeRepeat currentLocation))
                 currentLocation
      then None
      else nth_error (directions c)
                     (lower_bound loc_ltb currentLocation (directions c))
  end.

(** A playback run, seen from the controller: the locations it is queried
    at, in order.  Returns the controller after the run and the directions
    performed, in order. *)
Fixpoint playbackRun (c : RepeatController) (queries : list SystemLocation)
  : RepeatController * list (SystemLocation * DirectionSymbol) :=
  match queries with
  | [] => (c, [])
  | q :: rest =>
      let c' :=
        fst (checkForRepeat c (getSystemIndex q) (getPositionIndex q) 0 0) in
      let '(final, performed) := playbackRun c' rest in
      (final,
       match performedDirection c q with
       | Some d => d :: performed
       | None => performed
       end)
  end.
End ControllerObservers.

Definition symbolTypes_eq_dec (a b : symbolTypes) : {a = b} + {a <> b}.
Proof. decide equality. Defined.

Definition activeSymbols_eq_dec (a b : activeSymbols) : {a = b} + {a <> b}.
Proof. decide equality. Defined.

Definition SystemLocation_eq_dec (a b : SystemLocation) : {a = b} + {a <> b}.
Proof. decide equality; apply Z.eq_dec. Defined.

Definition DirectionSymbol_eq_dec (a b : DirectionSymbol) : {a = b} + {a <> b}.
Proof.
  decide equality;
    [apply Z.eq_dec | apply activeSymbols_eq_dec | apply symbolTypes_eq_dec].
Defined.

Definition entry_eq_dec (a b : SystemLocation * DirectionSymbol)
  : {a = b} + {a <> b}.
Proof.
  decide equality; [apply DirectionSymbol_eq_dec | apply SystemLocation_eq_dec].
Defined.

Definition isPlayNote (e : MidiEvent) : bool :=
  match e with PlayNoteEvent _ _ _ _ _ _ _ _ _ => true | _ => false end.

(** The let-ring events of an event list, as their on/off flags in order. *)
Fixpoint letRingFlags (events : list MidiEvent) : list bool :=
  match events with
  | [] => []
  | LetRingEvent _ _ _ _ on :: rest => on :: letRingFlags rest
  | _ :: rest => letRingFlags rest
  end.

(** On and off strictly alternate, the first flag being [first]. *)
Fixpoint alternates (first : bool) (flags : list bool) : bool :=
  match flags with
  | [] => true
  | f :: rest => Bool.eqb f first && alternates (negb first) rest
  end.

Definition countOn (flags : list bool) : nat := count_occ bool_dec flags true.
Definition countOff (flags : list bool) : nat := count_occ bool_dec flags false.

(** The start time of the first [PlayNoteEvent] of an event list. *)
Fixpoint firstPlayNoteStart (events : list MidiEvent) : option Q :=
  match events with
  | [] => None
  | PlayNoteEvent _ startTime _ _ _ _ _ _ _ :: _ => Some startTime
  | _ :: rest => firstPlayNoteStart rest
  end.

Section ArpeggioSchedule.
Context {env : PlayerEnv}.
#[local] Open Scope Q_scope.

(** The start time and the duration of note [k] (from 0) of an arpeggiated
    position, as the loop computes them: [k + 1] additions, respectively
    subtractions, of [ARPEGGIO_OFFSET]. *)
Definition arpeggioStart (startTime : Q) (k : nat) : Q :=
  Nat.iter (S k) (fun t => t + ARPEGGIO_OFFSET) startTime.

Definition arpeggioDuration (duration : Q) (k : nat) : Q :=
  Nat.iter (S k) (fun d => d - ARPEGGIO_OFFSET) duration.

(** The events of the notes of an arpeggiated position, note [k] being
    generated at [arpeggioStart startTime k] with
    [arpeggioDuration duration k]. *)
Fixpoint arpeggioNotes (systemIndex i : Z) (guitar : Guitar)
         (positions : list Position) (j : nat) (position : Position)
         (currentTempo : Q) (k : nat) (notes : list Note)
         (startTime duration : Q) (activePitchBend : Z) : list MidiEvent :=
  match notes with
  | [] => []
  | note :: rest =>
      let '(events, activePitchBend') :=
        generateNote systemIndex i guitar positions j position currentTempo
                     (arpeggioStart startTime k) (arpeggioDuration duration k)
                     activePitchBend note in
      events
      ++ arpeggioNotes systemIndex i guitar positions j position currentTempo
                       (S k) rest startTime duration activePitchBend'
  end.
End ArpeggioSchedule.

(** ** Order of the keys of the containers *)

Definition loc_lt (a b : SystemLocation) : Prop := loc_ltb a b = true.

(** The keys of a [std::map]: strictly increasing. *)
Definition keys_increasing {V : Type} (m : list (SystemLocation * V)) : Prop :=
  StronglySorted loc_lt (map fst m).

(** The keys of a [std::multimap]: never decreasing. *)
Definition keys_ordered {V : Type} (m : list (SystemLocation * V)) : Prop :=
  StronglySorted (fun a b => loc_ltb b a = false) (map fst m).

(** The keys of a multimap under any comparison: never decreasing. *)
Definition ordered_by {K V : Type} (ltb : K -> K -> bool) (m : list (K * V))
  : Prop :=
  StronglySorted (fun a b => ltb b a = false) (map fst m).

(** The entries of a container whose key is equivalent to [k]. *)
Definition equivalent_key {K V : Type} (ltb : K -> K -> bool) (k : K)
           (e : K * V) : bool :=
  negb (ltb (fst e) k) && negb (ltb k (fst e)).

(** ** The directions of a score in the order they are indexed *)

(** What [indexDirections] enters for one direction: one entry for each of
    its symbols, each holding the symbol at index 0. *)
Definition indexedSymbolsOfDirection (systemIndex : Z) (direction : Direction)
  : list (SystemLocation * DirectionSymbol) :=
  match m_symbolArray direction with
  | [] => []
  | sym :: _ =>
      repeat (mkSystemLocation systemIndex (Direction_GetPosition direction), sym)
             (length (m_symbolArray direction))
  end.

Definition indexedSymbolsOfSystem (systemIndex : Z) (system : System)
  : list (SystemLocation * DirectionSymbol) :=
  concat (map (indexedSymbolsOfDirection systemIndex) (GetDirections system)).

Fixpoint indexedSymbolsFrom (systemIndex : Z) (systems : list System)
  : list (SystemLocation * DirectionSymbol) :=
  match systems with
  | [] => []
  | system :: rest =>
      indexedSymbolsOfSystem systemIndex system
      ++ indexedSymbolsFrom (systemIndex + 1) rest
  end.

(** The entries of the direction index of a score, in the order the
    constructor of the controller inserts them. *)
Definition indexedSymbols (s : Score) : list (SystemLocation * DirectionSymbol) :=
  indexedSymbolsFrom 0 (GetSystems s).

(** The location of the first entry of a list with the symbol type [t]. *)
Definition firstLocationOf (t : symbolTypes)
           (entries : list (SystemLocation * DirectionSymbol))
  : option SystemLocation :=
  option_map fst
    (find (fun e => symbolTypeValue (getSymbolType (snd e)) =? symbolTypeValue t)
          entries).

(** ** Fields of the events *)

Definition eventChannel (e : MidiEvent) : Z :=
  match e with
  | PlayNoteEvent channel _ _ _ _ _ _ _ _ | StopNoteEvent channel _ _ _ _
  | VibratoEvent channel _ _ _ _ _ | LetRingEvent channel _ _ _ _
  | BendEvent channel _ _ _ _ => channel
  end.

Definition eventStartTime (e : MidiEvent) : Q :=
  match e with
  | PlayNoteEvent _ startTime _ _ _ _ _ _ _ | StopNoteEvent _ startTime _ _ _
  | VibratoEvent _ startTime _ _ _ _ | LetRingEvent _ startTime _ _ _
  | BendEvent _ startTime _ _ _ => startTime
  end.

Definition eventPositionIndex (e : MidiEvent) : Z :=
  match e with
  | PlayNoteEvent _ _ _ _ positionIndex _ _ _ _
  | StopNoteEvent _ _ positionIndex _ _
  | VibratoEvent _ _ positionIndex _ _ _ | LetRingEvent _ _ positionIndex _ _
  | BendEvent _ _ positionIndex _ _ => positionIndex
  end.

Definition eventSystemIndex (e : MidiEvent) : Z :=
  match e with
  | PlayNoteEvent _ _ _ _ _ systemIndex _ _ _
  | StopNoteEvent _ _ _ systemIndex _
  | VibratoEvent _ _ _ systemIndex _ _ | LetRingEvent _ _ _ systemIndex _
  | BendEvent _ _ _ systemIndex _ => systemIndex
  end.

(** The events pushed in the loop over the notes of a position. *)
Definition isNoteLevel (e : MidiEvent) : bool :=
  match e with
  | PlayNoteEvent _ _ _ _ _ _ _ _ _ | StopNoteEvent _ _ _ _ _
  | BendEvent _ _ _ _ _ => true
  | _ => false
  end.

(** The vibrato events of an event list, as their on/off flags in order. *)
Fixpoint vibratoFlags (events : list MidiEvent) : list bool :=
  match events with
  | [] => []
  | VibratoEvent _ _ _ _ on _ :: rest => on :: vibratoFlags rest
  | _ :: rest => vibratoFlags rest
  end.

(** A let-ring event of channel [i] and system [systemIndex] at a position. *)
Definition isLetRingOf (i systemIndex positionIndex : Z) (e : MidiEvent) : Prop :=
  match e with
  | LetRingEvent channel _ position system _ =>
      channel = i /\ system = systemIndex /\ position = positionIndex
  | _ => False
  end.

(** Two positions that differ at most in the order of their notes. *)
Definition sameUpToNoteOrder (p p' : Position) : Prop :=
  p' = set_notes p (GetNotes p') /\ Permutation (GetNotes p) (GetNotes p').

(** ** The metronome *)

Inductive MetronomeVelocity : Type := STRONG_ACCENT | WEAK_ACCENT.

(** What [generateMetronome] pushes on the event list: metronome events and
    the events that stop them. *)
Inductive MetronomeOutput : Type :=
| MetronomeEvent (channel : Z) (startTime duration : Q)
                 (positionIndex systemIndex : Z) (velocity : MetronomeVelocity)
| MetronomeStop (e : MidiEvent).

Section Metronome.
Context {env : PlayerEnv}.
(** [METRONOME_CHANNEL] and [MetronomeEvent::METRONOME_PITCH], declared in
    headers that are not among the sources. *)
Variables METRONOME_CHANNEL METRONOME_PITCH : Z.
Variable currentScore : Score.
Variable currentSystemIndex : Z.
Variable systemIndex : Z.

#[local] Open Scope Q_scope.

(** The loop over the pulses of a bar: [numPulses] rounds from round [j];
    returns [startTime] after the loop and the events pushed. *)
Fixpoint pulsesLoop (numPulses j : nat) (startTime duration : Q) (position : Z)
  : Q * list MetronomeOutput :=
  match numPulses with
  | O => (startTime, [])
  | S n =>
      let velocity := if Nat.eqb j 0 then STRONG_ACCENT else WEAK_ACCENT in
      let startTime' := startTime + duration in
      let '(final, events) := pulsesLoop n (S j) startTime' duration position in
      (final,
       MetronomeEvent METRONOME_CHANNEL startTime duration position systemIndex
                      velocity
       :: MetronomeStop (StopNoteEvent METRONOME_CHANNEL startTime' position
                                       systemIndex METRONOME_PITCH)
       :: events)
  end.

(** The duration of a pulse of the bar that starts at [barline]; the
    quotient of the two [quint8] values is an integer division. *)
Definition pulseDuration (barline : Barline) : Q :=
  let numPulses := to_uint8 (GetPulses barline) in
  let beatsPerMeasure := to_uint8 (GetBeatsPerMeasure barline) in
  let beatValue := to_uint8 (GetBeatAmount barline) in
  let tempo :=
    getCurrentTempo currentScore currentSystemIndex (Barline_GetPosition barline) in
  let duration := tempo * 4 / inject_Z beatValue in
  duration * inject_Z (Z.quot beatsPerMeasure numPulses).

(** The loop over the barlines; [None] when a time signature has no pulse,
    where the source divides by zero. *)
Fixpoint barlinesLoop (barlines : list Barline) (startTime : Q)
  : option (Q * list MetronomeOutput) :=
  match barlines with
  | [] => Some (startTime, [])
  | barline :: rest =>
      if (to_uint8 (GetPulses barline) =? 0)%Z then None
      else
        let '(startTime', events) :=
          pulsesLoop (Z.to_nat (to_uint8 (GetPulses barline))) 0 startTime
                     (pulseDuration barline) (Barline_GetPosition barline) in
        match barlinesLoop rest startTime' with
        | Some (final, events') => Some (final, events ++ events')
        | None => None
        end
  end.

(** [generateMetronome]: the events pushed for the system.  [GetBarlines]
    lists the barlines of the system with the end bar last; [None] when the
    list is empty, where the source pops from an empty vector. *)
Definition generateMetronome (system : System) (startTime : Q)
  : option (list MetronomeOutput) :=
  match GetBarlines system with
  | [] => None
  | first :: others =>
      match barlinesLoop (removelast (first :: others)) startTime with
      | Some (startTime', events) =>
          Some (events
                ++ [MetronomeStop
                      (StopNoteEvent METRONOME_CHANNEL startTime'
                                     (Barline_GetPosition (last others first))
                                     systemIndex METRONOME_PITCH)])
      | None => None
      end
  end.
End Metronome.

Definition isStrongPulse (e : MetronomeOutput) : bool :=
  match e with MetronomeEvent _ _ _ _ _ STRONG_ACCENT => true | _ => false end.

Definition isPulse (e : MetronomeOutput) : bool :=
  match e with MetronomeEvent _ _ _ _ _ _ => true | _ => false end.

(** The time the pulses of a bar take together. *)
Definition measureSpan {env : PlayerEnv} (currentScore : Score)
           (currentSystemIndex : Z) (barline : Barline) : Q :=
  (inject_Z (to_uint8 (GetPulses barline))
   * pulseDuration currentScore currentSystemIndex barline)%Q.

Definition Qsum (l : list Q) : Q := fold_right Qplus 0%Q l.

(** The value of [startTime] after [rounds] rounds of
    [startTime += duration]. *)
Definition timeAfter (startTime duration : Q) (rounds : nat) : Q :=
  Nat.iter rounds (fun t => (t + duration)%Q) startTime.

Section MetronomeShape.
Context {env : PlayerEnv}.
Variables METRONOME_CHANNEL METRONOME_PITCH : Z.
Variable currentScore : Score.
Variable currentSystemIndex : Z.
Variable systemIndex : Z.

(** The number of pulses of the bar that starts at [barline]. *)
Definition barPulseCount (barline : Barline) : nat :=
  Z.to_nat (to_uint8 (GetPulses barline)).

(** Pulse [j] of a bar whose first pulse is at [startTime]: the metronome
    event, strong on pulse 0 only, then the event that stops it, at the time
    of the next pulse. *)
Definition pulseEvents (startTime duration : Q) (position : Z) (j : nat)
  : list MetronomeOutput :=
  [MetronomeEvent METRONOME_CHANNEL (timeAfter startTime duration j) duration
                  position systemIndex
                  (if Nat.eqb j 0 then STRONG_ACCENT else WEAK_ACCENT);
   MetronomeStop (StopNoteEvent METRONOME_CHANNEL
                                (timeAfter startTime duration (S j)) position
                                systemIndex METRONOME_PITCH)].

(** The pulses of the bar that starts at [barline], from pulse 0 on. *)
Definition barEvents (barline : Barline) (startTime : Q)
  : list MetronomeOutput :=
  flat_map (pulseEvents startTime
                        (pulseDuration currentScore currentSystemIndex barline)
                        (Barline_GetPosition barline))
           (seq 0 (barPulseCount barline)).

(** The time at which bar [k] starts: [startTime] advanced pulse by pulse
    through the bars before it. *)
Definition barStartTime (bars : list Barline) (startTime : Q) (k : nat) : Q :=
  fold_left
    (fun t b =>
       timeAfter t (pulseDuration currentScore currentSystemIndex b)
                 (barPulseCount b))
    (firstn k bars) startTime.
End MetronomeShape.

(** ** The packed symbols of a direction *)

(** The symbol functions of [direction.cpp], on the symbol array of a
    direction: a vector of 16-bit words, one for each symbol. *)
Module DirectionSymbols.
Definition MAX_SYMBOLS : Z := 3.
Definition NUM_SYMBOL_TYPES : Z := 19.
Definition MIN_REPEAT_NUMBER : Z := 0.
Definition MAX_REPEAT_NUMBER : Z := 24.

Definition to_uint16 (z : Z) : Z := z mod 2 ^ 16.

Section Symbols.
(** The masks and the validity tests of [direction.h], which is not among
    the sources; [IsValidSymbolIndex] reads the symbol count. *)
Variables symbolTypeMask activeSymbolMask repeatNumberMask : Z.
Variables IsValidSymbolType IsValidActiveSymbol IsValidRepeatNumber : Z -> bool.
Variable IsValidSymbolIndex : Z -> Z -> bool.

Definition GetSymbolCount (m_symbolArray : list Z) : Z :=
  Z.of_nat (length m_symbolArray).

(** [m_symbolArray[index] = symbol]. *)
Fixpoint assign (index : nat) (symbol : Z) (m_symbolArray : list Z) : list Z :=
  match m_symbolArray, index with
  | [], _ => []
  | _ :: rest, O => symbol :: rest
  | s :: rest, S n => s :: assign n symbol rest
  end.

(** [SetSymbol]: the returned flag and the symbol array after the call. *)
Definition SetSymbol (m_symbolArray : list Z) (index symbolType activeSymbol
                                                 repeatNumber : Z)
  : bool * list Z :=
  if negb (IsValidSymbolIndex (GetSymbolCount m_symbolArray) index)
  then (false, m_symbolArray)
  else if negb (IsValidSymbolType symbolType) then (false, m_symbolArray)
  else if negb (IsValidActiveSymbol activeSymbol) then (false, m_symbolArray)
  else if negb (IsValidRepeatNumber repeatNumber) then (false, m_symbolArray)
  else
    let symbol := to_uint16 (Z.shiftl symbolType 8) in
    let symbol := Z.lor symbol (to_uint16 (Z.shiftl activeSymbol 6)) in
    let symbol := Z.lor symbol (to_uint16 repeatNumber) in
    (true, assign (Z.to_nat index) symbol m_symbolArray).

(** [GetSymbol]: [None] when it returns false, leaving the three reference
    parameters alone; the values written to them otherwise. *)
Definition GetSymbol (m_symbolArray : list Z) (index : Z) : option (Z * Z * Z) :=
  if negb (IsValidSymbolIndex (GetSymbolCount m_symbolArray) index) then None
  else
    let symbol := nth (Z.to_nat index) m_symbolArray 0 in
    Some (to_uint8 (Z.shiftr (Z.land symbol symbolTypeMask) 8),
          to_uint8 (Z.shiftr (Z.land symbol activeSymbolMask) 6),
          to_uint8 (Z.land symbol repeatNumberMask)).

(** [AddSymbol]: the returned flag and the symbol array after the call. *)
Definition AddSymbol (m_symbolArray : list Z) (symbolType activeSymbol
                                                 repeatNumber : Z)
  : bool * list Z :=
  if negb (IsValidSymbolType symbolType) then (false, m_symbolArray)
  else if negb (IsValidActiveSymbol activeSymbol) then (false, m_symbolArray)
  else if negb (IsValidRepeatNumber repeatNumber) then (false, m_symbolArray)
  else if GetSymbolCount m_symbolArray =? MAX_SYMBOLS then (false, m_symbolArray)
  else
    let pushed := m_symbolArray ++ [0] in
    SetSymbol pushed (to_uint32 (GetSymbolCount pushed - 1)) symbolType
              activeSymbol repeatNumber.

(** [IsSymbolType]. *)
Definition IsSymbolType (m_symbolArray : list Z) (index symbolType : Z) : bool :=
  if negb (IsValidSymbolIndex (GetSymbolCount m_symbolArray) index) then false
  else if negb (IsValidSymbolType symbolType) then false
  else
    match GetSymbol m_symbolArray index with
    | Some (type, _, _) => type =? symbolType
    | None => false
    end.

(** [RemoveSymbolAtIndex]: the returned flag and the symbol array after the
    call. *)
Definition RemoveSymbolAtIndex (m_symbolArray : list Z) (index : Z)
  : bool * list Z :=
  if negb (IsValidSymbolIndex (GetSymbolCount m_symbolArray) index)
  then (false, m_symbolArray)
  else
    (true,
     firstn (Z.to_nat index) m_symbolArray
     ++ skipn (S (Z.to_nat index)) m_symbolArray).
End Symbols.

(** The three fields written by [SetSymbol] are read back through the masks
    of bits 8 to 15, 6 to 7 and 0 to 5. *)
Definition fieldsReadBack (symbolType activeSymbol repeatNumber : Z) : bool :=
  let symbol :=
    Z.lor (Z.lor (to_uint16 (Z.shiftl symbolType 8))
                 (to_uint16 (Z.shiftl activeSymbol 6)))
          (to_uint16 repeatNumber) in
  (to_uint8 (Z.shiftr (Z.land symbol 65280) 8) =? symbolType)
  && (to_uint8 (Z.shiftr (Z.land symbol 192) 6) =? activeSymbol)
  && (to_uint8 (Z.land symbol 63) =? repeatNumber).
End DirectionSymbols.

(** ** Predicates used in the statements about the indexes and the events *)

(** The invariant of the repeat index: increasing start locations, the
    start of the score among them. *)
Definition repeatsIndexed {Repeat : Type} (c : @RepeatController Repeat)
  : Prop :=
  keys_increasing (repeats c)
  /\ In (mkSystemLocation 0 0) (map fst (repeats c)).

(** The insertions of [indexDirections], as functions on the two indexes. *)
Definition insertDirection (m : list (SystemLocation * DirectionSymbol))
           (e : SystemLocation * DirectionSymbol) :=
  multimap_insert loc_ltb (fst e) (snd e) m.

Definition insertSymbolLocation (m : list (symbolTypes * SystemLocation))
           (e : symbolTypes * SystemLocation) :=
  multimap_insert symbol_ltb (fst e) (snd e) m.

Definition symbolEntry (e : SystemLocation * DirectionSymbol)
  : symbolTypes * SystemLocation :=
  (getSymbolType (snd e), fst e).

(** Both indexes after a step are the indexes before it with the given
    entries inserted in order. *)
Definition indexesExtended {Repeat : Type} (c c' : @RepeatController Repeat)
           (entries : list (SystemLocation * DirectionSymbol)) : Prop :=
  directions c' = fold_left insertDirection entries (directions c)
  /\ symbolLocations c'
     = fold_left insertSymbolLocation (map symbolEntry entries)
                 (symbolLocations c).

(** The target of a jump: the location found, or the start of the score. *)
Definition locationOrStart (o : option SystemLocation) : SystemLocation :=
  match o with
  | Some location => location
  | None => mkSystemLocation 0 0
  end.

(** An event of the loop over the notes of the position at [positionIndex]. *)
Definition noteEventAt (systemIndex i positionIndex : Z) (e : MidiEvent)
  : Prop :=
  isNoteLevel e = true /\ eventChannel e = i
  /\ eventSystemIndex e = systemIndex /\ eventPositionIndex e = positionIndex.

(** The facts one round of the loop over the positions keeps. *)
Definition positionRoundFacts (systemIndex i : Z) (st st' : VoiceState)
           (events : list MidiEvent) : Prop :=
  Forall2 sameUpToNoteOrder (vs_positions st) (vs_positions st')
  /\ (vs_endTime st <= vs_endTime st')%Q
  /\ (vs_startTime st' <= vs_endTime st')%Q
  /\ (exists n : nat, vibratoFlags events = concat (repeat [true; false] n))
  /\ Forall (fun e =>
               eventChannel e = i /\ eventSystemIndex e = systemIndex
               /\ In (eventPositionIndex e)
                     (map GetPosition (vs_positions st))) events.

(** An event of a staff of the system: its channel is the index of a staff,
    and its position index is the one of a position of that staff. *)
Definition eventOfSystem (systemIndex : Z) (system : System) (e : MidiEvent)
  : Prop :=
  eventSystemIndex e = systemIndex
  /\ exists (k : nat) (staff : Staff),
      nth_error (GetStaves system) k = Some staff
      /\ eventChannel e = Z.of_nat k
      /\ In (eventPositionIndex e) (map GetPosition (concat (GetVoices staff))).

(** ** A reference environment and example scores *)

(** Modelled from the spec: the nearest preceding barline of a position, the
    last barline of the system at or before it ([System::GetPrecedingBarline]
    is not among the sources). *)
Definition precedingBarline (system : System) (position : Z) : Barline :=
  fold_left
    (fun found bar =>
       if Barline_GetPosition bar <=? position then bar else found)
    (GetBarlines system) (mkBarline 0 false false 0 4 4 4).

(** Modelled from the spec: a position is the only item of its measure when
    every position of the staff that has the same preceding barline is at
    the same place ([Staff::IsOnlyPositionInBar] is not among the sources). *)
Definition onlyPositionInBar (staff : Staff) (position : Position)
           (system : System) : bool :=
  let bar p := Barline_GetPosition (precedingBarline system (GetPosition p)) in
  forallb
    (fun p => negb (bar p =? bar position) || (GetPosition p =? GetPosition position))
    (concat (GetVoices staff)).

(** Modelled from the spec: the constants of the player's headers.  The
    spec fixes the default tempo (120 beats per minute, quarter-note beat)
    and the bend scale (one unit per quarter tone); the centre of the bend
    scale, the grace-note duration, the arpeggio stagger, the value of
    [TempoMarker::quarter] and the octave of a MIDI note are given the usual
    MIDI values. *)
Definition specEnv : PlayerEnv :=
  {| GRACE_NOTE_DURATION := 60;
     ARPEGGIO_OFFSET := 30;
     DEFAULT_BEND := 64;
     BEND_QUARTER_TONE := 1;
     DEFAULT_BEATS_PER_MINUTE := 120;
     DEFAULT_BEAT_TYPE := 2;
     TempoMarker_quarter := 2;
     GetMidiNoteOctave := fun pitch => pitch / 12 - 1;
     GetPrecedingBarline := precedingBarline;
     IsOnlyPositionInBar := onlyPositionInBar |}.

Module Examples.
Definition plainBar (position : Z) : Barline :=
  mkBarline position false false 0 4 4 4.

(** One system of ten positions with a "D.C." at position 5. *)
Definition daCapoScore : Score :=
  mkScore [mkSystem [plainBar 0; plainBar 10]
                    [mkDirection 5 [mkDirectionSymbol daCapo activeNone 0]]
                    [] 10]
          [] [] [].

Definition daCapoController : @RepeatController SpecRepeat.Repeat :=
  newRepeatController daCapoScore.

(** A score without directions and without repeat bars. *)
Definition plainScore : Score :=
  mkScore [mkSystem [plainBar 0; plainBar 10] [] [] 10] [] [] [].

Definition plainController : @RepeatController SpecRepeat.Repeat :=
  newRepeatController plainScore.

(** Two tempo markers in system 0: 120 beats per minute at position 0 and
    60 beats per minute at position 20, both on the quarter note. *)
Definition twoTempoScore : Score :=
  mkScore [] []
          [mkTempoMarker 0 0 false 120 2; mkTempoMarker 0 20 false 60 2] [].

(** A whole rest alone in a 4/4 bar, no tempo marker. *)
Definition wholeRest : Position :=
  mkPosition 1 1 4 true false false false false false false false false
             false [].

Definition wholeRestStaff : Staff := mkStaff [[wholeRest]; []].

Definition wholeRestSystem : System :=
  mkSystem [plainBar 0; plainBar 10] [] [wholeRestStaff] 10.

Definition wholeRestScore : Score :=
  mkScore [wholeRestSystem] [mkGuitar [64; 59; 55; 50; 45; 40] 0] [] [].

Definition standardGuitar : Guitar := mkGuitar [64; 59; 55; 50; 45; 40] 0.

Definition plainNote (string fret : Z) : Note :=
  mkNote string fret false false false false false None None None None None
         None.

(** A voice whose only position is a quarter note with let ring. *)
Definition letRingPosition : Position :=
  mkPosition 1 4 1 false false false false false false true false false
             false [plainNote 0 3].

Definition letRingStaff : Staff := mkStaff [[letRingPosition]; []].

Definition letRingSystem : System :=
  mkSystem [plainBar 0; plainBar 10] [] [letRingStaff] 10.

Definition letRingScore : Score :=
  mkScore [letRingSystem] [standardGuitar] [] [].

(** A voice with a let-ring quarter note followed by a quarter rest. *)
Definition quarterRest : Position :=
  mkPosition 2 4 1 true false false false false false false false false
             false [].

Definition letRingThenRestStaff : Staff :=
  mkStaff [[letRingPosition; quarterRest]; []].

(** A quarter note that is tied to its predecessor, at a position with
    tremolo picking. *)
Definition tiedNote : Note :=
  mkNote 0 3 true false false false false None None None None None None.

Definition tremoloPosition : Position :=
  mkPosition 2 4 1 false false false false false false false true false
             false [tiedNote].

(** A two-note chord with an upward arpeggio. *)
Definition arpeggioPosition : Position :=
  mkPosition 1 4 1 false false false true false false false false false
             false [plainNote 0 3; plainNote 1 5].

Definition arpeggioState : VoiceState :=
  mkVoiceState [arpeggioPosition] 0 0 false 64.

Definition arpeggioStaff : Staff := mkStaff [[arpeggioPosition]; []].

Definition arpeggioSystem : System :=
  mkSystem [plainBar 0; plainBar 10] [] [arpeggioStaff] 10.

Definition arpeggioScore : Score :=
  mkScore [arpeggioSystem] [standardGuitar] [] [].

(** One system with a Segno at position 2 and a "D.S." at position 8. *)
Definition segnoScore : Score :=
  mkScore [mkSystem [plainBar 0; plainBar 10]
                    [mkDirection 2 [mkDirectionSymbol segno activeNone 0];
                     mkDirection 8 [mkDirectionSymbol dalSegno activeNone 0]]
                    [] 10]
          [] [] [].

(** One system of ten positions whose only direction, at position 4, has
    the two symbols "To Coda" and "Coda", neither with a required active
    symbol or repeat number. *)
Definition toCodaSymbol : DirectionSymbol := mkDirectionSymbol toCoda activeNone 0.

Definition twoSymbolScore : Score :=
  mkScore [mkSystem [plainBar 0; plainBar 10]
                    [mkDirection 4 [toCodaSymbol;
                                    mkDirectionSymbol coda activeNone 0]]
                    [] 10]
          [] [] [].

Definition twoSymbolController : @RepeatController SpecRepeat.Repeat :=
  newRepeatController twoSymbolScore.

(** The same system with the "To Coda" alone in its direction. *)
Definition oneSymbolScore : Score :=
  mkScore [mkSystem [plainBar 0; plainBar 10]
                    [mkDirection 4 [toCodaSymbol]]
                    [] 10]
          [] [] [].

Definition oneSymbolController : @RepeatController SpecRepeat.Repeat :=
  newRepeatController oneSymbolScore.

(** A note with a slide into it of a type the player does not support. *)
Definition slideIntoNote : Note :=
  mkNote 0 3 false false false false false None None None None
         (Some slideIntoOther) None.

(** The validity tests of a direction, by the constants of
    [direction.cpp]. *)
Definition validSymbolType (t : Z) : bool :=
  t <? DirectionSymbols.NUM_SYMBOL_TYPES.
Definition validActiveSymbol (a : Z) : bool := a <? 4.
Definition validRepeatNumber (r : Z) : bool :=
  (DirectionSymbols.MIN_REPEAT_NUMBER <=? r)
  && (r <=? DirectionSymbols.MAX_REPEAT_NUMBER).
Definition validSymbolIndex (count index : Z) : bool := index <? count.
End Examples.

(** * Properties of the repeat controller *)

Lemma loc_eqb_refl (a : SystemLocation) : loc_eqb a a = true.
Proof. unfold loc_eqb. now rewrite !Z.eqb_refl. Qed.


Section ErasedEntries.
Variables K V : Type.
Variable eq_dec : forall a b : K * V, {a = b} + {a <> b}.

Lemma count_occ_erase (m : list (K * V)) :
  forall (n : nat) (e x : K * V),
    nth_error m n = Some e ->
    (count_occ eq_dec (erase n m) x + (if eq_dec e x then 1 else 0)
     = count_occ eq_dec m x)%nat.
Proof.
  induction m as [|y m IH]; intros n e x Hn.
  - destruct n; discriminate.
  - destruct n as [|n]; simpl in Hn.
    + injection Hn as ->. simpl.
      destruct (eq_dec e x); lia.
    + simpl. specialize (IH n e x Hn).
      destruct (eq_dec y x); lia.
Qed.

Lemma erase_length (m : list (K * V)) :
  forall n e, nth_error m n = Some e -> S (length (erase n m)) = length m.
Proof.
  induction m as [|y m IH]; intros [|n] e Hn; try discriminate; simpl; auto.
  simpl in Hn. now rewrite (IH n e Hn).
Qed.
End ErasedEntries.

Section ControllerFacts.
Context {Repeat : Type} {ops : RepeatOps Repeat}.
Implicit Types (c : @RepeatController Repeat) (cur : SystemLocation).

Lemma performMusicalDirection_directions c t :
  directions (fst (performMusicalDirection c t)) = directions c.
Proof.
  unfold performMusicalDirection.
  destruct t; simpl; try reflexivity;
    match goal with
    | |- context [multimap_find ?f ?k ?m] => destruct (multimap_find f k m) as [[? ?]|]
    end; reflexivity.
Qed.

Lemma performMusicalDirection_repeats c t :
  repeats (fst (performMusicalDirection c t)) = repeats c.
Proof.
  unfold performMusicalDirection.
  destruct t; simpl; try reflexivity;
    match goal with
    | |- context [multimap_find ?f ?k ?m] => destruct (multimap_find f k m) as [[? ?]|]
    end; reflexivity.
Qed.

(** The direction block changes the direction index exactly when it leaves
    a new location, and then by erasing the entry it looked at. *)
Lemma checkDirections_directions c a cur :
  directions (fst (checkDirections c a cur))
  = if loc_eqb (snd (checkDirections c a cur)) cur then directions c
    else erase (lower_bound loc_ltb cur (directions c)) (directions c).
Proof.
  unfold checkDirections.
  destruct (nth_error (directions c) _) as [[l d]|];
    [|now rewrite loc_eqb_refl].
  destruct (nth_error (repeats c) a) as [[l' r]|];
    [|now rewrite loc_eqb_refl].
  destruct (shouldPerformDirection _ _ _); [|now rewrite loc_eqb_refl].
  pose proof (performMusicalDirection_directions c (getSymbolType d)) as Hd.
  destruct (performMusicalDirection c (getSymbolType d)) as [c1 newLocation].
  simpl in Hd.
  destruct (loc_eqb newLocation cur) eqn:E; simpl; rewrite E; simpl; congruence.
Qed.

Lemma resolveLocation_directions c cur :
  directions (fst (resolveLocation c cur))
  = directions (fst (checkDirections c (getPreviousRepeatGroup c cur) cur)).
Proof.
  unfold resolveLocation.
  destruct (checkDirections c _ cur) as [c1 newLocation]; simpl.
  destruct (loc_eqb newLocation cur); [|reflexivity].
  destruct (nth_error (repeats c1) _) as [[l r]|]; [|reflexivity].
  destruct (performRepeat r cur); reflexivity.
Qed.

Lemma checkForRepeat_directions c cs cp ns np :
  directions (fst (checkForRepeat c cs cp ns np))
  = match performedDirection c (loc_of cs cp) with
    | Some _ =>
        erase (lower_bound loc_ltb (loc_of cs cp) (directions c)) (directions c)
    | None => directions c
    end.
Proof.
  unfold checkForRepeat, performedDirection, loc_of.
  destruct (repeats c) as [|g gs] eqn:Hr; [reflexivity|].
  set (cur := mkSystemLocation cs cp).
  pose proof (resolveLocation_directions c cur) as Hres.
  pose proof (checkDirections_directions c (getPreviousRepeatGroup c cur) cur) as Hchk.
  destruct (resolveLocation c cur) as [c' newLocation]; simpl in Hres.
  assert (Hfst : directions
                   (fst (if loc_eqb newLocation cur
                         then (c', (false, (ns, np)))
                         else (c', (true, (getSystemIndex newLocation,
                                           getPositionIndex newLocation)))))
                 = directions c')
    by (destruct (loc_eqb newLocation cur); reflexivity).
  rewrite Hfst, Hres, Hchk.
  destruct (loc_eqb (snd (checkDirections c _ cur)) cur) eqn:E; [reflexivity|].
  destruct (nth_error (directions c) _) eqn:En; [reflexivity|].
  (* the block looked at no entry, so it cannot have left a new location *)
  exfalso. unfold checkDirections in E. rewrite En in E.
  simpl in E. now rewrite loc_eqb_refl in E.
Qed.

Lemma performedDirection_indexed c cur d :
  performedDirection c cur = Some d ->
  nth_error (directions c) (lower_bound loc_ltb cur (directions c)) = Some d.
Proof.
  unfold performedDirection.
  destruct (repeats c); [discriminate|].
  destruct (loc_eqb _ cur); [discriminate|auto].
Qed.
End ControllerFacts.

Section ControllerClaims.
Context {Repeat : Type} {ops : RepeatOps Repeat}.
Implicit Types (c : @RepeatController Repeat) (cur : SystemLocation).

(** One query: the copies of an entry left in the direction index, plus
    one if the query performed that entry, are the copies there were. *)
Lemma checkForRepeat_consumes c cur (x : SystemLocation * DirectionSymbol) :
  (count_occ entry_eq_dec
     (directions (fst (checkForRepeat c (getSystemIndex cur)
                                      (getPositionIndex cur) 0 0))) x
   + match performedDirection c cur with
     | Some d => if entry_eq_dec d x then 1 else 0
     | None => 0
     end
   = count_occ entry_eq_dec (directions c) x)%nat.
Proof.
  rewrite checkForRepeat_directions.
  replace (loc_of (getSystemIndex cur) (getPositionIndex cur)) with cur
    by (destruct cur; reflexivity).
  destruct (performedDirection c cur) as [d|] eqn:E; [|lia].
  apply count_occ_erase. now apply performedDirection_indexed.
Qed.

(** Over any playback run, seen as the sequence of locations the
    controller is queried at, every performance of a direction symbol
    removes one copy of it from the direction index and nothing puts one
    back: the number of times an entry is performed during the run plus the
    number of its copies left in the index is the number of its copies
    indexed at the start.  An entry is therefore performed at most as often
    as it was indexed: once for an entry indexed once, and up to once for
    each copy for an entry indexed several times. *)
Lemma performances_bounded_by_copies :
  forall c (queries : list SystemLocation) (x : SystemLocation * DirectionSymbol),
    (count_occ entry_eq_dec (snd (playbackRun c queries)) x
     + count_occ entry_eq_dec (directions (fst (playbackRun c queries))) x
     = count_occ entry_eq_dec (directions c) x)%nat
    /\ (count_occ entry_eq_dec (snd (playbackRun c queries)) x
        <= count_occ entry_eq_dec (directions c) x)%nat.
Proof.
  intros c queries x.
  assert (H : (count_occ entry_eq_dec (snd (playbackRun c queries)) x
               + count_occ entry_eq_dec
                   (directions (fst (playbackRun c queries))) x
               = count_occ entry_eq_dec (directions c) x)%nat).
  { revert c. induction queries as [|q rest IH]; intros c.
    - reflexivity.
    - simpl.
      pose proof (checkForRepeat_consumes c q x) as Hstep.
      specialize (IH (fst (checkForRepeat c (getSystemIndex q)
                                          (getPositionIndex q) 0 0))).
      destruct (playbackRun _ rest) as [final performed]. simpl in *.
      destruct (performedDirection c q) as [d|]; simpl.
      + destruct (entry_eq_dec d x); lia.
      + lia. }
  split; [exact H | lia].
Qed.

(** The scenario of the spec at the level of one entry: once performed, the
    entry is gone from the index of the controller the query returns. *)
Lemma performed_direction_is_erased c cur d :
  performedDirection c cur = Some d ->
  directions (fst (checkForRepeat c (getSystemIndex cur) (getPositionIndex cur)
                                  0 0))
  = erase (lower_bound loc_ltb cur (directions c)) (directions c)
  /\ nth_error (directions c) (lower_bound loc_ltb cur (directions c)) = Some d.
Proof.
  intros Hd. rewrite checkForRepeat_directions.
  replace (loc_of (getSystemIndex cur) (getPositionIndex cur)) with cur
    by (destruct cur; reflexivity).
  rewrite Hd. split; [reflexivity|]. now apply performedDirection_indexed.
Qed.

(** C10. A call of [checkForRepeat] that produces no position change (the
    repeat index is empty, or neither a direction nor a repeat leaves a
    location other than the current one) returns [false] and leaves
    [newSystem] and [newPos] as the caller passed them; any other call
    returns [true]; so whenever [false] is returned the two parameters are
    unmodified. *)
Theorem checkForRepeat_no_change_frame :
  forall c (currentSystem currentPos newSystem newPos : Z),
    let result :=
      snd (checkForRepeat c currentSystem currentPos newSystem newPos) in
    (noPositionChange c (loc_of currentSystem currentPos) = true ->
     result = (false, (newSystem, newPos)))
    /\ (noPositionChange c (loc_of currentSystem currentPos) = false ->
        fst result = true)
    /\ (repeats c = [] -> result = (false, (newSystem, newPos)))
    /\ (fst result = false -> snd result = (newSystem, newPos)).
Proof.
  intros c cs cp ns np result.
  unfold noPositionChange, loc_of.
  subst result. unfold checkForRepeat.
  destruct (repeats c) as [|g gs].
  - simpl. repeat split; auto; discriminate.
  - destruct (resolveLocation c (mkSystemLocation cs cp)) as [c' newLocation].
    simpl.
    destruct (loc_eqb newLocation (mkSystemLocation cs cp)); simpl;
      repeat split; auto; discriminate.
Qed.
End ControllerClaims.

Lemma checkForRepeat_no_change_frame_witness :
  snd (checkForRepeat Examples.plainController 0 3 7 9) = (false, (7, 9)).
Proof.
  apply (proj1 (checkForRepeat_no_change_frame Examples.plainController 0 3 7 9)).
  reflexivity.
Defined.

(** A "D.C." queried twice at its own location is performed by the first
    query only. *)
Example daCapo_performed_once :
  snd (playbackRun Examples.daCapoController [loc_of 0 5; loc_of 0 5])
  = [(loc_of 0 5, mkDirectionSymbol daCapo activeNone 0)]
  /\ directions
       (fst (playbackRun Examples.daCapoController [loc_of 0 5; loc_of 0 5]))
     = [].
Proof. split; reflexivity. Qed.

(** C2. On the score whose only direction, at position 4 of system 0, has
    the two symbols "To Coda" and "Coda", the "To Coda" is performed twice
    in one run: [indexDirections] enters the symbol at index 0 once for each
    symbol of the direction, so the direction index holds two copies of the
    "To Coda"; the first query at (0,4) performs it (it returns [true] with
    the target (0,0), no Coda being indexed) and erases one copy, the query
    of the next pass at (0,4) performs the copy that is left and returns
    [true] with (0,0) again, and only the third pass finds nothing to
    perform.  With the "To Coda" alone in its direction the second pass
    already returns [false]. *)
Theorem two_symbol_direction_performed_twice :
  let c0 := Examples.twoSymbolController in
  let c1 := fst (checkForRepeat c0 0 4 7 9) in
  let c2 := fst (checkForRepeat c1 0 4 7 9) in
  let single := Examples.oneSymbolController in
  directions c0 = [(loc_of 0 4, Examples.toCodaSymbol);
                   (loc_of 0 4, Examples.toCodaSymbol)]
  /\ snd (checkForRepeat c0 0 4 7 9) = (true, (0, 0))
  /\ directions c1 = [(loc_of 0 4, Examples.toCodaSymbol)]
  /\ snd (checkForRepeat c1 0 4 7 9) = (true, (0, 0))
  /\ directions c2 = []
  /\ snd (checkForRepeat c2 0 4 7 9) = (false, (7, 9))
  /\ snd (playbackRun c0 [loc_of 0 4; loc_of 0 4; loc_of 0 4])
     = [(loc_of 0 4, Examples.toCodaSymbol);
        (loc_of 0 4, Examples.toCodaSymbol)]
  /\ directions single = [(loc_of 0 4, Examples.toCodaSymbol)]
  /\ snd (checkForRepeat single 0 4 7 9) = (true, (0, 0))
  /\ snd (checkForRepeat (fst (checkForRepeat single 0 4 7 9)) 0 4 7 9)
     = (false, (7, 9)).
Proof.
  cbv zeta. repeat split; reflexivity.
Qed.


(** * Properties of the event generator *)

Lemma to_uint8_small (z : Z) : 0 <= z < 256 -> to_uint8 z = z.
Proof. intros H. unfold to_uint8. now apply Z.mod_small. Qed.

Section BendClaims.
Context {env : PlayerEnv}.
#[local] Open Scope Q_scope.

(** The sample of index [k] (from 0) of a gradual bend. *)
Lemma generateGradualBend_nth (startTime duration : Q) (fromAmount toAmount : Z) :
  (0 <= fromAmount < 256)%Z -> (0 <= toAmount < 256)%Z ->
  forall k : nat,
    (k < Z.to_nat (Z.abs (fromAmount - toAmount)))%nat ->
    nth_error (generateGradualBend startTime duration fromAmount toAmount) k
    = Some (mkBendEventInfo
              (startTime
               + duration / inject_Z (Z.abs (fromAmount - toAmount))
                 * inject_Z (Z.of_nat (S k)))
              (if (fromAmount <? toAmount)%Z
               then (fromAmount + Z.of_nat (S k))%Z
               else (fromAmount - Z.of_nat (S k))%Z)).
Proof.
  intros Hf Ht k Hk. unfold generateGradualBend.
  rewrite (to_uint8_small Hf), (to_uint8_small Ht).
  rewrite nth_error_map, nth_error_seq.
  apply Nat.ltb_lt in Hk as Hk'. rewrite Hk'. simpl option_map.
  replace (1 + k)%nat with (S k) by reflexivity.
  destruct (fromAmount <? toAmount)%Z eqn:E.
  - apply Z.ltb_lt in E. rewrite to_uint8_small; [reflexivity|lia].
  - apply Z.ltb_ge in E. rewrite to_uint8_small; [reflexivity|lia].
Qed.

(** C8. For [fromAmount <> toAmount] (both [uint8_t] values),
    [generateGradualBend] emits exactly [|toAmount - fromAmount|] samples;
    sample [k] (from 0) has the amount [fromAmount] moved [k + 1] unit
    steps toward [toAmount] and the timestamp
    [startTime + duration / n * (k + 1)]; consecutive samples are one unit
    and [duration / n] apart; the last sample has the amount [toAmount] and
    the timestamp [startTime + duration]. *)
Theorem generateGradualBend_unit_steps :
  forall (startTime duration : Q) (fromAmount toAmount : Z),
    (0 <= fromAmount < 256)%Z -> (0 <= toAmount < 256)%Z ->
    fromAmount <> toAmount ->
    let n := Z.abs (fromAmount - toAmount) in
    let step := if (fromAmount <? toAmount)%Z then 1%Z else (-1)%Z in
    let bends := generateGradualBend startTime duration fromAmount toAmount in
    length bends = Z.to_nat (Z.abs (toAmount - fromAmount))
    /\ (forall k : nat,
           (k < Z.to_nat n)%nat ->
           exists b,
             nth_error bends k = Some b
             /\ pitchBendAmount b = (fromAmount + step * Z.of_nat (S k))%Z
             /\ timestamp b
                == startTime + duration / inject_Z n * inject_Z (Z.of_nat (S k)))
    /\ (forall (k : nat) b b',
           nth_error bends k = Some b -> nth_error bends (S k) = Some b' ->
           (pitchBendAmount b' - pitchBendAmount b)%Z = step
           /\ timestamp b' - timestamp b == duration / inject_Z n)
    /\ (exists b,
           nth_error bends (Nat.pred (Z.to_nat n)) = Some b
           /\ pitchBendAmount b = toAmount
           /\ timestamp b == startTime + duration).
Proof.
  intros startTime duration fromAmount toAmount Hf Ht Hne n step bends.
  assert (Hlen : length bends = Z.to_nat n).
  { subst bends n. unfold generateGradualBend.
    rewrite length_map, length_seq.
    now rewrite (to_uint8_small Hf), (to_uint8_small Ht). }
  assert (Hnth : forall k : nat,
             (k < Z.to_nat n)%nat ->
             nth_error bends k
             = Some (mkBendEventInfo
                       (startTime + duration / inject_Z n
                                    * inject_Z (Z.of_nat (S k)))
                       (fromAmount + step * Z.of_nat (S k))%Z)).
  { intros k Hk. subst bends.
    rewrite (generateGradualBend_nth startTime duration Hf Ht Hk).
    subst step n. destruct (fromAmount <? toAmount)%Z; do 2 f_equal; lia. }
  assert (Hn : (0 < n)%Z) by (subst n; lia).
  repeat split.
  - rewrite Hlen. subst n. f_equal. lia.
  - intros k Hk. eexists. split; [apply Hnth, Hk|]. simpl. split; reflexivity.
  - assert (HSk : (S k < Z.to_nat n)%nat).
    { rewrite <- Hlen. apply nth_error_Some. congruence. }
    rewrite (Hnth k) in H by lia. rewrite (Hnth (S k) HSk) in H0.
    injection H as <-. injection H0 as <-. simpl. lia.
  - assert (HSk : (S k < Z.to_nat n)%nat).
    { rewrite <- Hlen. apply nth_error_Some. congruence. }
    pose proof (Hnth k ltac:(lia)) as Hb. pose proof (Hnth (S k) HSk) as Hb'.
    assert (Eb : b = mkBendEventInfo
                       (startTime + duration / inject_Z n
                                    * inject_Z (Z.of_nat (S k)))
                       (fromAmount + step * Z.of_nat (S k))%Z) by congruence.
    assert (Eb' : b' = mkBendEventInfo
                         (startTime + duration / inject_Z n
                                      * inject_Z (Z.of_nat (S (S k))))
                         (fromAmount + step * Z.of_nat (S (S k)))%Z)
      by congruence.
    rewrite Eb, Eb'. cbn [timestamp].
    rewrite (Nat2Z.inj_succ (S k)). unfold Z.succ. rewrite inject_Z_plus.
    ring.
  - exists (mkBendEventInfo
              (startTime + duration / inject_Z n
                           * inject_Z (Z.of_nat (S (Nat.pred (Z.to_nat n)))))
              (fromAmount + step * Z.of_nat (S (Nat.pred (Z.to_nat n))))%Z).
    split; [apply Hnth; lia|].
    assert (HS : Z.of_nat (S (Nat.pred (Z.to_nat n))) = n) by lia.
    rewrite HS. cbn [pitchBendAmount timestamp]. split.
    + subst step n. destruct (fromAmount <? toAmount)%Z eqn:E.
      * apply Z.ltb_lt in E. lia.
      * apply Z.ltb_ge in E. lia.
    + assert (~ inject_Z n == 0).
      { intros H0. unfold Qeq in H0. simpl in H0. lia. }
      field. assumption.
Qed.
End BendClaims.

Lemma generateGradualBend_unit_steps_witness :
  length (generateGradualBend 0 500 64 72) = Z.to_nat (Z.abs (72 - 64)).
Proof.
  apply (@generateGradualBend_unit_steps 0 500 64 72); lia.
Defined.

Section PreBendClaims.
Context {env : PlayerEnv}.
#[local] Open Scope Q_scope.

(** On the quarter-tone scale a pitch of [p] steps is the amount
    [DEFAULT_BEND + p]. *)
Lemma bend_amount_quarter_tones (p : Z) :
  BEND_QUARTER_TONE == 1 ->
  (0 <= DEFAULT_BEND + p < 256)%Z ->
  to_uint8 (Qfloor (inject_Z DEFAULT_BEND + inject_Z p * BEND_QUARTER_TONE))
  = (DEFAULT_BEND + p)%Z.
Proof.
  intros Hq Hr.
  rewrite (Qfloor_comp (inject_Z DEFAULT_BEND + inject_Z p * BEND_QUARTER_TONE)
                       (inject_Z (DEFAULT_BEND + p))).
  - rewrite Qfloor_Z. now apply to_uint8_small.
  - rewrite Hq, inject_Z_plus. ring.
Qed.

(** C5, amended. With one bend unit per quarter tone, a pre-bend of 8
    steps makes [generateBends] emit exactly two samples: one at the start
    of the note with the amount [DEFAULT_BEND + 8] and one at the end of
    the note with the amount [DEFAULT_BEND + releasePitch], the release
    pitch stored in the note; the bend carried to the next note is that
    release amount.  The end sample is [DEFAULT_BEND] for a release pitch
    of 0 and [DEFAULT_BEND + 8] only for a release pitch of 8. *)
Theorem preBend_resets_to_release_pitch :
  forall (startTime duration currentTempo : Q) (activePitchBend : Z)
         (bend : Bend),
    BEND_QUARTER_TONE == 1 ->
    bend_type bend = preBend ->
    bentPitch bend = 8%Z ->
    (0 <= DEFAULT_BEND + 8 < 256)%Z ->
    (0 <= DEFAULT_BEND + releasePitch bend < 256)%Z ->
    generateBends startTime duration currentTempo activePitchBend bend
    = ([mkBendEventInfo startTime (DEFAULT_BEND + 8)%Z;
        mkBendEventInfo (startTime + duration)
                        (DEFAULT_BEND + releasePitch bend)%Z],
       (DEFAULT_BEND + releasePitch bend)%Z).
Proof.
  intros startTime duration currentTempo activePitchBend bend Hq Ht Hb H8 Hr.
  unfold generateBends. rewrite Ht, Hb. cbn [bendTypes_eqb orb app].
  rewrite (bend_amount_quarter_tones 8 Hq H8).
  rewrite (bend_amount_quarter_tones (releasePitch bend) Hq Hr).
  reflexivity.
Qed.
End PreBendClaims.

Lemma preBend_resets_to_release_pitch_witness :
  @generateBends specEnv 0 500 500 64 (mkBend preBend 8 0 0 0 0)
  = ([mkBendEventInfo 0 72; mkBendEventInfo (0 + 500) 64], 64).
Proof.
  apply (@preBend_resets_to_release_pitch specEnv 0 500 500 64
           (mkBend preBend 8 0 0 0 0));
    [reflexivity | reflexivity | reflexivity | simpl; lia | simpl; lia].
Defined.

(** C5 as stated fails: for a pre-bend of 8 steps with no release (release
    pitch 0) and the centre at 64, the sample at the end of the note resets
    to the centre, 64, and not to 64 + 8. *)
Lemma preBend_reset_is_not_bent_amount :
  map pitchBendAmount
      (fst (@generateBends specEnv 0 500 500 64 (mkBend preBend 8 0 0 0 0)))
  = [64 + 8; 64]
  /\ ~ (forall bend : Bend,
           bend_type bend = preBend -> bentPitch bend = 8 ->
           map pitchBendAmount (fst (@generateBends specEnv 0 500 500 64 bend))
           = [64 + 8; 64 + 8]).
Proof.
  split; [reflexivity|].
  intros H. specialize (H (mkBend preBend 8 0 0 0 0) eq_refl eq_refl).
  vm_compute in H. discriminate H.
Qed.

Section TempoFacts.
Context {env : PlayerEnv}.
Variable currentScore : Score.
#[local] Open Scope Q_scope.

(** The tempo is 60000 / bpm * (quarter / beat type), for the marker found
    or for the defaults. *)
Lemma getCurrentTempo_formula (currentSystemIndex positionIndex : Z) :
  getCurrentTempo currentScore currentSystemIndex positionIndex
  == match getCurrentTempoMarker currentScore currentSystemIndex positionIndex with
     | Some tempoMarker =>
         60000 / inject_Z (GetBeatsPerMinute tempoMarker)
         * (TempoMarker_quarter / inject_Z (GetBeatType tempoMarker))
     | None =>
         60000 / DEFAULT_BEATS_PER_MINUTE
         * (TempoMarker_quarter / DEFAULT_BEAT_TYPE)
     end.
Proof.
  unfold getCurrentTempo.
  destruct (getCurrentTempoMarker _ _ _) as [tempoMarker|];
    unfold Qdiv; ring.
Qed.

(** A marker flagged as an alteration of pace is never the one found. *)
Lemma getCurrentTempoMarker_not_alteration (currentSystemIndex positionIndex : Z) :
  forall tempoMarker,
    getCurrentTempoMarker currentScore currentSystemIndex positionIndex
    = Some tempoMarker ->
    IsAlterationOfPace tempoMarker = false
    /\ (TempoMarker_GetSystem tempoMarker <= currentSystemIndex)%Z
    /\ (TempoMarker_GetPosition tempoMarker <= positionIndex)%Z.
Proof.
  unfold getCurrentTempoMarker.
  assert (Hgen : forall (l : list TempoMarker) (init : option TempoMarker) tm,
             (forall t, init = Some t ->
                        IsAlterationOfPace t = false
                        /\ (TempoMarker_GetSystem t <= currentSystemIndex)%Z
                        /\ (TempoMarker_GetPosition t <= positionIndex)%Z) ->
             fold_left
               (fun cur temp =>
                  if (TempoMarker_GetSystem temp <=? currentSystemIndex)%Z
                     && (TempoMarker_GetPosition temp <=? positionIndex)%Z
                     && negb (IsAlterationOfPace temp)
                  then Some temp else cur) l init = Some tm ->
             IsAlterationOfPace tm = false
             /\ (TempoMarker_GetSystem tm <= currentSystemIndex)%Z
             /\ (TempoMarker_GetPosition tm <= positionIndex)%Z).
  { induction l as [|temp l IH]; intros init tm Hinit Hfold; simpl in Hfold.
    - now apply Hinit.
    - apply IH in Hfold; [assumption|].
      intros t Ht.
      destruct ((TempoMarker_GetSystem temp <=? currentSystemIndex)%Z
                && (TempoMarker_GetPosition temp <=? positionIndex)%Z
                && negb (IsAlterationOfPace temp)) eqn:E.
      + injection Ht as <-.
        apply andb_true_iff in E as [E E3].
        apply andb_true_iff in E as [E1 E2].
        apply Z.leb_le in E1, E2. apply negb_true_iff in E3. auto.
      + now apply Hinit. }
  intros tm Hfold. eapply Hgen; [|exact Hfold]. discriminate.
Qed.
End TempoFacts.

(** C3. On the score with tempo markers at (0,0), 120 beats per minute, and
    at (0,20), 60 beats per minute, queried at position 2 while generating
    system 1: the marker at (0,20) is at a location before (1,2), is not an
    alteration of pace and is the latest such marker, yet the marker found is
    the one at (0,0) and the tempo is 500 ms per quarter note instead of
    1000 ms.  [getCurrentTempoMarker] compares the system index and the
    position index each on its own, so a marker of an earlier system at a
    greater position index is passed over. *)
Theorem getCurrentTempoMarker_skips_earlier_system_marker :
  let late := mkTempoMarker 0 20 false 60 2 in
  In late (GetTempoMarkers Examples.twoTempoScore)
  /\ loc_leb (loc_of (TempoMarker_GetSystem late) (TempoMarker_GetPosition late))
             (loc_of 1 2) = true
  /\ IsAlterationOfPace late = false
  /\ getCurrentTempoMarker Examples.twoTempoScore 1 2
     = Some (mkTempoMarker 0 0 false 120 2)
  /\ (@getCurrentTempo specEnv Examples.twoTempoScore 1 2 == 500)%Q
  /\ (60000 / inject_Z (GetBeatsPerMinute late)
      * (@TempoMarker_quarter specEnv / inject_Z (GetBeatType late)) == 1000)%Q.
Proof.
  cbv zeta. repeat split; try reflexivity.
  simpl. auto.
Qed.

Section WholeRestClaims.
Context {env : PlayerEnv}.
Variable currentScore : Score.
Variable currentSystemIndex : Z.
Variable systemIndex : Z.
Variable system : System.
Variable i : Z.
Variable staff : Staff.
Variable guitar : Guitar.
#[local] Open Scope Q_scope.

(** C7. A rest of whole-note duration type advances the cursor of its
    voice, without any event, by [tempo * 4 / beatAmount * beatsPerMeasure]
    of the time signature of the preceding barline when it is the only
    position of its bar, and by its notated duration
    [GetDuration * tempo] otherwise; at 500 ms per quarter note (120 beats
    per minute) in 4/4 the lone whole rest lasts 2000 ms. *)
Theorem whole_rest_lasts_the_bar :
  forall (st : VoiceState) (j : nat) (position : Position),
    nth_error (vs_positions st) j = Some position ->
    IsRest position = true ->
    GetDurationType position = 1%Z ->
    let tempo :=
      getCurrentTempo currentScore currentSystemIndex (GetPosition position) in
    let bar := GetPrecedingBarline system (GetPosition position) in
    let resolved :=
      if IsOnlyPositionInBar staff position system
      then tempo * 4 / inject_Z (GetBeatAmount bar)
           * inject_Z (GetBeatsPerMeasure bar)
      else GetDuration position * tempo in
    restDuration currentScore currentSystemIndex system staff position
    = resolved
    /\ generatePosition currentScore currentSystemIndex systemIndex system i
                        staff guitar j st
       = (mkVoiceState (vs_positions st) (vs_startTime st + resolved)
                       (Qmax (vs_endTime st) (vs_startTime st + resolved))
                       (vs_letRingActive st) (vs_activePitchBend st),
          [])
    /\ (IsOnlyPositionInBar staff position system = true ->
        tempo == 500 ->
        GetBeatAmount bar = 4%Z -> GetBeatsPerMeasure bar = 4%Z ->
        resolved == 2000).
Proof.
  intros st j position Hj Hrest Hwhole tempo bar resolved.
  assert (Hres : restDuration currentScore currentSystemIndex system staff
                              position = resolved).
  { unfold restDuration, getWholeRestDuration, calculateNoteDuration.
    rewrite Hwhole, Z.eqb_refl. subst resolved tempo bar.
    destruct (IsOnlyPositionInBar staff position system); reflexivity. }
  split; [exact Hres|]. split.
  - unfold generatePosition. rewrite Hj, Hrest, Hres. reflexivity.
  - intros Honly Htempo Hbeat Hbeats. subst resolved.
    rewrite Honly, Hbeat, Hbeats, Htempo. reflexivity.
Qed.
End WholeRestClaims.

Lemma whole_rest_lasts_the_bar_witness :
  (@restDuration specEnv Examples.wholeRestScore 0 Examples.wholeRestSystem
                 Examples.wholeRestStaff Examples.wholeRest == 2000)%Q.
Proof.
  pose proof (@whole_rest_lasts_the_bar specEnv Examples.wholeRestScore 0 0
                Examples.wholeRestSystem 0 Examples.wholeRestStaff
                (mkGuitar [64; 59; 55; 50; 45; 40] 0)
                (mkVoiceState [Examples.wholeRest] 0 0 false 64) 0%nat
                Examples.wholeRest eq_refl eq_refl eq_refl) as H.
  cbv zeta in H. destruct H as [Hres [_ H2000]].
  rewrite Hres.
  apply H2000; reflexivity.
Defined.

(** ** Let ring *)

Lemma letRingFlags_app (a b : list MidiEvent) :
  letRingFlags (a ++ b) = letRingFlags a ++ letRingFlags b.
Proof.
  induction a as [|e a IH]; [reflexivity|].
  destruct e; simpl; rewrite IH; reflexivity.
Qed.

Lemma letRingFlags_bends (f : BendEventInfo -> MidiEvent) (l : list BendEventInfo) :
  (forall b, letRingFlags [f b] = []) -> letRingFlags (map f l) = [].
Proof.
  intros Hf. induction l as [|b l IH]; [reflexivity|].
  change (map f (b :: l)) with ([f b] ++ map f l).
  now rewrite letRingFlags_app, Hf, IH.
Qed.

Lemma alternates_counts (flags : list bool) :
  forall first : bool,
    alternates first flags = true ->
    count_occ bool_dec flags first = count_occ bool_dec flags (negb first)
    \/ count_occ bool_dec flags first = S (count_occ bool_dec flags (negb first)).
Proof.
  induction flags as [|f flags IH]; intros first H; [left; reflexivity|].
  simpl in H. apply andb_true_iff in H as [Hf Hrest].
  apply eqb_prop in Hf. subst f.
  specialize (IH (negb first) Hrest). rewrite negb_involutive in IH.
  simpl.
  destruct (bool_dec first first) as [_|n]; [|contradiction].
  destruct (bool_dec first (negb first)) as [e|_];
    [destruct first; discriminate|].
  destruct IH as [IH|IH]; rewrite IH; auto.
Qed.

Lemma alternates_app (a b : list bool) :
  forall first : bool,
    alternates first a = true ->
    alternates (if Nat.even (length a) then first else negb first) b = true ->
    alternates first (a ++ b) = true.
Proof.
  induction a as [|f a IH]; intros first Ha Hb; [exact Hb|].
  simpl in Ha. apply andb_true_iff in Ha as [Hf Ha].
  simpl. rewrite Hf. simpl. apply IH; [exact Ha|].
  change (length (f :: a)) with (S (length a)) in Hb.
  rewrite Nat.even_succ in Hb. rewrite <- Nat.negb_even in Hb.
  destruct (Nat.even (length a)); simpl in *; [exact Hb|].
  now rewrite negb_involutive.
Qed.

Section LetRingFacts.
Context {env : PlayerEnv}.
Variable currentScore : Score.
Variable currentSystemIndex : Z.
Variable systemIndex : Z.
Variable system : System.
Variable i : Z.
Variable staff : Staff.
Variable guitar : Guitar.

Lemma tremoloLoop_no_letRing (numNotes : nat) :
  forall k startTime tremPickNoteDuration positionIndex isMuted velocity
         pitch otherPitch,
    letRingFlags
      (fst (tremoloLoop systemIndex i guitar numNotes k startTime
                        tremPickNoteDuration positionIndex isMuted velocity
                        pitch otherPitch)) = [].
Proof.
  induction numNotes as [|n IH]; intros; simpl; [reflexivity|].
  specialize (IH (k + 1) startTime tremPickNoteDuration positionIndex isMuted
                 velocity otherPitch pitch).
  destruct (tremoloLoop _ _ _ n _ _ _ _ _ _ _ _) as [events pitch'].
  simpl in *. exact IH.
Qed.

Lemma generateNote_no_letRing positions j position currentTempo startTime
      duration activePitchBend note :
  letRingFlags
    (fst (generateNote systemIndex i guitar positions j position currentTempo
                       startTime duration activePitchBend note)) = [].
Proof.
  unfold generateNote.
  destruct (match GetBend note with
            | Some bend => generateBends _ _ _ _ bend
            | None => _
            end) as [bends activePitchBend'].
  match goal with
  | |- context [if ?b then tremoloLoop _ _ _ ?n ?k ?s ?d ?p ?m ?v ?x ?y else _] =>
      pose proof (tremoloLoop_no_letRing n k s d p m v x y) as Htrem;
      destruct (tremoloLoop systemIndex i guitar n k s d p m v x y)
        as [tremoloEvents pitch'];
      destruct b
  end; simpl fst in *;
    rewrite !letRingFlags_app;
    rewrite letRingFlags_bends by reflexivity;
    try rewrite Htrem;
    destruct (negb (IsTied note));
    destruct (negb (HasTieWrap note) && _); reflexivity.
Qed.

Lemma notesLoop_no_letRing positions j position currentTempo notes :
  forall startTime duration activePitchBend,
    letRingFlags
      (snd (notesLoop systemIndex i guitar positions j position currentTempo
                      notes startTime duration activePitchBend)) = [].
Proof.
  induction notes as [|note rest IH]; intros; simpl; [reflexivity|].
  destruct (if HasArpeggioDown position || HasArpeggioUp position
            then _ else _) as [startTime' duration'].
  pose proof (generateNote_no_letRing positions j position currentTempo
                startTime' duration' activePitchBend note) as Hnote.
  destruct (generateNote _ _ _ _ _ _ _ _ _ _ note) as [events apb].
  specialize (IH startTime' duration' apb).
  destruct (notesLoop _ _ _ _ _ _ _ rest _ _ _) as [final events'].
  simpl in *. now rewrite letRingFlags_app, Hnote, IH.
Qed.

(** A position pushes no let-ring event and keeps [letRingActive], or
    pushes one event that toggles it. *)
Lemma generatePosition_letRing (j : nat) (st : VoiceState) :
  let result :=
    generatePosition currentScore currentSystemIndex systemIndex system i
                     staff guitar j st in
  (letRingFlags (snd result) = []
   /\ vs_letRingActive (fst result) = vs_letRingActive st)
  \/ (letRingFlags (snd result) = [negb (vs_letRingActive st)]
      /\ vs_letRingActive (fst result) = negb (vs_letRingActive st)).
Proof.
  cbv zeta. unfold generatePosition.
  destruct (nth_error (vs_positions st) j) as [position|]; [|left; auto].
  destruct (IsRest position); [left; auto|].
  destruct (if IsAcciaccatura position then _ else _) as [duration startTime].
  set (position' := if HasArpeggioDown position then SortNotesDown position
                    else if HasArpeggioUp position then SortNotesUp position
                    else position).
  set (positions := replace_nth j position' (vs_positions st)).
  assert (Hstep :
            letRingStep systemIndex i position' j (length positions) startTime
                        duration (vs_letRingActive st)
            = ([], vs_letRingActive st)
            \/ exists e,
                letRingStep systemIndex i position' j (length positions)
                            startTime duration (vs_letRingActive st)
                = ([e], negb (vs_letRingActive st))
                /\ letRingFlags [e] = [negb (vs_letRingActive st)]).
  { unfold letRingStep.
    destruct (HasLetRing position'), (vs_letRingActive st),
      (Nat.eqb (S j) (length positions)); simpl; eauto. }
  pose proof (notesLoop_no_letRing positions j position'
                (getCurrentTempo currentScore currentSystemIndex
                                 (GetPosition position))
                (GetNotes position') startTime duration
                (vs_activePitchBend st)) as Hnotes.
  destruct (notesLoop _ _ _ positions j position' _ _ _ _ _)
    as [[[startTime' duration'] apb] noteEvents].
  simpl in Hnotes.
  assert (Hvib : forall l : list MidiEvent,
             letRingFlags
               ((if HasVibrato position' || HasWideVibrato position'
                 then [VibratoEvent i startTime (GetPosition position)
                                    systemIndex true
                                    (Some (if HasVibrato position'
                                           then NORMAL_VIBRATO
                                           else WIDE_VIBRATO));
                       VibratoEvent i (startTime + duration)%Q
                                    (GetPosition position) systemIndex false
                                    None]
                 else []) ++ l) = letRingFlags l)
    by (intros l; destruct (HasVibrato position' || HasWideVibrato position');
        reflexivity).
  destruct Hstep as [Hstep|[e [Hstep He]]]; rewrite Hstep; simpl fst; simpl snd.
  - left. rewrite Hvib. simpl. auto.
  - right. rewrite Hvib.
    change (e :: noteEvents) with ([e] ++ noteEvents).
    rewrite letRingFlags_app, He, Hnotes. auto.
Qed.

(** The let-ring events of a run of positions alternate, the first one
    toggling the flag the run started with; the flag at the end tells
    whether their number is even. *)
Lemma positionsLoop_letRing (count : nat) :
  forall (j : nat) (st : VoiceState),
    let result :=
      positionsLoop currentScore currentSystemIndex systemIndex system i
                    staff guitar count j st in
    alternates (negb (vs_letRingActive st)) (letRingFlags (snd result)) = true
    /\ vs_letRingActive (fst result)
       = if Nat.even (length (letRingFlags (snd result)))
         then vs_letRingActive st else negb (vs_letRingActive st).
Proof.
  induction count as [|count IH]; intros j st; cbv zeta; simpl; [auto|].
  pose proof (generatePosition_letRing j st) as Hpos. cbv zeta in Hpos.
  destruct (generatePosition _ _ _ _ _ _ _ j st) as [st1 events].
  specialize (IH (S j) st1). cbv zeta in IH.
  destruct (positionsLoop _ _ _ _ _ _ _ count (S j) st1) as [st2 events'].
  simpl in *. destruct IH as [IHalt IHflag].
  rewrite letRingFlags_app.
  destruct Hpos as [[Hflags Hact]|[Hflags Hact]]; rewrite Hflags, Hact in *.
  - simpl. auto.
  - cbn [app alternates length]. rewrite eqb_reflx. split; [exact IHalt|].
    rewrite IHflag. rewrite Nat.even_succ, <- Nat.negb_even.
    destruct (Nat.even (length (letRingFlags events'))); simpl;
      [reflexivity | apply negb_involutive].
Qed.

(** In every voice the let-ring events alternate, starting with an
    on-event; so there are as many off-events as on-events, or one less. *)
Lemma generateVoice_letRing_alternates (voice : nat)
      (systemStartTime endTime : Q) :
  let flags :=
    letRingFlags
      (snd (generateVoice currentScore currentSystemIndex systemIndex system i
                          staff guitar voice systemStartTime endTime)) in
  alternates true flags = true
  /\ (countOn flags = countOff flags \/ countOn flags = S (countOff flags)).
Proof.
  cbv zeta. unfold generateVoice.
  pose proof (positionsLoop_letRing (length (GetVoice staff voice)) 0
                (mkVoiceState (GetVoice staff voice) systemStartTime endTime
                              false (to_uint8 DEFAULT_BEND))) as H.
  cbv zeta in H. simpl vs_letRingActive in H. destruct H as [Halt _].
  split; [exact Halt|].
  exact (alternates_counts _ true Halt).
Qed.
End LetRingFacts.

(** C4. A voice whose only position carries let ring gets the on-event and
    no off-event: the branch that closes the span at the last position is an
    [else if] after the branch that opens it, so a span opened at the last
    position is left open.  The same happens when the positions after the
    span are rests, which leave the loop before the let-ring branches. *)
Theorem letRing_left_open_at_last_position :
  let single :=
    letRingFlags
      (snd (@generateVoice specEnv Examples.letRingScore 0 0
              Examples.letRingSystem 0 Examples.letRingStaff
              Examples.standardGuitar 0 0 0)) in
  let beforeRest :=
    letRingFlags
      (snd (@generateVoice specEnv Examples.letRingScore 0 0
              Examples.letRingSystem 0 Examples.letRingThenRestStaff
              Examples.standardGuitar 0 0 0)) in
  single = [true] /\ countOn single = 1%nat /\ countOff single = 0%nat
  /\ beforeRest = [true]
  /\ countOn beforeRest = 1%nat /\ countOff beforeRest = 0%nat.
Proof.
  cbv zeta. repeat split; vm_compute; reflexivity.
Qed.

(** ** Ties *)

Section TieClaims.
Context {env : PlayerEnv}.
Variable systemIndex : Z.
Variable i : Z.
Variable guitar : Guitar.

(** C9, amended. For a note tied to its predecessor, at a position
    without tremolo picking and with no trill on the note, the events of
    the note contain no [PlayNoteEvent]; every [StopNoteEvent] among them
    carries the resolved pitch of the previous note on the same string of
    the voice, or the note's own resolved pitch when there is no such note;
    and that [StopNoteEvent] is emitted when the note has no tie wrap and
    the next note on its string is not tied. *)
Theorem tied_note_carries_previous_pitch :
  forall (positions : list Position) (j : nat) (position : Position)
         (currentTempo startTime duration : Q) (activePitchBend : Z)
         (note : Note),
    IsTied note = true ->
    HasTremoloPicking position = false ->
    GetTrill note = None ->
    let events :=
      fst (generateNote systemIndex i guitar positions j position currentTempo
                        startTime duration activePitchBend note) in
    let carried :=
      match GetAdjacentNoteOnString PrevNote positions j note with
      | Some prevNote => getActualNotePitch prevNote guitar
      | None => getActualNotePitch note guitar
      end in
    (forall e, In e events -> isPlayNote e = false)
    /\ (forall channel time positionIndex system pitch,
           In (StopNoteEvent channel time positionIndex system pitch) events ->
           pitch = carried)
    /\ (HasTieWrap note = false ->
        match GetAdjacentNoteOnString NextNote positions j note with
        | Some nextNote => IsTied nextNote
        | None => false
        end = false ->
        exists time,
          In (StopNoteEvent i time (GetPosition position) systemIndex carried)
             events).
Proof.
  intros positions j position currentTempo startTime duration activePitchBend
         note Htied Htrem Htrill events carried.
  assert (Hcarried : carriedPitch guitar positions j note = carried).
  { unfold carriedPitch. rewrite Htied. reflexivity. }
  subst events. unfold generateNote.
  unfold HasTrill. rewrite Htied, Htrem, Htrill, Hcarried.
  destruct (match GetBend note with
            | Some bend => generateBends _ _ _ _ bend
            | None => _
            end) as [bends activePitchBend'].
  cbn [negb orb isSome fst app].
  set (bendEvents := map _ (_ ++ bends)).
  assert (Hbend : forall e, In e bendEvents ->
                            exists t p, e = BendEvent i t (GetPosition position)
                                                      systemIndex p).
  { intros e He. subst bendEvents. apply in_map_iff in He as [b [<- _]].
    eauto. }
  repeat split.
  - intros e He. apply in_app_or in He as [He|He].
    + apply Hbend in He as [t [p ->]]. reflexivity.
    + destruct (negb (HasTieWrap note) && _); [|contradiction].
      destruct He as [<-|[]]. reflexivity.
  - intros channel time positionIndex system pitch He.
    apply in_app_or in He as [He|He].
    + apply Hbend in He as [t [p He]]. discriminate.
    + destruct (negb (HasTieWrap note) && _); [|contradiction].
      destruct He as [He|[]]. congruence.
  - intros Hwrap Hnext. rewrite Hwrap, Hnext. cbn [negb andb].
    eexists. apply in_or_app. right. left. reflexivity.
Qed.
End TieClaims.

Lemma tied_note_carries_previous_pitch_witness :
  exists time,
    In (StopNoteEvent 0 time 2 0 67)
       (fst (@generateNote specEnv 0 0 Examples.standardGuitar
               [Examples.letRingPosition;
                mkPosition 2 4 1 false false false false false false false
                           false false false [Examples.tiedNote]]
               1%nat
               (mkPosition 2 4 1 false false false false false false false
                           false false false [Examples.tiedNote])
               500 500 500 64 Examples.tiedNote)).
Proof.
  apply (proj2 (proj2
           (@tied_note_carries_previous_pitch specEnv 0 0
              Examples.standardGuitar
              [Examples.letRingPosition;
               mkPosition 2 4 1 false false false false false false false
                          false false false [Examples.tiedNote]]
              1%nat
              (mkPosition 2 4 1 false false false false false false false
                          false false false [Examples.tiedNote])
              500 500 500 64 Examples.tiedNote eq_refl eq_refl eq_refl)));
    reflexivity.
Defined.

(** C9 as stated fails: a tied quarter note at a position with tremolo
    picking, at 500 ms per quarter note, gets [PlayNoteEvent]s from the
    tremolo loop, which does not look at the tie. *)
Lemma tied_note_with_tremolo_is_played :
  IsTied Examples.tiedNote = true
  /\ existsb isPlayNote
       (fst (@generateNote specEnv 0 0 Examples.standardGuitar
               [Examples.letRingPosition; Examples.tremoloPosition] 1%nat
               Examples.tremoloPosition 500 500 500 64 Examples.tiedNote))
     = true
  /\ ~ (forall (position : Position) (note : Note),
           IsTied note = true ->
           forall e,
             In e (fst (@generateNote specEnv 0 0 Examples.standardGuitar
                          [Examples.letRingPosition; position] 1%nat position
                          500 500 500 64 note)) ->
             isPlayNote e = false).
Proof.
  split; [reflexivity|]. split; [vm_compute; reflexivity|].
  intros H.
  specialize (H Examples.tremoloPosition Examples.tiedNote eq_refl).
  assert (Hex : existsb isPlayNote
                  (fst (@generateNote specEnv 0 0 Examples.standardGuitar
                          [Examples.letRingPosition; Examples.tremoloPosition]
                          1%nat Examples.tremoloPosition 500 500 500 64
                          Examples.tiedNote)) = true)
    by (vm_compute; reflexivity).
  apply existsb_exists in Hex as [e [He Hp]].
  rewrite (H e He) in Hp. discriminate.
Qed.

(** ** Arpeggios *)

Section SortNotes.
Variable leb : Z -> Z -> bool.
Hypothesis leb_total : forall a b, leb a b = true \/ leb b a = true.

Let ordered (n m : Note) : Prop := leb (GetString n) (GetString m) = true.

Lemma insertNote_Permutation (n : Note) (l : list Note) :
  Permutation (n :: l) (insertNote leb n l).
Proof.
  induction l as [|m l IH]; simpl; [apply Permutation_refl|].
  destruct (leb (GetString n) (GetString m)); [apply Permutation_refl|].
  eapply perm_trans; [apply perm_swap|]. now apply perm_skip.
Qed.

Lemma sortNotes_Permutation (l : list Note) :
  Permutation l (sortNotes leb l).
Proof.
  induction l as [|n l IH]; simpl; [apply perm_nil|].
  eapply perm_trans; [apply perm_skip, IH|]. apply insertNote_Permutation.
Qed.

Lemma insertNote_HdRel (m n : Note) (l : list Note) :
  ordered m n -> HdRel ordered m l -> HdRel ordered m (insertNote leb n l).
Proof.
  intros Hmn Hl. destruct l as [|x l]; simpl.
  - now constructor.
  - destruct (leb (GetString n) (GetString x)); constructor; auto.
    now inversion Hl.
Qed.

Lemma insertNote_Sorted (n : Note) (l : list Note) :
  Sorted ordered l -> Sorted ordered (insertNote leb n l).
Proof.
  induction l as [|m l IH]; intros Hs; simpl.
  - repeat constructor.
  - destruct (leb (GetString n) (GetString m)) eqn:E.
    + constructor; [exact Hs|]. constructor. exact E.
    + inversion Hs as [|? ? Hs' Hhd]; subst.
      constructor; [now apply IH|].
      apply insertNote_HdRel; [|exact Hhd].
      destruct (leb_total (GetString m) (GetString n)) as [H|H];
        [exact H | unfold ordered; congruence].
Qed.

Lemma sortNotes_Sorted (l : list Note) : Sorted ordered (sortNotes leb l).
Proof.
  induction l as [|n l IH]; simpl; [constructor|].
  now apply insertNote_Sorted.
Qed.
End SortNotes.

Section ArpeggioClaims.
Context {env : PlayerEnv}.
Variable currentScore : Score.
Variable currentSystemIndex : Z.
Variable systemIndex : Z.
Variable system : System.
Variable i : Z.
Variable staff : Staff.
Variable guitar : Guitar.
#[local] Open Scope Q_scope.

Lemma arpeggioStart_closed (startTime : Q) (k : nat) :
  arpeggioStart startTime k
  == startTime + inject_Z (Z.of_nat (S k)) * ARPEGGIO_OFFSET.
Proof.
  unfold arpeggioStart. induction k as [|k IH].
  - simpl. ring.
  - change (Nat.iter (S (S k)) (fun t => t + ARPEGGIO_OFFSET) startTime)
      with (Nat.iter (S k) (fun t => t + ARPEGGIO_OFFSET) startTime
            + ARPEGGIO_OFFSET).
    rewrite IH, (Nat2Z.inj_succ (S k)). unfold Z.succ.
    rewrite inject_Z_plus. ring.
Qed.

Lemma arpeggioDuration_closed (duration : Q) (k : nat) :
  arpeggioDuration duration k
  == duration - inject_Z (Z.of_nat (S k)) * ARPEGGIO_OFFSET.
Proof.
  unfold arpeggioDuration. induction k as [|k IH].
  - simpl. ring.
  - change (Nat.iter (S (S k)) (fun d => d - ARPEGGIO_OFFSET) duration)
      with (Nat.iter (S k) (fun d => d - ARPEGGIO_OFFSET) duration
            - ARPEGGIO_OFFSET).
    rewrite IH, (Nat2Z.inj_succ (S k)). unfold Z.succ.
    rewrite inject_Z_plus. ring.
Qed.

(** With an arpeggio on the position, the loop over the notes that has
    made [k] rounds generates the remaining notes on the schedule of
    [arpeggioNotes]. *)
Lemma notesLoop_arpeggio positions j position currentTempo :
  HasArpeggioDown position || HasArpeggioUp position = true ->
  forall (notes : list Note) (k : nat) (startTime duration : Q)
         (activePitchBend : Z),
    snd (notesLoop systemIndex i guitar positions j position currentTempo
                   notes
                   (Nat.iter k (fun t => t + ARPEGGIO_OFFSET) startTime)
                   (Nat.iter k (fun d => d - ARPEGGIO_OFFSET) duration)
                   activePitchBend)
    = arpeggioNotes systemIndex i guitar positions j position currentTempo k
                    notes startTime duration activePitchBend.
Proof.
  intros Harp. induction notes as [|note rest IH]; intros; simpl;
    [reflexivity|].
  rewrite Harp. unfold arpeggioStart, arpeggioDuration.
  change (Nat.iter (S k) (fun t => t + ARPEGGIO_OFFSET) startTime)
    with (Nat.iter k (fun t => t + ARPEGGIO_OFFSET) startTime
          + ARPEGGIO_OFFSET).
  change (Nat.iter (S k) (fun d => d - ARPEGGIO_OFFSET) duration)
    with (Nat.iter k (fun d => d - ARPEGGIO_OFFSET) duration
          - ARPEGGIO_OFFSET).
  destruct (generateNote _ _ _ _ _ _ _ _ _ _ note) as [events apb].
  specialize (IH (S k) startTime duration apb).
  change (Nat.iter (S k) (fun t => t + ARPEGGIO_OFFSET) startTime)
    with (Nat.iter k (fun t => t + ARPEGGIO_OFFSET) startTime
          + ARPEGGIO_OFFSET) in IH.
  change (Nat.iter (S k) (fun d => d - ARPEGGIO_OFFSET) duration)
    with (Nat.iter k (fun d => d - ARPEGGIO_OFFSET) duration
          - ARPEGGIO_OFFSET) in IH.
  destruct (notesLoop _ _ _ _ _ _ _ rest _ _ _) as [final events'].
  simpl in IH. rewrite IH. reflexivity.
Qed.

Lemma letRingStep_no_playNote position j count startTime duration active :
  forall e,
    In e (fst (letRingStep systemIndex i position j count startTime duration
                           active)) ->
    isPlayNote e = false.
Proof.
  intros e. unfold letRingStep.
  destruct (HasLetRing position), active, (Nat.eqb (S j) count); simpl;
    intros He; try contradiction; destruct He as [<-|[]]; reflexivity.
Qed.

(** C6, amended. At a position with an arpeggio (downward first, else
    upward) that is not a rest, the notes are reordered by string
    (ascending for a downward, descending for an upward arpeggio) and
    generated in that order after the vibrato and let-ring events of the
    position; note [k] (from 0) is generated with the start time
    [startTime + (k + 1) * ARPEGGIO_OFFSET] and the duration
    [duration - (k + 1) * ARPEGGIO_OFFSET], so every note, the first one
    included, starts one stagger after the note before it (the first one
    after the start of the position) and is shortened by the same amount;
    a note that is not tied gets its [PlayNoteEvent] with that start time
    and duration. *)
Theorem arpeggio_notes_staggered :
  forall (st : VoiceState) (j : nat) (position : Position),
    nth_error (vs_positions st) j = Some position ->
    IsRest position = false ->
    HasArpeggioDown position || HasArpeggioUp position = true ->
    let sorted :=
      if HasArpeggioDown position then sortNotes Z.leb (GetNotes position)
      else sortNotes Z.geb (GetNotes position) in
    let position' := set_notes position sorted in
    let positions' := replace_nth j position' (vs_positions st) in
    let tempo :=
      getCurrentTempo currentScore currentSystemIndex (GetPosition position) in
    let duration :=
      if IsAcciaccatura position then GRACE_NOTE_DURATION
      else calculateNoteDuration currentScore currentSystemIndex position in
    let startTime :=
      if IsAcciaccatura position
      then vs_startTime st - GRACE_NOTE_DURATION else vs_startTime st in
    Permutation (GetNotes position) sorted
    /\ Sorted (fun a b =>
                 if HasArpeggioDown position
                 then (GetString a <= GetString b)%Z
                 else (GetString b <= GetString a)%Z) sorted
    /\ (exists before,
           snd (generatePosition currentScore currentSystemIndex systemIndex
                                 system i staff guitar j st)
           = before
             ++ arpeggioNotes systemIndex i guitar positions' j position'
                              tempo 0 sorted startTime duration
                              (vs_activePitchBend st)
           /\ forall e, In e before -> isPlayNote e = false)
    /\ (forall k : nat,
           arpeggioStart startTime k
           == startTime + inject_Z (Z.of_nat (S k)) * ARPEGGIO_OFFSET
           /\ arpeggioDuration duration k
              == duration - inject_Z (Z.of_nat (S k)) * ARPEGGIO_OFFSET)
    /\ (forall (note : Note) (t d : Q) (activePitchBend : Z),
           IsTied note = false ->
           exists rest,
             fst (generateNote systemIndex i guitar positions' j position'
                               tempo t d activePitchBend note)
             = PlayNoteEvent i t d (getActualNotePitch note guitar)
                             (GetPosition position) systemIndex guitar
                             (IsMuted note) (getNoteVelocity position' note)
               :: rest).
Proof.
  intros st j position Hj Hrest Harp sorted position' positions' tempo
         duration startTime.
  assert (Hpos : (if HasArpeggioDown position then SortNotesDown position
                  else if HasArpeggioUp position then SortNotesUp position
                  else position) = position').
  { subst position' sorted. unfold SortNotesDown, SortNotesUp.
    destruct (HasArpeggioDown position); [reflexivity|].
    simpl in Harp. rewrite Harp. reflexivity. }
  split; [|split; [|split; [|split]]].
  - subst sorted. destruct (HasArpeggioDown position);
      apply sortNotes_Permutation.
  - subst sorted. destruct (HasArpeggioDown position).
    + eapply Sorted_ind with (P := Sorted _);
        [constructor | | apply (sortNotes_Sorted Z.leb)].
      * intros a l _ IH Hhd. constructor; [exact IH|].
        destruct Hhd; constructor. now apply Z.leb_le.
      * intros a b. rewrite !Z.leb_le. lia.
    + eapply Sorted_ind with (P := Sorted _);
        [constructor | | apply (sortNotes_Sorted Z.geb)].
      * intros a l _ IH Hhd. constructor; [exact IH|].
        destruct Hhd; constructor. now apply Z.geb_le.
      * intros a b. rewrite !Z.geb_le. lia.
  - unfold generatePosition. rewrite Hj, Hrest, Hpos.
    fold positions'.
    replace (if IsAcciaccatura position
             then (GRACE_NOTE_DURATION, vs_startTime st - GRACE_NOTE_DURATION)
             else (calculateNoteDuration currentScore currentSystemIndex
                                         position, vs_startTime st))
      with (duration, startTime)
      by (subst duration startTime; destruct (IsAcciaccatura position);
          reflexivity).
    assert (Harp' : HasArpeggioDown position' || HasArpeggioUp position' = true)
      by exact Harp.
    pose proof (notesLoop_arpeggio positions' j position' tempo Harp'
                  (GetNotes position') 0 startTime duration
                  (vs_activePitchBend st)) as Hloop.
    simpl Nat.iter in Hloop. fold tempo.
    destruct (letRingStep _ _ _ _ _ _ _ _) as [letRingEvents active] eqn:Hlr.
    destruct (notesLoop _ _ _ positions' j position' tempo _ _ _ _)
      as [[[startTime' duration'] apb] noteEvents].
    simpl in Hloop. subst noteEvents. simpl snd.
    rewrite app_assoc. eexists. split; [reflexivity|].
    intros e He. apply in_app_or in He as [He|He].
    + destruct (HasVibrato position || HasWideVibrato position);
        [|destruct He].
      destruct He as [<-|[<-|[]]]; reflexivity.
    + eapply letRingStep_no_playNote. rewrite Hlr. exact He.
  - intros k. split;
      [apply arpeggioStart_closed | apply arpeggioDuration_closed].
  - intros note t d activePitchBend Htied.
    unfold generateNote. rewrite Htied. cbn [negb].
    destruct (match GetBend note with
              | Some bend => generateBends _ _ _ _ bend
              | None => _
              end) as [bends activePitchBend'].
    destruct (if HasTremoloPicking position' || HasTrill note then _ else _)
      as [tremoloEvents pitch].
    simpl. eexists. reflexivity.
Qed.
End ArpeggioClaims.

Lemma arpeggio_notes_staggered_witness :
  Permutation (GetNotes Examples.arpeggioPosition)
              (sortNotes Z.geb (GetNotes Examples.arpeggioPosition)).
Proof.
  apply (proj1
           (@arpeggio_notes_staggered specEnv Examples.arpeggioScore 0 0
              Examples.arpeggioSystem 0 Examples.arpeggioStaff
              Examples.standardGuitar Examples.arpeggioState 0%nat
              Examples.arpeggioPosition eq_refl eq_refl eq_refl)).
Defined.

(** C6 as stated fails: for a chord with an upward arpeggio at a voice
    cursor of 0 ms and a stagger of 30 ms, the first note that sounds starts
    at 0 + 30 ms, not at the start time of the position. *)
Lemma arpeggio_first_note_is_delayed :
  firstPlayNoteStart
    (snd (@generatePosition specEnv Examples.arpeggioScore 0 0
            Examples.arpeggioSystem 0 Examples.arpeggioStaff
            Examples.standardGuitar 0%nat Examples.arpeggioState))
  = Some (vs_startTime Examples.arpeggioState + 30)%Q
  /\ ~ (vs_startTime Examples.arpeggioState + 30
        == vs_startTime Examples.arpeggioState)%Q.
Proof.
  split; [reflexivity|].
  intros H. vm_compute in H. discriminate H.
Qed.

(** * Further properties of the repeat controller *)

Lemma loc_ltb_iff (a b : SystemLocation) :
  loc_ltb a b = true
  <-> getSystemIndex a < getSystemIndex b
      \/ (getSystemIndex a = getSystemIndex b
          /\ getPositionIndex a < getPositionIndex b).
Proof.
  unfold loc_ltb.
  rewrite orb_true_iff, andb_true_iff, !Z.ltb_lt, Z.eqb_eq. reflexivity.
Qed.

Lemma loc_ltb_false_iff (a b : SystemLocation) :
  loc_ltb a b = false
  <-> getSystemIndex b < getSystemIndex a
      \/ (getSystemIndex a = getSystemIndex b
          /\ getPositionIndex b <= getPositionIndex a).
Proof.
  rewrite <- not_true_iff_false, loc_ltb_iff. lia.
Qed.

Lemma loc_ltb_trans (a b c : SystemLocation) :
  loc_ltb a b = true -> loc_ltb b c = true -> loc_ltb a c = true.
Proof. rewrite !loc_ltb_iff. lia. Qed.

Lemma loc_ltb_antisym (a b : SystemLocation) :
  loc_ltb a b = false -> loc_ltb b a = false -> a = b.
Proof.
  rewrite !loc_ltb_false_iff. destruct a as [s p], b as [s' p']; simpl.
  intros H1 H2. f_equal; lia.
Qed.

Lemma loc_leb_zero (a : SystemLocation) :
  0 <= getSystemIndex a -> 0 <= getPositionIndex a ->
  loc_leb (mkSystemLocation 0 0) a = true.
Proof.
  intros Hs Hp. unfold loc_leb. apply negb_true_iff, loc_ltb_false_iff.
  simpl. lia.
Qed.

Section MapKeys.
Variable V : Type.
Implicit Types (m : list (SystemLocation * V)) (k : SystemLocation).

Lemma set_second_keys m : forall (n : nat) (v : V),
  map fst (set_second n v m) = map fst m.
Proof.
  induction m as [|[k' v'] m IH]; intros [|n] v; simpl; try reflexivity.
  now rewrite IH.
Qed.

Lemma set_second_length m : forall (n : nat) (v : V),
  length (set_second n v m) = length m.
Proof.
  intros n v. rewrite <- (length_map fst), set_second_keys.
  apply length_map.
Qed.

Lemma map_assign_keys_in k (v : V) m :
  forall x, In x (map fst (map_assign loc_ltb k v m)) <->
            x = k \/ In x (map fst m).
Proof.
  induction m as [|[k' v'] m IH]; intros x; simpl.
  - intuition.
  - destruct (loc_ltb k k') eqn:E1; simpl; [intuition|].
    destruct (loc_ltb k' k) eqn:E2; simpl.
    + rewrite IH. intuition.
    + rewrite (loc_ltb_antisym k' k E2 E1). intuition.
Qed.

Lemma map_assign_keys_increasing k (v : V) m :
  keys_increasing m -> keys_increasing (map_assign loc_ltb k v m).
Proof.
  unfold keys_increasing.
  induction m as [|[k' v'] m IH]; intros Hs; simpl.
  - repeat constructor.
  - inversion Hs as [|? ? Hs' Hall]; subst.
    destruct (loc_ltb k k') eqn:E1; simpl.
    + constructor; [exact Hs|]. constructor; [exact E1|].
      eapply Forall_impl; [|exact Hall].
      intros x Hx. now apply (loc_ltb_trans k k' x).
    + destruct (loc_ltb k' k) eqn:E2; simpl.
      * constructor; [now apply IH|].
        apply Forall_forall. intros x Hx.
        apply map_assign_keys_in in Hx as [->|Hx]; [exact E2|].
        rewrite Forall_forall in Hall. now apply Hall.
      * rewrite <- (loc_ltb_antisym k' k E2 E1). exact Hs.
Qed.

(** On a map with increasing keys, the entry before the upper bound of a
    location has the greatest key that is not after the location, when
    there is such a key. *)
Lemma upper_bound_greatest m k :
  keys_increasing m ->
  (exists x, In x (map fst m) /\ loc_leb x k = true) ->
  exists g r,
    nth_error m (Nat.pred (upper_bound loc_ltb k m)) = Some (g, r)
    /\ loc_leb g k = true
    /\ forall x, In x (map fst m) -> loc_leb x k = true -> loc_leb x g = true.
Proof.
  unfold keys_increasing, loc_leb.
  induction m as [|[k1 v1] m IH]; intros Hs [x [Hin Hle]]; [destruct Hin|].
  simpl in Hs. inversion Hs as [|? ? Hs' Hall]; subst.
  rewrite Forall_forall in Hall.
  simpl upper_bound.
  destruct (loc_ltb k k1) eqn:E1.
  - (* every key is after [k] *)
    exfalso. apply negb_true_iff in Hle.
    destruct Hin as [<-|Hin]; [simpl in Hle; congruence|].
    specialize (Hall x Hin). unfold loc_lt in Hall.
    rewrite (loc_ltb_trans k k1 x E1 Hall) in Hle. discriminate.
  - destruct m as [|[k2 v2] m'].
    + simpl. exists k1, v1. split; [reflexivity|]. split; [now rewrite E1|].
      intros y [<-|[]] _. apply negb_true_iff.
      apply loc_ltb_false_iff. lia.
    + simpl upper_bound in *. destruct (loc_ltb k k2) eqn:E2.
      * simpl. exists k1, v1. split; [reflexivity|]. split; [now rewrite E1|].
        intros y Hy Hyk. apply negb_true_iff in Hyk. apply negb_true_iff.
        destruct Hy as [<-|Hy]; [apply loc_ltb_false_iff; lia|].
        exfalso. inversion Hs' as [|? ? _ Hall2]; subst.
        rewrite Forall_forall in Hall2.
        destruct Hy as [<-|Hy]; [simpl in Hyk; congruence|].
        specialize (Hall2 y Hy). unfold loc_lt in Hall2.
        rewrite (loc_ltb_trans k k2 y E2 Hall2) in Hyk. discriminate.
      * destruct (IH Hs') as [g [r [Hnth [Hg Hmax]]]].
        { exists k2. split; [now left|]. now rewrite E2. }
        exists g, r. split; [exact Hnth|]. split; [exact Hg|].
        intros y [<-|Hy] Hyk; [|now apply Hmax].
        (* [k1] is before [k2], which is not after [g] *)
        assert (Hk2 : negb (loc_ltb g k2) = true).
        { apply Hmax; [now left | now rewrite E2]. }
        apply negb_true_iff in Hk2. apply negb_true_iff. simpl fst.
        specialize (Hall k2 (or_introl eq_refl)). unfold loc_lt in Hall.
        destruct (loc_ltb g k1) eqn:Eg; [|reflexivity].
        rewrite (loc_ltb_trans g k1 k2 Eg Hall) in Hk2. discriminate.
Qed.
End MapKeys.

(** ** Multimaps in key order *)

Unset Implicit Arguments.

Section Multimaps.
Variables K V : Type.
Variable ltb : K -> K -> bool.
Hypothesis ltb_trans :
  forall a b c, ltb a b = true -> ltb b c = true -> ltb a c = true.
Hypothesis ltb_antisym : forall a b, ltb a b = false -> ltb b a = false -> a = b.
Hypothesis ltb_irrefl : forall a, ltb a a = false.
Implicit Types (m : list (K * V)) (k : K).

Lemma geb_trans a b c :
  ltb b a = false -> ltb c b = false -> ltb c a = false.
Proof.
  intros Hab Hbc. destruct (ltb c a) eqn:E; [|reflexivity].
  destruct (ltb a b) eqn:Eab.
  - rewrite (ltb_trans c a b E Eab) in Hbc. discriminate.
  - rewrite (ltb_antisym a b Eab Hab) in E. congruence.
Qed.

Lemma multimap_insert_in k (v : V) m :
  forall x, In x (multimap_insert ltb k v m) <-> x = (k, v) \/ In x m.
Proof.
  induction m as [|[k' v'] m IH]; intros x; simpl.
  - intuition.
  - destruct (ltb k k'); simpl; [intuition|]. rewrite IH. intuition.
Qed.


Lemma multimap_insert_ordered k (v : V) m :
  ordered_by ltb m -> ordered_by ltb (multimap_insert ltb k v m).
Proof.
  unfold ordered_by.
  induction m as [|[k' v'] m IH]; intros Hs; simpl.
  - repeat constructor.
  - inversion Hs as [|? ? Hs' Hall]; subst.
    destruct (ltb k k') eqn:E; simpl.
    + constructor; [exact Hs|]. constructor.
      * destruct (ltb k' k) eqn:E'; [|reflexivity].
        pose proof (ltb_trans k k' k E E') as F. now rewrite ltb_irrefl in F.
      * eapply Forall_impl; [|exact Hall]. intros x Hx. simpl in Hx.
        apply (geb_trans k k' x); [|exact Hx].
        destruct (ltb k' k) eqn:E'; [|reflexivity].
        pose proof (ltb_trans k k' k E E') as F. now rewrite ltb_irrefl in F.
    + constructor; [now apply IH|].
      apply Forall_forall. intros x Hx. apply in_map_iff in Hx as [[x1 x2] [<- Hx]].
      apply multimap_insert_in in Hx as [Hx|Hx].
      * injection Hx as -> ->. exact E.
      * rewrite Forall_forall in Hall. apply Hall.
        apply in_map_iff. now exists (x1, x2).
Qed.

Lemma erase_ordered m : forall n, ordered_by ltb m -> ordered_by ltb (erase n m).
Proof.
  unfold ordered_by.
  induction m as [|e m IH]; intros [|n] Hs; simpl; try exact Hs.
  - now inversion Hs.
  - inversion Hs as [|? ? Hs' Hall]; subst. constructor; [now apply IH|].
    rewrite Forall_forall in *. intros x Hx. apply Hall.
    apply in_map_iff in Hx as [y [<- Hy]]. apply in_map.
    clear - Hy. revert n Hy. induction m as [|z m IHm]; intros [|n] Hy;
      simpl in *; auto.
    destruct Hy as [->|Hy]; eauto.
Qed.

(** In key order, the entries equivalent to [k] start at its lower bound. *)
Lemma lower_bound_filter k m :
  ordered_by ltb m ->
  nth_error m (lower_bound ltb k m)
  = match filter (equivalent_key ltb k) m with
    | e :: _ => Some e
    | [] => match nth_error m (lower_bound ltb k m) with
            | Some e => Some e
            | None => None
            end
    end
  /\ multimap_find ltb k m = hd_error (filter (equivalent_key ltb k) m).
Proof.
  unfold ordered_by, multimap_find, equivalent_key.
  induction m as [|[k' v'] m IH]; intros Hs; [split; reflexivity|].
  inversion Hs as [|? ? Hs' Hall]; subst. simpl.
  destruct (ltb k' k) eqn:E1; simpl.
  - destruct (IH Hs') as [IH1 IH2]. split; [exact IH1 | exact IH2].
  - destruct (ltb k k') eqn:E2; simpl.
    + (* every later key is after [k] as well *)
      assert (Hnone : filter (fun e => negb (ltb (fst e) k) && negb (ltb k (fst e))) m
                      = []).
      { rewrite Forall_forall in Hall.
        clear - Hall E2 ltb_trans ltb_antisym ltb_irrefl.
        induction m as [|[k2 v2] m IHm]; [reflexivity|]. simpl.
        assert (H2 : ltb k k2 = true).
        { specialize (Hall k2 (or_introl eq_refl)). simpl in Hall.
          destruct (ltb k' k2) eqn:E.
          - now apply (ltb_trans k k' k2).
          - now rewrite <- (ltb_antisym k' k2 E Hall). }
        rewrite H2, andb_false_r. apply IHm.
        intros x Hx. apply Hall. now right. }
      rewrite Hnone. split; reflexivity.
    + split; reflexivity.
Qed.

Lemma filter_multimap_insert k k' (v : V) m :
  ordered_by ltb m ->
  filter (equivalent_key ltb k) (multimap_insert ltb k' v m)
  = filter (equivalent_key ltb k) m
    ++ (if equivalent_key ltb k (k', v) then [(k', v)] else []).
Proof.
  unfold ordered_by.
  induction m as [|[k1 v1] m IH]; intros Hs; simpl.
  - destruct (equivalent_key ltb k (k', v)); reflexivity.
  - inversion Hs as [|? ? Hs' Hall]; subst.
    destruct (ltb k' k1) eqn:E.
    + (* the new entry goes first: nothing at or after [k1] is equivalent to
         [k] when the new entry is *)
      simpl. destruct (equivalent_key ltb k (k', v)) eqn:Ek; simpl.
      * unfold equivalent_key in Ek. simpl in Ek.
        apply andb_true_iff in Ek as [Ea Eb].
        apply negb_true_iff in Ea, Eb.
        rewrite (ltb_antisym k k' Eb Ea) in *.
        assert (Hnone : forall l : list (K * V),
                   Forall (fun x => ltb x k1 = false) (map fst l) ->
                   filter (equivalent_key ltb k') l = []).
        { induction l as [|[k2 v2] l IHl]; intros Hl; [reflexivity|].
          inversion Hl as [|? ? Hhd Htl]; subst. simpl.
          unfold equivalent_key at 1. simpl.
          assert (Hlt : ltb k' k2 = true).
          { destruct (ltb k1 k2) eqn:E12; [now apply (ltb_trans k' k1 k2)|].
            simpl in Hhd. now rewrite <- (ltb_antisym k1 k2 E12 Hhd). }
          rewrite Hlt, andb_false_r. now apply IHl. }
        assert (H1 : equivalent_key ltb k' (k1, v1) = false).
        { unfold equivalent_key. simpl. now rewrite E, andb_false_r. }
        rewrite H1. rewrite (Hnone m Hall). reflexivity.
      * rewrite app_nil_r. reflexivity.
    + simpl. rewrite (IH Hs').
      destruct (equivalent_key ltb k (k1, v1)); reflexivity.
Qed.

(** Inserting a sequence of entries keeps, for every key, its entries in
    the order of insertion. *)
Lemma filter_fold_insert k (l : list (K * V)) :
  forall m,
    ordered_by ltb m ->
    ordered_by ltb (fold_left (fun m e => multimap_insert ltb (fst e) (snd e) m) l m)
    /\ filter (equivalent_key ltb k)
              (fold_left (fun m e => multimap_insert ltb (fst e) (snd e) m) l m)
       = filter (equivalent_key ltb k) m ++ filter (equivalent_key ltb k) l.
Proof.
  induction l as [|[k' v] l IH]; intros m Hm; simpl.
  - split; [exact Hm | now rewrite app_nil_r].
  - destruct (IH (multimap_insert ltb k' v m) (multimap_insert_ordered k' v m Hm))
      as [Ho Hf].
    split; [exact Ho|]. rewrite Hf, filter_multimap_insert by exact Hm.
    rewrite <- app_assoc. f_equal.
    destruct (equivalent_key ltb k (k', v)); reflexivity.
Qed.

End Multimaps.

Set Implicit Arguments.


Lemma symbol_ltb_trans (a b c : symbolTypes) :
  symbol_ltb a b = true -> symbol_ltb b c = true -> symbol_ltb a c = true.
Proof. unfold symbol_ltb. rewrite !Z.ltb_lt. lia. Qed.

Lemma symbolTypeValue_inj (a b : symbolTypes) :
  symbolTypeValue a = symbolTypeValue b -> a = b.
Proof. destruct a, b; simpl; intros H; try reflexivity; discriminate H. Qed.

Lemma symbol_ltb_antisym (a b : symbolTypes) :
  symbol_ltb a b = false -> symbol_ltb b a = false -> a = b.
Proof.
  unfold symbol_ltb. rewrite !Z.ltb_ge. intros H1 H2.
  apply symbolTypeValue_inj. lia.
Qed.

Lemma symbol_ltb_irrefl (a : symbolTypes) : symbol_ltb a a = false.
Proof. unfold symbol_ltb. apply Z.ltb_irrefl. Qed.

Lemma fold_left_preserves (A B : Type) (P : A -> Prop) (f : A -> B -> A)
      (l : list B) :
  (forall a b, P a -> P (f a b)) -> forall a, P a -> P (fold_left f l a).
Proof.
  intros Hf. induction l as [|b l IH]; intros a Ha; simpl; auto.
Qed.

Section ConstructorFacts.
Context {Repeat : Type} {ops : RepeatOps Repeat}.
Implicit Types (c : @RepeatController Repeat).

Lemma indexDirection_repeats systemIndex c direction :
  repeats (indexDirection systemIndex c direction) = repeats c.
Proof.
  unfold indexDirection.
  apply (fold_left_preserves (fun c' => repeats c' = repeats c));
    [|reflexivity].
  intros a b Ha.
  destruct (nth_error (m_symbolArray direction) 0); [exact Ha | exact Ha].
Qed.

Lemma indexDirections_repeats systemIndex system c :
  repeats (indexDirections systemIndex system c) = repeats c.
Proof.
  unfold indexDirections.
  apply (fold_left_preserves (fun c' => repeats c' = repeats c));
    [|reflexivity].
  intros a b Ha. now rewrite indexDirection_repeats.
Qed.

Lemma indexBarline_repeatsIndexed systemIndex c bar :
  repeatsIndexed c -> repeatsIndexed (indexBarline systemIndex c bar).
Proof.
  unfold repeatsIndexed, indexBarline. intros [Hs Hin].
  destruct (IsRepeatStart bar).
  - simpl. split; [now apply map_assign_keys_increasing|].
    apply map_assign_keys_in. now right.
  - destruct (IsRepeatEnd bar); [|now split].
    destruct (nth_error (repeats c) _) as [[l r]|]; [|now split].
    unfold keys_increasing. simpl. now rewrite set_second_keys.
Qed.

Lemma indexSystems_repeatsIndexed systems :
  forall systemIndex c,
    repeatsIndexed c -> repeatsIndexed (indexSystems systemIndex systems c).
Proof.
  induction systems as [|system rest IH]; intros systemIndex c Hc; simpl;
    [exact Hc|].
  apply IH. unfold repeatsIndexed.
  rewrite indexDirections_repeats.
  apply (fold_left_preserves repeatsIndexed); [|exact Hc].
  intros a b. apply indexBarline_repeatsIndexed.
Qed.

Lemma indexAlternateEnding_repeatsIndexed c altEnding :
  repeatsIndexed c -> repeatsIndexed (indexAlternateEnding c altEnding).
Proof.
  unfold repeatsIndexed, indexAlternateEnding. intros [Hs Hin].
  destruct (nth_error (repeats c) _) as [[l r]|]; [|now split].
  unfold keys_increasing. simpl. now rewrite set_second_keys.
Qed.

Lemma newRepeatController_repeatsIndexed (s : Score) :
  repeatsIndexed (newRepeatController s).
Proof.
  unfold newRepeatController, indexRepeats.
  apply (fold_left_preserves repeatsIndexed);
    [intros a b; apply indexAlternateEnding_repeatsIndexed|].
  apply indexSystems_repeatsIndexed.
  split; simpl; [repeat constructor | now left].
Qed.

(** The repeat index the constructor builds is never empty: it holds the
    group of the start of the score, and its groups are in increasing order
    of their start locations, one group for each start location. *)
Theorem constructor_repeat_index :
  forall s : Score,
    let c := newRepeatController s in
    repeats c <> []
    /\ In (mkSystemLocation 0 0) (map fst (repeats c))
    /\ keys_increasing (repeats c).
Proof.
  intros s c. subst c.
  destruct (newRepeatController_repeatsIndexed s) as [Hs Hin].
  repeat split; [|exact Hin|exact Hs].
  intros E. rewrite E in Hin. destruct Hin.
Qed.

Lemma performMusicalDirection_frame c t :
  score (fst (performMusicalDirection c t)) = score c
  /\ symbolLocations (fst (performMusicalDirection c t)) = symbolLocations c.
Proof.
  unfold performMusicalDirection.
  destruct t; simpl; try (split; reflexivity);
    match goal with
    | |- context [multimap_find ?f ?k ?m] =>
        destruct (multimap_find f k m) as [[? ?]|]
    end; split; reflexivity.
Qed.

Lemma checkDirections_frame c a cur :
  let c' := fst (checkDirections c a cur) in
  score c' = score c
  /\ symbolLocations c' = symbolLocations c
  /\ map fst (repeats c') = map fst (repeats c).
Proof.
  cbv zeta. unfold checkDirections.
  destruct (nth_error (directions c) _) as [[l d]|]; [|auto].
  destruct (nth_error (repeats c) a) as [[l' r]|]; [|auto].
  destruct (shouldPerformDirection _ _ _); [|auto].
  pose proof (performMusicalDirection_frame c (getSymbolType d)) as [Hs Hl].
  pose proof (performMusicalDirection_repeats c (getSymbolType d)) as Hr.
  destruct (performMusicalDirection c (getSymbolType d)) as [c1 newLocation].
  simpl in *.
  destruct (negb (loc_eqb newLocation cur)); simpl.
  - rewrite set_second_keys, Hr. auto.
  - rewrite Hr. auto.
Qed.

Lemma checkForRepeat_keeps c (cs cp ns np : Z) :
  let c' := fst (checkForRepeat c cs cp ns np) in
  score c' = score c
  /\ symbolLocations c' = symbolLocations c
  /\ map fst (repeats c') = map fst (repeats c).
Proof.
  cbv zeta.
  split; [|split]; unfold checkForRepeat;
    (destruct (repeats c) as [|g gs] eqn:Hr; [simpl; now rewrite ?Hr|]);
    unfold resolveLocation;
    pose proof (checkDirections_frame c
                  (getPreviousRepeatGroup c (mkSystemLocation cs cp))
                  (mkSystemLocation cs cp)) as [Hs [Hl Hk]];
    destruct (checkDirections c _ _) as [c1 newLocation]; simpl in Hs, Hl, Hk;
    rewrite Hr in Hk;
    (destruct (loc_eqb newLocation (mkSystemLocation cs cp)) eqn:E;
     [destruct (nth_error (repeats c1) _) as [[l r]|];
      [destruct (performRepeat r (mkSystemLocation cs cp)) as [r' loc'];
       destruct (loc_eqb loc' (mkSystemLocation cs cp))
      | rewrite E]
     | rewrite E]);
    simpl; rewrite ?set_second_keys; assumption.
Qed.

Lemma checkForRepeat_erases c (cs cp ns np : Z) :
  let c' := fst (checkForRepeat c cs cp ns np) in
  directions c' = directions c
  \/ exists n d,
      nth_error (directions c) n = Some d
      /\ directions c' = erase n (directions c).
Proof.
  cbv zeta. rewrite checkForRepeat_directions.
  destruct (performedDirection c (loc_of cs cp)) as [d|] eqn:E; [|now left].
  right. eexists _, d. split; [|reflexivity].
  now apply performedDirection_indexed.
Qed.

(** A query never changes the score, the symbol index or the start
    locations of the repeat groups, and never adds a direction: what it
    can change is the pass counters, the navigation state and, by erasing
    one entry, the direction index. *)
Theorem checkForRepeat_frame :
  forall c (currentSystem currentPos newSystem newPos : Z),
    let c' := fst (checkForRepeat c currentSystem currentPos newSystem newPos) in
    score c' = score c
    /\ symbolLocations c' = symbolLocations c
    /\ map fst (repeats c') = map fst (repeats c)
    /\ (directions c' = directions c
        \/ exists n d,
            nth_error (directions c) n = Some d
            /\ directions c' = erase n (directions c)).
Proof.
  intros c cs cp ns np c'. subst c'.
  destruct (checkForRepeat_keeps c cs cp ns np) as [Hs [Hl Hk]].
  pose proof (checkForRepeat_erases c cs cp ns np) as Hd.
  repeat split; assumption.
Qed.
End ConstructorFacts.

Lemma lower_bound_not_less (K V : Type) (ltb : K -> K -> bool) (k : K)
      (m : list (K * V)) :
  forall k' v,
    nth_error m (lower_bound ltb k m) = Some (k', v) -> ltb k' k = false.
Proof.
  induction m as [|[k1 v1] m IH]; intros k' v H; [discriminate|].
  simpl in H. destruct (ltb k1 k) eqn:E; simpl in H.
  - now apply (IH k' v).
  - injection H as <- _. exact E.
Qed.

Lemma hd_error_filter_find (A : Type) (p : A -> bool) (l : list A) :
  hd_error (filter p l) = find p l.
Proof.
  induction l as [|a l IH]; [reflexivity|]. simpl.
  destruct (p a); [reflexivity | exact IH].
Qed.

Lemma find_map (A B : Type) (f : A -> B) (p : B -> bool) (l : list A) :
  find p (map f l) = option_map f (find (fun a => p (f a)) l).
Proof.
  induction l as [|a l IH]; [reflexivity|]. simpl.
  destruct (p (f a)); [reflexivity | exact IH].
Qed.

Lemma find_pointwise (A : Type) (p q : A -> bool) (l : list A) :
  (forall a, p a = q a) -> find p l = find q l.
Proof.
  intros H. induction l as [|a l IH]; [reflexivity|]. simpl.
  rewrite H, IH. reflexivity.
Qed.

Lemma equivalent_symbol (k t : symbolTypes) (loc : SystemLocation) :
  equivalent_key symbol_ltb k (t, loc)
  = (symbolTypeValue t =? symbolTypeValue k).
Proof.
  unfold equivalent_key, symbol_ltb. simpl.
  destruct (symbolTypeValue t ?= symbolTypeValue k) eqn:E.
  - apply Z.compare_eq in E. rewrite E, Z.ltb_irrefl, Z.eqb_refl. reflexivity.
  - rewrite Z.compare_lt_iff in E.
    rewrite (proj2 (Z.ltb_lt _ _) E). simpl. symmetry. apply Z.eqb_neq. lia.
  - rewrite Z.compare_gt_iff in E.
    rewrite (proj2 (Z.ltb_lt _ _) E), andb_false_r.
    symmetry. apply Z.eqb_neq. lia.
Qed.

Section DirectionIndexFacts.
Context {Repeat : Type} {ops : RepeatOps Repeat}.
Implicit Types (c : @RepeatController Repeat).

Lemma indexesExtended_trans c c1 c2 l1 l2 :
  indexesExtended c c1 l1 -> indexesExtended c1 c2 l2 ->
  indexesExtended c c2 (l1 ++ l2).
Proof.
  intros [Hd1 Hs1] [Hd2 Hs2]. split.
  - now rewrite fold_left_app, <- Hd1.
  - now rewrite map_app, fold_left_app, <- Hs1.
Qed.

Lemma indexDirection_indexes systemIndex c direction :
  indexesExtended c (indexDirection systemIndex c direction)
                  (indexedSymbolsOfDirection systemIndex direction).
Proof.
  unfold indexDirection, indexedSymbolsOfDirection.
  destruct (m_symbolArray direction) as [|sym rest]; [split; reflexivity|].
  change (nth_error (sym :: rest) 0) with (Some sym).
  generalize (sym :: rest). intros l. revert c.
  induction l as [|x l IH]; intros c; [split; reflexivity|].
  simpl fold_left at 1. simpl length. simpl repeat.
  change (?e :: repeat ?e' (length l)) with ([e] ++ repeat e' (length l)).
  eapply indexesExtended_trans; [|apply IH].
  split; reflexivity.
Qed.

Lemma indexDirections_indexes systemIndex system c :
  indexesExtended c (indexDirections systemIndex system c)
                  (indexedSymbolsOfSystem systemIndex system).
Proof.
  unfold indexDirections, indexedSymbolsOfSystem.
  generalize (GetDirections system). intros l. revert c.
  induction l as [|d l IH]; intros c; [split; reflexivity|].
  simpl. eapply indexesExtended_trans; [apply indexDirection_indexes | apply IH].
Qed.

Lemma indexBarline_indexes systemIndex c bar :
  directions (indexBarline systemIndex c bar) = directions c
  /\ symbolLocations (indexBarline systemIndex c bar) = symbolLocations c.
Proof.
  unfold indexBarline.
  destruct (IsRepeatStart bar); [split; reflexivity|].
  destruct (IsRepeatEnd bar); [|split; reflexivity].
  destruct (nth_error (repeats c) _) as [[l r]|]; split; reflexivity.
Qed.

Lemma indexSystems_indexes systems :
  forall systemIndex c,
    indexesExtended c (indexSystems systemIndex systems c)
                    (indexedSymbolsFrom systemIndex systems).
Proof.
  induction systems as [|system rest IH]; intros systemIndex c;
    [split; reflexivity|].
  simpl. eapply indexesExtended_trans; [|apply IH].
  pose proof (indexDirections_indexes systemIndex system
                (fold_left (indexBarline systemIndex) (GetBarlines system) c))
    as [Hd Hs].
  assert (Hb : directions (fold_left (indexBarline systemIndex)
                                     (GetBarlines system) c) = directions c
               /\ symbolLocations (fold_left (indexBarline systemIndex)
                                             (GetBarlines system) c)
                  = symbolLocations c).
  { apply (fold_left_preserves
             (fun c' => directions c' = directions c
                        /\ symbolLocations c' = symbolLocations c));
      [|split; reflexivity].
    intros a b [Ha1 Ha2].
    destruct (indexBarline_indexes systemIndex a b) as [H1 H2].
    split; congruence. }
  destruct Hb as [Hb1 Hb2]. split; congruence.
Qed.

Lemma newRepeatController_indexes (s : Score) :
  directions (newRepeatController s)
  = fold_left insertDirection (indexedSymbols s) []
  /\ symbolLocations (newRepeatController s)
     = fold_left insertSymbolLocation (map symbolEntry (indexedSymbols s)) [].
Proof.
  unfold newRepeatController, indexRepeats, indexedSymbols.
  set (c0 := set_repeats _ _).
  destruct (indexSystems_indexes (GetSystems s) 0 c0) as [Hd Hs].
  simpl score.
  apply (fold_left_preserves
           (fun c' => directions c'
                      = fold_left insertDirection
                                  (indexedSymbolsFrom 0 (GetSystems s)) []
                      /\ symbolLocations c'
                         = fold_left insertSymbolLocation
                                     (map symbolEntry
                                          (indexedSymbolsFrom 0 (GetSystems s)))
                                     []));
    [|split; assumption].
  intros a b Ha. unfold indexAlternateEnding.
  destruct (nth_error (repeats a) _) as [[l r]|]; exact Ha.
Qed.


End DirectionIndexFacts.

Section ReachableControllers.
Context {Repeat : Type} {ops : RepeatOps Repeat}.
Implicit Types (c : @RepeatController Repeat).

Lemma playbackRun_frame (queries : list SystemLocation) :
  forall c,
    let c' := fst (playbackRun c queries) in
    score c' = score c
    /\ symbolLocations c' = symbolLocations c
    /\ map fst (repeats c') = map fst (repeats c)
    /\ (keys_ordered (directions c) -> keys_ordered (directions c')).
Proof.
  induction queries as [|q rest IH]; intros c; cbv zeta; simpl; [auto|].
  pose proof (conj (checkForRepeat_keeps c (getSystemIndex q)
                                         (getPositionIndex q) 0 0)
                   (checkForRepeat_erases c (getSystemIndex q)
                                          (getPositionIndex q) 0 0)) as Hstep.
  cbv zeta in Hstep.
  specialize (IH (fst (checkForRepeat c (getSystemIndex q)
                                      (getPositionIndex q) 0 0))).
  cbv zeta in IH.
  destruct (playbackRun _ rest) as [final performed]. simpl in *.
  destruct Hstep as [[Hs [Hl Hk]] Hd]. destruct IH as [IHs [IHl [IHk IHd]]].
  repeat split; try congruence.
  intros Ho. apply IHd.
  destruct Hd as [->|[n [d [_ ->]]]]; [exact Ho|].
  now apply (erase_ordered _ _ loc_ltb).
Qed.

(** At every point of a playback run and for every location, the active
    repeat group is the group with the greatest start location that is not
    after the location (a group that starts at or before the location always
    exists: the group of the start of the score). *)
Theorem active_group_is_latest_start :
  forall (s : Score) (queries : list SystemLocation) (location : SystemLocation),
    0 <= getSystemIndex location -> 0 <= getPositionIndex location ->
    let c := fst (playbackRun (newRepeatController s) queries) in
    exists start r,
      nth_error (repeats c) (getPreviousRepeatGroup c location) = Some (start, r)
      /\ loc_leb start location = true
      /\ forall x,
          In x (map fst (repeats c)) -> loc_leb x location = true ->
          loc_leb x start = true.
Proof.
  intros s queries location Hs Hp c.
  destruct (newRepeatController_repeatsIndexed s) as [Hinc Hin].
  destruct (playbackRun_frame queries (newRepeatController s)) as [_ [_ [Hk _]]].
  fold c in Hk.
  unfold getPreviousRepeatGroup.
  apply upper_bound_greatest.
  - unfold keys_increasing. rewrite Hk. exact Hinc.
  - exists (mkSystemLocation 0 0). rewrite Hk. split; [exact Hin|].
    now apply loc_leb_zero.
Qed.


(** [performMusicalDirection] changes nothing but the navigation state, and
    its target is the start of the score, for [fine] the end of the score,
    or a location of the symbol index. *)
Theorem performMusicalDirection_target :
  forall c (t : symbolTypes),
    let c' := fst (performMusicalDirection c t) in
    let target := snd (performMusicalDirection c t) in
    score c' = score c /\ repeats c' = repeats c
    /\ directions c' = directions c /\ symbolLocations c' = symbolLocations c
    /\ (target = mkSystemLocation 0 0
        \/ (t = fine
            /\ target
               = mkSystemLocation
                   ((GetSystemCount (score c) - 1) mod 2 ^ 32)
                   (GetPositionCount
                      (GetSystem (score c)
                                 ((GetSystemCount (score c) - 1) mod 2 ^ 32))))
        \/ In target (map snd (symbolLocations c))).
Proof.
  intros c t c' target. subst c' target.
  destruct (performMusicalDirection_frame c t) as [Hs Hl].
  repeat split;
    [exact Hs | apply performMusicalDirection_repeats
     | apply performMusicalDirection_directions | exact Hl |].
  unfold performMusicalDirection.
  destruct t; simpl; auto;
    match goal with
    | |- context [multimap_find ?f ?k ?m] =>
        unfold multimap_find;
        destruct (nth_error m (lower_bound f k m)) as [[k' loc]|] eqn:E;
        [destruct (f k k'); simpl; auto;
         right; right; apply nth_error_In in E;
         apply in_map_iff; exists (k', loc); auto
        | simpl; auto]
    end.
Qed.

Lemma reachable_find_symbol (s : Score) (queries : list SystemLocation)
      (k : symbolTypes) :
  let c := fst (playbackRun (newRepeatController s) queries) in
  option_map snd (multimap_find symbol_ltb k (symbolLocations c))
  = firstLocationOf k (indexedSymbols s).
Proof.
  cbv zeta.
  destruct (playbackRun_frame queries (newRepeatController s)) as [_ [Hl _]].
  rewrite Hl. destruct (newRepeatController_indexes s) as [_ Hs]. rewrite Hs.
  assert (Hnil : ordered_by symbol_ltb (@nil (symbolTypes * SystemLocation)))
    by constructor.
  destruct (filter_fold_insert _ _ symbol_ltb symbol_ltb_trans
              symbol_ltb_antisym symbol_ltb_irrefl k
              (map symbolEntry (indexedSymbols s)) [] Hnil) as [Ho Hf].
  destruct (lower_bound_filter _ _ symbol_ltb symbol_ltb_trans symbol_ltb_antisym
              k _ Ho) as [_ Hfind].
  unfold insertSymbolLocation.
  rewrite Hfind, Hf. simpl app.
  rewrite hd_error_filter_find, find_map.
  unfold firstLocationOf.
  replace (find (fun a => equivalent_key symbol_ltb k (symbolEntry a))
                (indexedSymbols s))
    with (find (fun e => symbolTypeValue (getSymbolType (snd e))
                         =? symbolTypeValue k) (indexedSymbols s)).
  - destruct (find _ (indexedSymbols s)) as [[loc d]|]; reflexivity.
  - apply find_pointwise. intros [loc d]. unfold symbolEntry. simpl.
    now rewrite equivalent_symbol.
Qed.

(** At every point of a playback run, a Dal Segno direction targets the
    first Segno of the score in the order of indexing, a Dal Segno Segno
    direction the first Segno Segno, To Coda the first Coda and To Double
    Coda the first Double Coda; when the score has no such symbol the target
    is the start of the score.  The Dal Segno families set the navigation
    state, To Coda and To Double Coda leave it as it is. *)
Theorem jump_targets_first_symbol :
  forall (s : Score) (queries : list SystemLocation),
    let c := fst (playbackRun (newRepeatController s) queries) in
    let target t := snd (performMusicalDirection c t) in
    let state t := activeSymbol (fst (performMusicalDirection c t)) in
    (forall t,
        In t [dalSegno; dalSegnoAlCoda; dalSegnoAlDoubleCoda; dalSegnoAlFine] ->
        target t = locationOrStart (firstLocationOf segno (indexedSymbols s))
        /\ state t = activeDalSegno)
    /\ (forall t,
           In t [dalSegnoSegno; dalSegnoSegnoAlCoda; dalSegnoSegnoAlDoubleCoda;
                 dalSegnoSegnoAlFine] ->
           target t
           = locationOrStart (firstLocationOf segnoSegno (indexedSymbols s))
           /\ state t = activeDalSegnoSegno)
    /\ (target toCoda = locationOrStart (firstLocationOf coda (indexedSymbols s))
        /\ state toCoda = activeSymbol c)
    /\ (target toDoubleCoda
        = locationOrStart (firstLocationOf doubleCoda (indexedSymbols s))
        /\ state toDoubleCoda = activeSymbol c).
Proof.
  intros s queries c target state. subst target state.
  pose proof (reachable_find_symbol s queries segno) as Hsegno.
  pose proof (reachable_find_symbol s queries segnoSegno) as HsegnoSegno.
  pose proof (reachable_find_symbol s queries coda) as Hcoda.
  pose proof (reachable_find_symbol s queries doubleCoda) as HdoubleCoda.
  cbv zeta in Hsegno, HsegnoSegno, Hcoda, HdoubleCoda. fold c in Hsegno,
    HsegnoSegno, Hcoda, HdoubleCoda.
  split; [|split; [|split]].
  - intros t Ht. simpl in Ht.
    destruct Ht as [<-|[<-|[<-|[<-|[]]]]];
      unfold performMusicalDirection; simpl; rewrite <- Hsegno;
      destruct (multimap_find symbol_ltb segno (symbolLocations c))
        as [[? ?]|]; split; reflexivity.
  - intros t Ht. simpl in Ht.
    destruct Ht as [<-|[<-|[<-|[<-|[]]]]];
      unfold performMusicalDirection; simpl; rewrite <- HsegnoSegno;
      destruct (multimap_find symbol_ltb segnoSegno (symbolLocations c))
        as [[? ?]|]; split; reflexivity.
  - unfold performMusicalDirection; simpl; rewrite <- Hcoda;
      destruct (multimap_find symbol_ltb coda (symbolLocations c))
        as [[? ?]|]; split; reflexivity.
  - unfold performMusicalDirection; simpl; rewrite <- HdoubleCoda;
      destruct (multimap_find symbol_ltb doubleCoda (symbolLocations c))
        as [[? ?]|]; split; reflexivity.
Qed.
End ReachableControllers.

(** * Further properties of the event generator *)

Section TempoMarkerFacts.
Variable currentScore : Score.
Variables currentSystemIndex positionIndex : Z.

Let qualifies (temp : TempoMarker) : bool :=
  (TempoMarker_GetSystem temp <=? currentSystemIndex)
  && (TempoMarker_GetPosition temp <=? positionIndex)
  && negb (IsAlterationOfPace temp).

(** [getCurrentTempoMarker] returns the last marker, in the order of the
    score's list of markers, whose system index and position index are both
    at most the queried ones and which is not an alteration of pace, and
    returns nothing exactly when no marker passes that test. *)
Theorem getCurrentTempoMarker_last_match :
  match getCurrentTempoMarker currentScore currentSystemIndex positionIndex with
  | Some tempoMarker =>
      exists before after,
        GetTempoMarkers currentScore = before ++ tempoMarker :: after
        /\ qualifies tempoMarker = true
        /\ forallb (fun t => negb (qualifies t)) after = true
  | None =>
      forallb (fun t => negb (qualifies t)) (GetTempoMarkers currentScore) = true
  end.
Proof.
  unfold getCurrentTempoMarker.
  induction (GetTempoMarkers currentScore) as [|x l IH] using rev_ind;
    [reflexivity|].
  rewrite fold_left_app. cbn [fold_left].
  change ((TempoMarker_GetSystem x <=? currentSystemIndex)
          && (TempoMarker_GetPosition x <=? positionIndex)
          && negb (IsAlterationOfPace x)) with (qualifies x).
  destruct (qualifies x) eqn:Ex.
  - exists l, []. auto.
  - destruct (fold_left _ l None) as [tm|].
    + destruct IH as [before [after [-> [Hq Hafter]]]].
      exists before, (after ++ [x]). rewrite <- app_assoc. simpl.
      split; [reflexivity|]. split; [exact Hq|].
      rewrite forallb_app, Hafter. simpl. now rewrite Ex.
    + rewrite forallb_app, IH. simpl. now rewrite Ex.
Qed.
End TempoMarkerFacts.

Section BendFacts.
Context {env : PlayerEnv}.
#[local] Open Scope Q_scope.

(** Equal amounts give no sample: the loop makes no round. *)
Lemma generateGradualBend_no_step (startTime duration : Q) (a b : Z) :
  to_uint8 a = to_uint8 b -> generateGradualBend startTime duration a b = [].
Proof.
  intros H. unfold generateGradualBend. rewrite H, Z.sub_diag. reflexivity.
Qed.

(** Every sample of a gradual bend over a duration that is not negative
    is stamped at or after the start of the bend, with an amount between the
    two amounts of the bend and other than the starting amount; and the
    samples are pushed in the order of their timestamps. *)
Theorem generateGradualBend_samples_ordered :
  forall (startTime duration : Q) (fromAmount toAmount : Z),
    (0 <= fromAmount < 256)%Z -> (0 <= toAmount < 256)%Z ->
    0 <= duration ->
    let bends := generateGradualBend startTime duration fromAmount toAmount in
    (forall b, In b bends ->
       startTime <= timestamp b
       /\ (Z.min fromAmount toAmount <= pitchBendAmount b
           <= Z.max fromAmount toAmount)%Z
       /\ pitchBendAmount b <> fromAmount)
    /\ (forall (k k' : nat) (b b' : BendEventInfo),
          (k <= k')%nat ->
          nth_error bends k = Some b -> nth_error bends k' = Some b' ->
          timestamp b <= timestamp b').
Proof.
  intros startTime duration fromAmount toAmount Hf Ht Hd bends.
  set (n := Z.abs (fromAmount - toAmount)).
  assert (Hlen : length bends = Z.to_nat n).
  { subst bends n. unfold generateGradualBend. rewrite length_map, length_seq.
    now rewrite (to_uint8_small Hf), (to_uint8_small Ht). }
  assert (Hnth : forall k b,
             nth_error bends k = Some b ->
             (k < Z.to_nat n)%nat
             /\ b = mkBendEventInfo
                      (startTime + duration / inject_Z n * inject_Z (Z.of_nat (S k)))
                      (if (fromAmount <? toAmount)%Z
                       then (fromAmount + Z.of_nat (S k))%Z
                       else (fromAmount - Z.of_nat (S k))%Z)).
  { intros k b Hk.
    assert (Hlt : (k < Z.to_nat n)%nat)
      by (rewrite <- Hlen; apply nth_error_Some; congruence).
    split; [exact Hlt|]. subst bends n.
    rewrite (generateGradualBend_nth startTime duration Hf Ht Hlt) in Hk.
    congruence. }
  assert (Hunit : forall k, (k < Z.to_nat n)%nat -> 0 <= duration / inject_Z n).
  { intros k Hk. unfold Qdiv. apply Qmult_le_0_compat; [exact Hd|].
    apply Qinv_le_0_compat. change 0 with (inject_Z 0).
    rewrite <- Zle_Qle. lia. }
  split.
  - intros b Hb. apply In_nth_error in Hb as [k Hk].
    destruct (Hnth k b Hk) as [Hlt ->]. cbn [timestamp pitchBendAmount].
    split; [|split].
    + rewrite <- (Qplus_0_r startTime) at 1. apply Qplus_le_r.
      apply Qmult_le_0_compat; [now apply (Hunit k)|].
      change 0 with (inject_Z 0). rewrite <- Zle_Qle. lia.
    + destruct (fromAmount <? toAmount)%Z eqn:E.
      * apply Z.ltb_lt in E. subst n. lia.
      * apply Z.ltb_ge in E. subst n. lia.
    + destruct (fromAmount <? toAmount)%Z; lia.
  - intros k k' b b' Hkk Hk Hk'.
    destruct (Hnth k b Hk) as [Hlt ->].
    destruct (Hnth k' b' Hk') as [_ ->]. cbn [timestamp].
    apply Qplus_le_r.
    rewrite (Qmult_comm _ (inject_Z (Z.of_nat (S k)))),
      (Qmult_comm _ (inject_Z (Z.of_nat (S k')))).
    apply Qmult_le_compat_r; [|now apply (Hunit k)].
    rewrite <- Zle_Qle. lia.
Qed.

(** A slide into the note of a type that is not supported (neither from
    below nor from above), on a note without a slide out of it, produces no
    bend event at all. *)
Theorem unsupported_slide_into_is_silent :
  forall (startTime noteDuration currentTempo : Q) (note : Note),
    GetSlideOutOf note = None ->
    GetSlideInto note = Some slideIntoOther ->
    generateSlides startTime noteDuration currentTempo note = [].
Proof.
  intros startTime noteDuration currentTempo note Hout Hinto.
  unfold generateSlides. rewrite Hout, Hinto. simpl.
  apply generateGradualBend_no_step.
  unfold to_uint8. now rewrite Z.mod_mod.
Qed.

End BendFacts.

Lemma flat_map_seq_shift (A : Type) (f : nat -> list A) (a n : nat) :
  flat_map f (seq (S a) n) = flat_map (fun j => f (S j)) (seq a n).
Proof.
  rewrite <- seq_shift. induction (seq a n) as [|x l IH]; [reflexivity|].
  simpl. now rewrite IH.
Qed.

Lemma even_succ_swap (A : Type) (j : nat) (a b : A) :
  (if Nat.even (S j) then a else b) = (if Nat.even j then b else a).
Proof.
  rewrite Nat.even_succ, <- Nat.negb_even. now destruct (Nat.even j).
Qed.

Section TremoloFacts.
Context {env : PlayerEnv}.
Variable systemIndex : Z.
Variable i : Z.
Variable guitar : Guitar.

(** The loop of tremolo picking and trills pushes, for each sub-note in
    turn, the [StopNoteEvent] of the pitch that sounds and then the
    [PlayNoteEvent] of the other pitch, both at the start time of the
    sub-note; the pitches alternate from the pitch of the note on.  The pitch
    it leaves for the final [StopNoteEvent] of the note is the pitch of the
    last sub-note played: the starting pitch after an even number of
    sub-notes, the other pitch after an odd number. *)
Theorem tremoloLoop_sub_notes :
  forall (numNotes : nat) (k : Z) (startTime tremPickNoteDuration : Q)
         (positionIndex : Z) (isMuted : bool) (velocity : VelocityType)
         (pitch otherPitch : Z),
    let pitchAt (j : nat) := if Nat.even j then pitch else otherPitch in
    tremoloLoop systemIndex i guitar numNotes k startTime
                tremPickNoteDuration positionIndex isMuted velocity pitch
                otherPitch
    = (flat_map
         (fun j : nat =>
            let currentStartTime :=
              (startTime + inject_Z (k + Z.of_nat j) * tremPickNoteDuration)%Q in
            [StopNoteEvent i currentStartTime positionIndex systemIndex
                           (pitchAt j);
             PlayNoteEvent i currentStartTime tremPickNoteDuration
                           (pitchAt (S j)) positionIndex systemIndex guitar
                           isMuted velocity])
         (seq 0 numNotes),
       pitchAt numNotes).
Proof.
  induction numNotes as [|n IH]; intros; subst pitchAt; [reflexivity|].
  cbn [tremoloLoop]. rewrite IH. cbv zeta.
  cbn [seq flat_map app]. rewrite flat_map_seq_shift.
  rewrite Z.add_0_r, (even_succ_swap n pitch otherPitch).
  change (Nat.even 0) with true. change (Nat.even 1) with false. cbv iota.
  do 3 f_equal. apply flat_map_ext. intros j.
  replace (k + 1 + Z.of_nat j)%Z with (k + Z.of_nat (S j))%Z by lia.
  rewrite !even_succ_swap. reflexivity.
Qed.
End TremoloFacts.

(** ** What a voice emits and leaves behind *)

Lemma Qmax_ge_l (a b : Q) : (a <= Qmax a b)%Q.
Proof.
  unfold Qmax. destruct (Qle_bool b a) eqn:E; [apply Qle_refl|].
  apply Qlt_le_weak, Qnot_le_lt. intros H.
  apply Qle_bool_iff in H. congruence.
Qed.

Lemma Qmax_ge_r (a b : Q) : (b <= Qmax a b)%Q.
Proof.
  unfold Qmax. destruct (Qle_bool b a) eqn:E; [|apply Qle_refl].
  now apply Qle_bool_iff.
Qed.

Lemma sameUpToNoteOrder_refl (p : Position) : sameUpToNoteOrder p p.
Proof. split; [destruct p; reflexivity | apply Permutation_refl]. Qed.

Lemma sameUpToNoteOrder_trans (p q r : Position) :
  sameUpToNoteOrder p q -> sameUpToNoteOrder q r -> sameUpToNoteOrder p r.
Proof.
  intros [Hq Pq] [Hr Pr]. split; [|eapply perm_trans; eassumption].
  rewrite Hr, Hq. reflexivity.
Qed.

Lemma Forall2_sameUpToNoteOrder_refl (l : list Position) :
  Forall2 sameUpToNoteOrder l l.
Proof. induction l; constructor; auto using sameUpToNoteOrder_refl. Qed.

Lemma Forall2_sameUpToNoteOrder_trans (l1 : list Position) :
  forall l2 l3,
    Forall2 sameUpToNoteOrder l1 l2 -> Forall2 sameUpToNoteOrder l2 l3 ->
    Forall2 sameUpToNoteOrder l1 l3.
Proof.
  induction l1 as [|p l1 IH]; intros l2 l3 H12 H23;
    inversion H12; subst; inversion H23; subst; constructor.
  - eapply sameUpToNoteOrder_trans; eassumption.
  - eapply IH; eassumption.
Qed.

Lemma Forall2_sameUpToNoteOrder_positions (l l' : list Position) :
  Forall2 sameUpToNoteOrder l l' -> map GetPosition l' = map GetPosition l.
Proof.
  induction 1 as [|p p' l l' [Hp _] _ IH]; [reflexivity|].
  simpl. rewrite IH, Hp. reflexivity.
Qed.

Lemma replace_nth_sameUpToNoteOrder (l : list Position) :
  forall (j : nat) (p p' : Position),
    nth_error l j = Some p -> sameUpToNoteOrder p p' ->
    Forall2 sameUpToNoteOrder l (replace_nth j p' l).
Proof.
  induction l as [|x l IH]; intros [|j] p p' Hj Hp; try discriminate; simpl.
  - injection Hj as ->. constructor; [exact Hp|].
    apply Forall2_sameUpToNoteOrder_refl.
  - constructor; [apply sameUpToNoteOrder_refl|]. now apply (IH j p p').
Qed.

Lemma vibratoFlags_app (a b : list MidiEvent) :
  vibratoFlags (a ++ b) = vibratoFlags a ++ vibratoFlags b.
Proof.
  induction a as [|e a IH]; [reflexivity|].
  destruct e; simpl; rewrite IH; reflexivity.
Qed.

Lemma vibratoFlags_noteLevel (l : list MidiEvent) :
  Forall (fun e => isNoteLevel e = true) l -> vibratoFlags l = [].
Proof.
  induction 1 as [|e l He _ IH]; [reflexivity|].
  destruct e; simpl in *; try discriminate; exact IH.
Qed.

Section VoiceFacts.
Context {env : PlayerEnv}.
Variable currentScore : Score.
Variable currentSystemIndex : Z.
Variable systemIndex : Z.
Variable system : System.
Variable i : Z.
Variable staff : Staff.
Variable guitar : Guitar.

Lemma tremoloLoop_events (numNotes : nat) :
  forall k startTime tremPickNoteDuration positionIndex isMuted velocity
         pitch otherPitch,
    Forall (noteEventAt systemIndex i positionIndex)
           (fst (tremoloLoop systemIndex i guitar numNotes k startTime
                             tremPickNoteDuration positionIndex isMuted
                             velocity pitch otherPitch)).
Proof.
  induction numNotes as [|n IH]; intros; simpl; [constructor|].
  specialize (IH (k + 1)%Z startTime tremPickNoteDuration positionIndex isMuted
                 velocity otherPitch pitch).
  destruct (tremoloLoop _ _ _ n _ _ _ _ _ _ _ _) as [events pitch'].
  simpl in *. repeat constructor; assumption.
Qed.

Lemma generateNote_events positions j position currentTempo startTime duration
      activePitchBend note :
  Forall (noteEventAt systemIndex i (GetPosition position))
         (fst (generateNote systemIndex i guitar positions j position
                            currentTempo startTime duration activePitchBend
                            note)).
Proof.
  unfold generateNote.
  destruct (match GetBend note with
            | Some bend => generateBends _ _ _ _ bend
            | None => _
            end) as [bends activePitchBend'].
  match goal with
  | |- context [if ?b then tremoloLoop _ _ _ ?n ?k ?s ?d ?p ?m ?v ?x ?y else _] =>
      pose proof (tremoloLoop_events n k s d p m v x y) as Htrem;
      destruct (tremoloLoop systemIndex i guitar n k s d p m v x y)
        as [tremoloEvents pitch'];
      destruct b
  end; simpl fst in *;
    repeat (apply Forall_app; split);
    try exact Htrem;
    try (apply Forall_forall; intros e He; apply in_map_iff in He as [b [<- _]];
         repeat split);
    try (destruct (negb (IsTied note)); repeat constructor);
    try (destruct (negb (HasTieWrap note) && _); repeat constructor).
Qed.

Lemma notesLoop_events positions j position currentTempo notes :
  forall startTime duration activePitchBend,
    Forall (noteEventAt systemIndex i (GetPosition position))
           (snd (notesLoop systemIndex i guitar positions j position
                           currentTempo notes startTime duration
                           activePitchBend)).
Proof.
  induction notes as [|note rest IH]; intros; simpl; [constructor|].
  destruct (if HasArpeggioDown position || HasArpeggioUp position
            then _ else _) as [startTime' duration'].
  pose proof (generateNote_events positions j position currentTempo startTime'
                duration' activePitchBend note) as Hnote.
  destruct (generateNote _ _ _ _ _ _ _ _ _ _ note) as [events apb].
  specialize (IH startTime' duration' apb).
  destruct (notesLoop _ _ _ _ _ _ _ rest _ _ _) as [final events'].
  simpl in *. apply Forall_app. split; assumption.
Qed.

Lemma generatePosition_facts (j : nat) (st : VoiceState) :
  (vs_startTime st <= vs_endTime st)%Q ->
  positionRoundFacts
    systemIndex i st
    (fst (generatePosition currentScore currentSystemIndex systemIndex system i
                           staff guitar j st))
    (snd (generatePosition currentScore currentSystemIndex systemIndex system i
                           staff guitar j st)).
Proof.
  intros Hcursor. unfold positionRoundFacts, generatePosition.
  destruct (nth_error (vs_positions st) j) as [position|] eqn:Hj.
  2:{ simpl. split; [apply Forall2_sameUpToNoteOrder_refl|].
      split; [apply Qle_refl|]. split; [exact Hcursor|].
      split; [now exists O | constructor]. }
  destruct (IsRest position).
  { simpl. split; [apply Forall2_sameUpToNoteOrder_refl|].
    split; [apply Qmax_ge_l|]. split; [apply Qmax_ge_r|].
    split; [now exists O | constructor]. }
  destruct (if IsAcciaccatura position then _ else _) as [duration startTime].
  set (position' := if HasArpeggioDown position then SortNotesDown position
                    else if HasArpeggioUp position then SortNotesUp position
                    else position).
  assert (Hsame : sameUpToNoteOrder position position').
  { subst position'. unfold SortNotesDown, SortNotesUp.
    destruct (HasArpeggioDown position);
      [|destruct (HasArpeggioUp position)];
      try apply sameUpToNoteOrder_refl;
      (split; [reflexivity | apply sortNotes_Permutation]). }
  assert (Hindex : GetPosition position' = GetPosition position).
  { destruct Hsame as [-> _]. reflexivity. }
  set (positions := replace_nth j position' (vs_positions st)).
  destruct (letRingStep systemIndex i position' j (length positions) startTime
                        duration (vs_letRingActive st))
    as [letRingEvents active] eqn:Hlr.
  pose proof (notesLoop_events positions j position'
                (getCurrentTempo currentScore currentSystemIndex
                                 (GetPosition position))
                (GetNotes position') startTime duration
                (vs_activePitchBend st)) as Hnotes.
  destruct (notesLoop _ _ _ positions j position' _ _ _ _ _)
    as [[[startTime' duration'] apb] noteEvents].
  simpl in Hnotes. simpl fst. simpl snd. cbn [vs_positions vs_endTime vs_startTime].
  assert (Hin : In (GetPosition position) (map GetPosition (vs_positions st))).
  { apply in_map. eapply nth_error_In. exact Hj. }
  assert (Hletring : Forall (isLetRingOf i systemIndex (GetPosition position))
                            letRingEvents).
  { unfold letRingStep in Hlr. rewrite Hindex in Hlr.
    destruct (HasLetRing position' && negb (vs_letRingActive st));
      [|destruct (negb (HasLetRing position') && vs_letRingActive st);
        [|destruct (vs_letRingActive st && Nat.eqb (S j) (length positions))]];
      injection Hlr as <- _; repeat constructor. }
  split; [now apply (replace_nth_sameUpToNoteOrder _ j Hj)|].
  split; [apply Qmax_ge_l|]. split; [apply Qmax_ge_r|]. split.
  - rewrite !vibratoFlags_app.
    assert (Hnv : vibratoFlags noteEvents = []).
    { apply vibratoFlags_noteLevel.
      eapply Forall_impl; [|exact Hnotes]. now intros e [He _]. }
    rewrite Hnv.
    assert (Hlrv : vibratoFlags letRingEvents = []).
    { clear - Hletring. induction Hletring as [|e l He _ IH]; [reflexivity|].
      destruct e; simpl in *; try contradiction; exact IH. }
    rewrite Hlrv, !app_nil_r.
    destruct (HasVibrato position' || HasWideVibrato position');
      [now exists 1%nat | now exists O].
  - repeat (apply Forall_app; split).
    + destruct (HasVibrato position' || HasWideVibrato position');
        repeat constructor; assumption.
    + eapply Forall_impl; [|exact Hletring].
      intros e He. destruct e; simpl in He; try contradiction.
      destruct He as [-> [-> ->]]. simpl. auto.
    + eapply Forall_impl; [|exact Hnotes].
      intros e [_ [Hc [Hs Hp]]]. rewrite Hindex in Hp. rewrite Hp. auto.
Qed.
End VoiceFacts.

Lemma vibrato_pairs_app (a b : list bool) :
  (exists n : nat, a = concat (repeat [true; false] n)) ->
  (exists n : nat, b = concat (repeat [true; false] n)) ->
  exists n : nat, a ++ b = concat (repeat [true; false] n).
Proof.
  intros [n ->] [m ->]. exists (n + m)%nat.
  now rewrite repeat_app, concat_app.
Qed.

Section VoiceLoopFacts.
Context {env : PlayerEnv}.
Variable currentScore : Score.
Variable currentSystemIndex : Z.
Variable systemIndex : Z.
Variable system : System.
Variable i : Z.
Variable staff : Staff.
Variable guitar : Guitar.

Lemma positionRoundFacts_trans st st1 st2 events events' :
  positionRoundFacts systemIndex i st st1 events ->
  positionRoundFacts systemIndex i st1 st2 events' ->
  positionRoundFacts systemIndex i st st2 (events ++ events').
Proof.
  intros [Hp [He [Hc [Hv Hf]]]] [Hp' [He' [Hc' [Hv' Hf']]]].
  split; [eapply Forall2_sameUpToNoteOrder_trans; eassumption|].
  split; [eapply Qle_trans; eassumption|]. split; [exact Hc'|]. split.
  - rewrite vibratoFlags_app. now apply vibrato_pairs_app.
  - apply Forall_app. split; [exact Hf|].
    rewrite (Forall2_sameUpToNoteOrder_positions Hp) in Hf'. exact Hf'.
Qed.

Lemma positionsLoop_facts (count : nat) :
  forall (j : nat) (st : VoiceState),
    (vs_startTime st <= vs_endTime st)%Q ->
    positionRoundFacts
      systemIndex i st
      (fst (positionsLoop currentScore currentSystemIndex systemIndex system i
                          staff guitar count j st))
      (snd (positionsLoop currentScore currentSystemIndex systemIndex system i
                          staff guitar count j st)).
Proof.
  induction count as [|count IH]; intros j st Hcursor; simpl.
  - split; [apply Forall2_sameUpToNoteOrder_refl|].
    split; [apply Qle_refl|]. split; [exact Hcursor|].
    split; [now exists O | constructor].
  - pose proof (generatePosition_facts currentScore currentSystemIndex
                  systemIndex system i staff guitar j st Hcursor) as Hround.
    destruct (generatePosition _ _ _ _ _ _ _ j st) as [st1 events].
    simpl in Hround.
    assert (Hcursor1 : (vs_startTime st1 <= vs_endTime st1)%Q)
      by (destruct Hround as [_ [_ [H _]]]; exact H).
    specialize (IH (S j) st1 Hcursor1).
    destruct (positionsLoop _ _ _ _ _ _ _ count (S j) st1) as [st2 events'].
    simpl in *. eapply positionRoundFacts_trans; eassumption.
Qed.

(** Generating a voice leaves the positions of the voice as they were, up
    to the order of the notes inside a position: no position and no note is
    added, dropped or changed, whatever arpeggios the voice has. *)
Theorem generateVoice_keeps_positions :
  forall (voice : nat) (systemStartTime endTime : Q),
    (systemStartTime <= endTime)%Q ->
    Forall2 sameUpToNoteOrder
            (GetVoice staff voice)
            (vs_positions
               (fst (generateVoice currentScore currentSystemIndex systemIndex
                                   system i staff guitar voice systemStartTime
                                   endTime))).
Proof.
  intros voice systemStartTime endTime Hle. unfold generateVoice.
  apply (positionsLoop_facts (length (GetVoice staff voice)) 0
           (mkVoiceState (GetVoice staff voice) systemStartTime endTime false
                         (to_uint8 DEFAULT_BEND))).
  exact Hle.
Qed.

(** The end time a voice leaves is not before the end time it was given and
    not before the cursor of the voice at its end. *)
Lemma generateVoice_end_time (voice : nat) (systemStartTime endTime : Q) :
  (systemStartTime <= endTime)%Q ->
  let st := fst (generateVoice currentScore currentSystemIndex systemIndex
                               system i staff guitar voice systemStartTime
                               endTime) in
  (endTime <= vs_endTime st)%Q /\ (vs_startTime st <= vs_endTime st)%Q.
Proof.
  intros Hle st. subst st. unfold generateVoice.
  destruct (positionsLoop_facts (length (GetVoice staff voice)) 0
              (mkVoiceState (GetVoice staff voice) systemStartTime endTime false
                            (to_uint8 DEFAULT_BEND)) Hle)
    as [_ [He [Hc _]]].
  split; [exact He | exact Hc].
Qed.

Lemma generateVoice_events (voice : nat) (systemStartTime endTime : Q) :
  (systemStartTime <= endTime)%Q ->
  let events := snd (generateVoice currentScore currentSystemIndex systemIndex
                                   system i staff guitar voice systemStartTime
                                   endTime) in
  (exists n : nat, vibratoFlags events = concat (repeat [true; false] n))
  /\ Forall (fun e =>
               eventChannel e = i /\ eventSystemIndex e = systemIndex
               /\ In (eventPositionIndex e)
                     (map GetPosition (GetVoice staff voice))) events.
Proof.
  intros Hle events. subst events. unfold generateVoice.
  destruct (positionsLoop_facts (length (GetVoice staff voice)) 0
              (mkVoiceState (GetVoice staff voice) systemStartTime endTime false
                            (to_uint8 DEFAULT_BEND)) Hle)
    as [_ [_ [_ [Hv Hf]]]].
  split; [exact Hv | exact Hf].
Qed.

Lemma voicesLoop_facts (count : nat) :
  forall (voice : nat) (systemStartTime endTime : Q),
    (systemStartTime <= endTime)%Q ->
    let result := voicesLoop currentScore currentSystemIndex systemIndex system
                             i staff guitar count voice systemStartTime endTime in
    (endTime <= fst result)%Q
    /\ (exists n : nat,
           vibratoFlags (snd result) = concat (repeat [true; false] n))
    /\ Forall (fun e =>
                 eventChannel e = i /\ eventSystemIndex e = systemIndex
                 /\ In (eventPositionIndex e)
                       (map GetPosition (concat (GetVoices staff))))
              (snd result).
Proof.
  induction count as [|count IH]; intros voice systemStartTime endTime Hle;
    cbv zeta; simpl.
  - split; [apply Qle_refl|]. split; [now exists O | constructor].
  - pose proof (generateVoice_end_time voice Hle) as Hend.
    pose proof (generateVoice_events voice Hle) as Hev.
    cbv zeta in Hend, Hev.
    destruct (generateVoice _ _ _ _ _ _ _ voice systemStartTime endTime)
      as [st events].
    simpl in Hend, Hev. destruct Hend as [Hend _]. destruct Hev as [Hv Hf].
    assert (Hle' : (systemStartTime <= vs_endTime st)%Q)
      by (eapply Qle_trans; eassumption).
    specialize (IH (S voice) systemStartTime (vs_endTime st) Hle').
    cbv zeta in IH.
    destruct (voicesLoop _ _ _ _ _ _ _ count (S voice) systemStartTime
                         (vs_endTime st)) as [endTime' events'].
    simpl in *. destruct IH as [IHe [IHv IHf]].
    split; [eapply Qle_trans; eassumption|]. split.
    + rewrite vibratoFlags_app. now apply vibrato_pairs_app.
    + apply Forall_app. split; [|exact IHf].
      eapply Forall_impl; [|exact Hf].
      intros e [Hc [Hs Hp]]. repeat split; try assumption.
      apply in_map_iff in Hp as [p [Hp Hin]].
      apply in_map_iff. exists p. split; [exact Hp|].
      apply in_concat. exists (GetVoice staff voice). split; [|exact Hin].
      unfold GetVoice in *.
      destruct (nth_in_or_default voice (GetVoices staff) []) as [H|H];
        [exact H | rewrite H in Hin; destruct Hin].
Qed.
End VoiceLoopFacts.

Section SystemFacts.
Context {env : PlayerEnv}.
Variable currentScore : Score.
Variable currentSystemIndex : Z.
Variable systemIndex : Z.

Lemma stavesLoop_facts (system : System) (staves : list Staff) :
  forall (k : nat) (systemStartTime endTime : Q),
    (systemStartTime <= endTime)%Q ->
    (forall n staff, nth_error staves n = Some staff ->
                     nth_error (GetStaves system) (k + n) = Some staff) ->
    let result := stavesLoop currentScore currentSystemIndex systemIndex system
                             staves k systemStartTime endTime in
    (endTime <= fst result)%Q
    /\ (exists n : nat,
           vibratoFlags (snd result) = concat (repeat [true; false] n))
    /\ Forall (eventOfSystem systemIndex system) (snd result).
Proof.
  induction staves as [|staff rest IH];
    intros k systemStartTime endTime Hle Hnth; cbv zeta.
  - simpl. split; [apply Qle_refl|]. split; [now exists O | constructor].
  - cbn [stavesLoop].
    pose proof (voicesLoop_facts currentScore currentSystemIndex systemIndex
                  system (Z.of_nat k) staff
                  (nth k (GetGuitars currentScore) (mkGuitar [] 0))
                  NUM_STAFF_VOICES 0 Hle) as Hv.
    cbv zeta in Hv.
    destruct (voicesLoop _ _ _ _ _ staff _ NUM_STAFF_VOICES 0 systemStartTime
                         endTime) as [endTime1 events].
    simpl in Hv. destruct Hv as [He [Hvib Hf]].
    assert (Hle1 : (systemStartTime <= endTime1)%Q)
      by (eapply Qle_trans; eassumption).
    assert (Hnth' : forall n s, nth_error rest n = Some s ->
                                nth_error (GetStaves system) (S k + n) = Some s).
    { intros n s Hn. replace (S k + n)%nat with (k + S n)%nat by lia.
      now apply Hnth. }
    specialize (IH (S k) systemStartTime endTime1 Hle1 Hnth').
    cbv zeta in IH.
    destruct (stavesLoop _ _ _ _ rest (S k) systemStartTime endTime1)
      as [endTime2 events'].
    cbn [fst snd] in *. destruct IH as [IHe [IHv IHf]].
    split; [eapply Qle_trans; eassumption|]. split.
    + rewrite vibratoFlags_app. now apply vibrato_pairs_app.
    + apply Forall_app. split; [|exact IHf].
      eapply Forall_impl; [|exact Hf].
      intros e [Hc [Hs Hp]]. split; [exact Hs|].
      exists k, staff. split; [|split; assumption].
      specialize (Hnth O staff eq_refl). now rewrite Nat.add_0_r in Hnth.
Qed.

(** The end time [generateEventsForSystem] returns is never before the
    start time of the system, grace notes and arpeggios included. *)
Theorem generateEventsForSystem_end_time :
  forall systemStartTime : Q,
    (systemStartTime
     <= fst (generateEventsForSystem currentScore currentSystemIndex systemIndex
                                     systemStartTime))%Q.
Proof.
  intros systemStartTime. unfold generateEventsForSystem.
  apply (stavesLoop_facts (GetSystem currentScore systemIndex)
           (GetStaves (GetSystem currentScore systemIndex)) 0
           (Qle_refl systemStartTime)).
  intros n staff H. exact H.
Qed.

(** In the events of a system, taken in the order they are pushed, the
    vibrato events come in pairs: an on-event directly followed, among the
    vibrato events, by its off-event. *)
Theorem generateEventsForSystem_vibrato_pairs :
  forall systemStartTime : Q,
    exists n : nat,
      vibratoFlags
        (snd (generateEventsForSystem currentScore currentSystemIndex
                                      systemIndex systemStartTime))
      = concat (repeat [true; false] n).
Proof.
  intros systemStartTime. unfold generateEventsForSystem.
  apply (stavesLoop_facts (GetSystem currentScore systemIndex)
           (GetStaves (GetSystem currentScore systemIndex)) 0
           (Qle_refl systemStartTime)).
  intros n staff H. exact H.
Qed.

(** Every event of a system carries the index of the system, the index of
    one of its staves as its channel, and the position index of a position
    of that staff. *)
Theorem generateEventsForSystem_locations :
  forall (systemStartTime : Q) (e : MidiEvent),
    In e (snd (generateEventsForSystem currentScore currentSystemIndex
                                       systemIndex systemStartTime)) ->
    eventOfSystem systemIndex (GetSystem currentScore systemIndex) e.
Proof.
  intros systemStartTime e He. unfold generateEventsForSystem in He.
  destruct (stavesLoop_facts (GetSystem currentScore systemIndex)
              (GetStaves (GetSystem currentScore systemIndex)) 0
              (Qle_refl systemStartTime)) as [_ [_ Hf]].
  - intros n staff H. exact H.
  - rewrite Forall_forall in Hf. now apply Hf.
Qed.
End SystemFacts.

(** ** The metronome *)

Lemma last_default_irrelevant (A : Type) (l : list A) (d d' : A) :
  l <> [] -> last l d = last l d'.
Proof.
  induction l as [|a l IH]; intros H; [now contradiction H|].
  destruct l as [|b l]; [reflexivity|].
  change (last (a :: b :: l) d) with (last (b :: l) d).
  change (last (a :: b :: l) d') with (last (b :: l) d').
  apply IH. discriminate.
Qed.

Section MetronomeFacts.
Context {env : PlayerEnv}.
Variables METRONOME_CHANNEL METRONOME_PITCH : Z.
Variable currentScore : Score.
Variable currentSystemIndex : Z.
Variable systemIndex : Z.
#[local] Open Scope Q_scope.

Lemma pulsesLoop_facts (numPulses : nat) :
  forall (j : nat) (startTime duration : Q) (position : Z),
    let result := pulsesLoop METRONOME_CHANNEL METRONOME_PITCH systemIndex
                             numPulses j startTime duration position in
    fst result == startTime + inject_Z (Z.of_nat numPulses) * duration
    /\ length (snd result) = (2 * numPulses)%nat
    /\ length (filter isPulse (snd result)) = numPulses
    /\ length (filter isStrongPulse (snd result))
       = (if Nat.eqb j 0 then Nat.min 1 numPulses else 0)%nat.
Proof.
  induction numPulses as [|n IH]; intros j startTime duration position;
    cbv zeta.
  - simpl. repeat split; try ring. now destruct (Nat.eqb j 0).
  - cbn [pulsesLoop].
    specialize (IH (S j) (startTime + duration) duration position).
    cbv zeta in IH.
    destruct (pulsesLoop _ _ _ n (S j) (startTime + duration) duration position)
      as [final events].
    cbn [fst snd] in *. destruct IH as [Ht [Hl [Hp Hs]]].
    split; [|split; [|split]].
    + rewrite Ht, Nat2Z.inj_succ. unfold Z.succ. rewrite inject_Z_plus. ring.
    + simpl. lia.
    + simpl. now rewrite Hp.
    + simpl in Hs. destruct (Nat.eqb j 0); simpl; rewrite Hs;
        [destruct n|]; reflexivity.
Qed.

Lemma barlinesLoop_facts (barlines : list Barline) :
  forall (startTime final : Q) (events : list MetronomeOutput),
    barlinesLoop METRONOME_CHANNEL METRONOME_PITCH currentScore
                 currentSystemIndex systemIndex barlines startTime
    = Some (final, events) ->
    final == startTime
             + Qsum (map (measureSpan currentScore currentSystemIndex) barlines)
    /\ length (filter isPulse events)
       = list_sum (map (fun b => Z.to_nat (to_uint8 (GetPulses b))) barlines)
    /\ length (filter isStrongPulse events) = length barlines
    /\ length events
       = (2 * list_sum (map (fun b => Z.to_nat (to_uint8 (GetPulses b)))
                            barlines))%nat.
Proof.
  induction barlines as [|barline rest IH]; intros startTime final events H.
  - injection H as <- <-. simpl. repeat split. ring.
  - cbn [barlinesLoop] in H.
    destruct (to_uint8 (GetPulses barline) =? 0)%Z eqn:E0; [discriminate|].
    apply Z.eqb_neq in E0.
    assert (Hrange : (0 <= to_uint8 (GetPulses barline) < 256)%Z)
      by (unfold to_uint8; apply Z.mod_pos_bound; lia).
    pose proof (pulsesLoop_facts (Z.to_nat (to_uint8 (GetPulses barline))) 0
                  startTime
                  (pulseDuration currentScore currentSystemIndex barline)
                  (Barline_GetPosition barline)) as Hp.
    cbv zeta in Hp.
    destruct (pulsesLoop _ _ _ _ 0 startTime _ _) as [startTime' events1].
    cbn [fst snd] in Hp. destruct Hp as [Ht [Hl [Hn Hs]]].
    destruct (barlinesLoop _ _ _ _ _ rest startTime') as [[final' events2]|] eqn:E;
      [|discriminate].
    injection H as <- <-.
    destruct (IH startTime' final' events2 E) as [Ht' [Hn' [Hs' Hl']]].
    split; [|split; [|split]].
    + rewrite Ht', Ht. simpl. unfold measureSpan.
      rewrite Z2Nat.id by lia. ring.
    + rewrite filter_app, length_app, Hn, Hn'. reflexivity.
    + rewrite filter_app, length_app, Hs, Hs'. simpl.
      destruct (Z.to_nat (to_uint8 (GetPulses barline))) eqn:En; [lia|].
      reflexivity.
    + rewrite length_app, Hl, Hl'. simpl. lia.
Qed.

Lemma timeAfter_next (startTime duration : Q) (rounds : nat) :
  timeAfter (startTime + duration) duration rounds
  = timeAfter startTime duration (S rounds).
Proof. unfold timeAfter. now rewrite Nat.iter_succ_r. Qed.

(** The pulses of a bar, one after the other. *)
Lemma pulsesLoop_shape (numPulses : nat) :
  forall (j0 : nat) (startTime duration : Q) (position : Z),
    pulsesLoop METRONOME_CHANNEL METRONOME_PITCH systemIndex numPulses j0
               startTime duration position
    = (timeAfter startTime duration numPulses,
       flat_map
         (fun j =>
            [MetronomeEvent METRONOME_CHANNEL (timeAfter startTime duration j)
                            duration position systemIndex
                            (if Nat.eqb (j0 + j) 0 then STRONG_ACCENT
                             else WEAK_ACCENT);
             MetronomeStop
               (StopNoteEvent METRONOME_CHANNEL
                              (timeAfter startTime duration (S j)) position
                              systemIndex METRONOME_PITCH)])
         (seq 0 numPulses)).
Proof.
  induction numPulses as [|n IH]; intros j0 startTime duration position;
    [reflexivity|].
  cbn [pulsesLoop]. rewrite IH.
  cbn [seq flat_map app]. rewrite flat_map_seq_shift.
  rewrite timeAfter_next, Nat.add_0_r. do 3 f_equal.
  apply flat_map_ext. intros j.
  rewrite !timeAfter_next, Nat.add_succ_r. reflexivity.
Qed.

Lemma flat_map_combine_shift (A B : Type) (f : nat * A -> list B)
      (l : list A) :
  forall a : nat,
    flat_map f (combine (seq (S a) (length l)) l)
    = flat_map (fun kb => f (S (fst kb), snd kb)) (combine (seq a (length l)) l).
Proof.
  induction l as [|x l IH]; intros a; [reflexivity|].
  simpl. now rewrite IH.
Qed.

(** The bars of a system, one after the other. *)
Lemma barlinesLoop_shape (bars : list Barline) :
  forall (startTime final : Q) (events : list MetronomeOutput),
    barlinesLoop METRONOME_CHANNEL METRONOME_PITCH currentScore
                 currentSystemIndex systemIndex bars startTime
    = Some (final, events) ->
    final = barStartTime currentScore currentSystemIndex bars startTime
                         (length bars)
    /\ events
       = flat_map
           (fun kb =>
              barEvents METRONOME_CHANNEL METRONOME_PITCH currentScore
                        currentSystemIndex systemIndex (snd kb)
                        (barStartTime currentScore currentSystemIndex bars
                                      startTime (fst kb)))
           (combine (seq 0 (length bars)) bars)
    /\ Forall (fun b => barPulseCount b <> O) bars.
Proof.
  induction bars as [|barline rest IH]; intros startTime final events H.
  - injection H as <- <-. repeat split. constructor.
  - cbn [barlinesLoop] in H.
    destruct (to_uint8 (GetPulses barline) =? 0)%Z eqn:E0; [discriminate|].
    apply Z.eqb_neq in E0.
    assert (Hrange : (0 <= to_uint8 (GetPulses barline) < 256)%Z)
      by (unfold to_uint8; apply Z.mod_pos_bound; lia).
    rewrite pulsesLoop_shape in H.
    destruct (barlinesLoop _ _ _ _ _ rest _) as [[final' events2]|] eqn:E;
      [|discriminate].
    injection H as <- <-.
    destruct (IH _ _ _ E) as [Hfinal [Hevents Hpulses]].
    split; [|split].
    + rewrite Hfinal. reflexivity.
    + rewrite Hevents. cbn [length seq combine flat_map].
      rewrite flat_map_combine_shift. reflexivity.
    + constructor; [unfold barPulseCount; lia | exact Hpulses].
Qed.

(** When [generateMetronome] completes for a system, the events it has
    pushed are, bar after bar (the barlines but the end bar) and pulse after
    pulse, the metronome event of the pulse, with the strong accent on the
    first pulse of the bar and the weak accent on the others, directly
    followed by the event that stops it at the time of the next pulse; then,
    at the end, the stop event at the position of the end bar, at the time
    reached after the last pulse: the event that makes playback check for
    repeats at the last barline.  So there is one metronome event for every
    pulse and one strong accent for every bar. *)
Theorem generateMetronome_structure :
  forall (system : System) (startTime : Q) (events : list MetronomeOutput),
    generateMetronome METRONOME_CHANNEL METRONOME_PITCH currentScore
                      currentSystemIndex systemIndex system startTime
    = Some events ->
    let bars := removelast (GetBarlines system) in
    let pulses := list_sum (map barPulseCount bars) in
    length (filter isPulse events) = pulses
    /\ length (filter isStrongPulse events) = length bars
    /\ length events = (2 * pulses + 1)%nat
    /\ Forall (fun b => barPulseCount b <> O) bars
    /\ forall endBar : Barline,
        events
        = flat_map
            (fun kb =>
               barEvents METRONOME_CHANNEL METRONOME_PITCH currentScore
                         currentSystemIndex systemIndex (snd kb)
                         (barStartTime currentScore currentSystemIndex bars
                                       startTime (fst kb)))
            (combine (seq 0 (length bars)) bars)
          ++ [MetronomeStop
                (StopNoteEvent METRONOME_CHANNEL
                               (barStartTime currentScore currentSystemIndex
                                             bars startTime (length bars))
                               (Barline_GetPosition
                                  (last (GetBarlines system) endBar))
                               systemIndex METRONOME_PITCH)].
Proof.
  intros system startTime events H bars pulses. subst bars pulses.
  unfold generateMetronome in H.
  destruct (GetBarlines system) as [|first others]; [discriminate|].
  destruct (barlinesLoop _ _ _ _ _ (removelast (first :: others)) startTime)
    as [[startTime' events']|] eqn:E; [|discriminate].
  injection H as <-.
  destruct (barlinesLoop_facts _ _ E) as [_ [Hn [Hs Hl]]].
  destruct (barlinesLoop_shape _ _ E) as [Hfinal [Hevents Hpulses]].
  unfold barPulseCount.
  split; [|split; [|split; [|split]]].
  - rewrite filter_app, length_app, Hn. simpl. lia.
  - rewrite filter_app, length_app, Hs. simpl. lia.
  - rewrite length_app, Hl. simpl. lia.
  - exact Hpulses.
  - intros endBar. rewrite <- Hevents, <- Hfinal.
    assert (Hlast : last others first = last (first :: others) endBar).
    { destruct others as [|b others]; [reflexivity|].
      change (last (first :: b :: others) endBar)
        with (last (b :: others) endBar).
      apply last_default_irrelevant. discriminate. }
    rewrite Hlast. reflexivity.
Qed.
End MetronomeFacts.

Section MeasureSpan.
Context {env : PlayerEnv}.
Variable currentScore : Score.
Variable currentSystemIndex : Z.
#[local] Open Scope Q_scope.

(** When the number of pulses of a time signature divides its beats per
    measure, the pulses of a bar take together the length of the bar,
    [tempo * 4 / beatAmount * beatsPerMeasure]; a whole rest that is alone
    in that bar then lasts exactly as long as the pulses of the bar, if the
    tempo at the rest is the tempo at the barline. *)
Theorem measureSpan_is_bar_length :
  forall (system : System) (staff : Staff) (position : Position)
         (originalDuration : Q),
    let barline := GetPrecedingBarline system (GetPosition position) in
    (0 < GetPulses barline < 256)%Z ->
    (0 <= GetBeatsPerMeasure barline < 256)%Z ->
    (0 <= GetBeatAmount barline < 256)%Z ->
    (GetBeatsPerMeasure barline mod GetPulses barline = 0)%Z ->
    let tempo :=
      getCurrentTempo currentScore currentSystemIndex
                      (Barline_GetPosition barline) in
    measureSpan currentScore currentSystemIndex barline
    == tempo * 4 / inject_Z (GetBeatAmount barline)
       * inject_Z (GetBeatsPerMeasure barline)
    /\ (IsOnlyPositionInBar staff position system = true ->
        getCurrentTempo currentScore currentSystemIndex (GetPosition position)
        == tempo ->
        getWholeRestDuration currentScore currentSystemIndex system staff
                             position originalDuration
        == measureSpan currentScore currentSystemIndex barline).
Proof.
  intros system staff position originalDuration barline Hp Hb Ha Hdiv tempo.
  assert (Hspan : measureSpan currentScore currentSystemIndex barline
                  == tempo * 4 / inject_Z (GetBeatAmount barline)
                     * inject_Z (GetBeatsPerMeasure barline)).
  { unfold measureSpan, pulseDuration. fold tempo.
    rewrite !to_uint8_small by lia.
    rewrite Z.quot_div_nonneg by lia.
    assert (E : GetBeatsPerMeasure barline
                = (GetPulses barline
                   * (GetBeatsPerMeasure barline / GetPulses barline))%Z)
      by (apply Z.div_exact; lia).
    rewrite E at 2. rewrite inject_Z_mult. ring. }
  split; [exact Hspan|].
  intros Honly Htempo. rewrite Hspan.
  unfold getWholeRestDuration. rewrite Honly. cbn [negb]. fold barline.
  rewrite Htempo. reflexivity.
Qed.
End MeasureSpan.

(** ** The packed symbols of a direction *)

Module DirectionSymbolFacts.
Import DirectionSymbols.

Lemma fieldsReadBack_checked :
  forallb
    (fun t =>
       forallb
         (fun a =>
            forallb (fun r => fieldsReadBack (Z.of_nat t) (Z.of_nat a) (Z.of_nat r))
                    (seq 0 64))
         (seq 0 4))
    (seq 0 256) = true.
Proof. vm_compute. reflexivity. Qed.

Lemma fieldsReadBack_all (t a r : Z) :
  0 <= t < 256 -> 0 <= a < 4 -> 0 <= r < 64 -> fieldsReadBack t a r = true.
Proof.
  intros Ht Ha Hr.
  pose proof fieldsReadBack_checked as H.
  rewrite forallb_forall in H.
  specialize (H (Z.to_nat t) ltac:(apply in_seq; lia)).
  rewrite forallb_forall in H.
  specialize (H (Z.to_nat a) ltac:(apply in_seq; lia)).
  rewrite forallb_forall in H.
  specialize (H (Z.to_nat r) ltac:(apply in_seq; lia)).
  now rewrite !Z2Nat.id in H by lia.
Qed.

Lemma assign_length (m : list Z) : forall n s, length (assign n s m) = length m.
Proof.
  induction m as [|x m IH]; intros [|n] s; simpl; auto.
Qed.

Lemma assign_nth_same (m : list Z) :
  forall n s, (n < length m)%nat -> nth n (assign n s m) 0 = s.
Proof.
  induction m as [|x m IH]; intros [|n] s H; simpl in *; try lia; auto.
  apply IH. lia.
Qed.

Lemma assign_nth_other (m : list Z) :
  forall n k s, n <> k -> nth k (assign n s m) 0 = nth k m 0.
Proof.
  induction m as [|x m IH]; intros [|n] [|k] s H; simpl; auto.
  contradiction.
Qed.

Section Facts.
Variables IsValidSymbolType IsValidActiveSymbol IsValidRepeatNumber : Z -> bool.
Variable IsValidSymbolIndex : Z -> Z -> bool.

Let Set_ := SetSymbol IsValidSymbolType IsValidActiveSymbol IsValidRepeatNumber
                      IsValidSymbolIndex.
Let Get_ := GetSymbol 65280 192 63 IsValidSymbolIndex.
Let Add_ := AddSymbol IsValidSymbolType IsValidActiveSymbol IsValidRepeatNumber
                      IsValidSymbolIndex.

Lemma SetSymbol_stores (m : list Z) (index t a r : Z) :
  0 <= t < 256 -> 0 <= a < 4 -> 0 <= r < 64 ->
  0 <= index < GetSymbolCount m ->
  fst (Set_ m index t a r) = true ->
  Get_ (snd (Set_ m index t a r)) index = Some (t, a, r)
  /\ length (snd (Set_ m index t a r)) = length m
  /\ forall k : nat,
      k <> Z.to_nat index -> nth k (snd (Set_ m index t a r)) 0 = nth k m 0.
Proof.
  intros Ht Ha Hr Hi. unfold Set_, Get_.
  unfold SetSymbol, GetSymbol, GetSymbolCount in *.
  destruct (IsValidSymbolIndex (Z.of_nat (length m)) index) eqn:Ei;
    [|discriminate].
  destruct (IsValidSymbolType t); [|discriminate].
  destruct (IsValidActiveSymbol a); [|discriminate].
  destruct (IsValidRepeatNumber r); [|discriminate].
  cbn [negb fst snd]. intros _. rewrite assign_length, Ei. cbn [negb].
  split; [|split; [reflexivity|]].
  - rewrite assign_nth_same by lia.
    pose proof (fieldsReadBack_all Ht Ha Hr) as H. unfold fieldsReadBack in H.
    apply andb_true_iff in H as [H H3]. apply andb_true_iff in H as [H1 H2].
    apply Z.eqb_eq in H1, H2, H3. now rewrite H1, H2, H3.
  - intros k Hk. apply assign_nth_other. congruence.
Qed.

(** With the masks of bits 8 to 15, 6 to 7 and 0 to 5, [GetSymbol] reads
    back what [SetSymbol] stored: when [SetSymbol] returns true for a symbol
    type below 256, an active symbol below 4 and a repeat number below 64 at
    an index of the array, [GetSymbol] at that index returns the three
    values and every other symbol of the array is as it was; when it returns
    false, the array is as it was. *)
Theorem SetSymbol_GetSymbol_round_trip :
  forall (m_symbolArray : list Z) (index symbolType activeSymbol repeatNumber : Z),
    0 <= symbolType < 256 -> 0 <= activeSymbol < 4 -> 0 <= repeatNumber < 64 ->
    0 <= index < GetSymbolCount m_symbolArray ->
    let result := Set_ m_symbolArray index symbolType activeSymbol repeatNumber in
    if fst result then
      Get_ (snd result) index = Some (symbolType, activeSymbol, repeatNumber)
      /\ length (snd result) = length m_symbolArray
      /\ forall k : nat,
          k <> Z.to_nat index ->
          nth k (snd result) 0 = nth k m_symbolArray 0
    else snd result = m_symbolArray.
Proof.
  intros m index t a r Ht Ha Hr Hi result. subst result.
  destruct (fst (Set_ m index t a r)) eqn:Eok.
  - now apply SetSymbol_stores.
  - unfold Set_, SetSymbol in *.
    destruct (negb (IsValidSymbolIndex (GetSymbolCount m) index));
      [reflexivity|].
    destruct (negb (IsValidSymbolType t)); [reflexivity|].
    destruct (negb (IsValidActiveSymbol a)); [reflexivity|].
    destruct (negb (IsValidRepeatNumber r)); [reflexivity|].
    discriminate Eok.
Qed.

(** [AddSymbol] never lets a direction hold more than [MAX_SYMBOLS]
    symbols: on an array of at most three symbols it leaves at most three,
    and on a full array it returns false and changes nothing. *)
Theorem AddSymbol_capacity :
  forall (m_symbolArray : list Z) (symbolType activeSymbol repeatNumber : Z),
    GetSymbolCount m_symbolArray <= MAX_SYMBOLS ->
    let result := Add_ m_symbolArray symbolType activeSymbol repeatNumber in
    GetSymbolCount (snd result) <= MAX_SYMBOLS
    /\ (GetSymbolCount m_symbolArray = MAX_SYMBOLS ->
        result = (false, m_symbolArray)).
Proof.
  intros m t a r Hc result. subst result Add_.
  unfold AddSymbol, SetSymbol, GetSymbolCount, MAX_SYMBOLS in *.
  destruct (IsValidSymbolType t); [|cbn; split; [lia | reflexivity]].
  destruct (IsValidActiveSymbol a); [|cbn; split; [lia | reflexivity]].
  destruct (IsValidRepeatNumber r); [|cbn; split; [lia | reflexivity]].
  cbn [negb].
  destruct (Z.of_nat (length m) =? 3) eqn:E3.
  - cbn. split; [lia | reflexivity].
  - apply Z.eqb_neq in E3. split; [|intros H; contradiction].
    destruct (negb (IsValidSymbolIndex _ _)); cbn [snd];
      rewrite ?assign_length, length_app; simpl; lia.
Qed.

(** A symbol that [AddSymbol] accepts is stored behind the symbols the
    direction already had and is read back by [GetSymbol] at the last
    index. *)
Theorem AddSymbol_GetSymbol :
  forall (m_symbolArray : list Z) (symbolType activeSymbol repeatNumber : Z),
    0 <= symbolType < 256 -> 0 <= activeSymbol < 4 -> 0 <= repeatNumber < 64 ->
    GetSymbolCount m_symbolArray <= MAX_SYMBOLS ->
    let result := Add_ m_symbolArray symbolType activeSymbol repeatNumber in
    fst result = true ->
    length (snd result) = S (length m_symbolArray)
    /\ firstn (length m_symbolArray) (snd result) = m_symbolArray
    /\ Get_ (snd result) (GetSymbolCount m_symbolArray)
       = Some (symbolType, activeSymbol, repeatNumber).
Proof.
  intros m t a r Ht Ha Hr Hcap result. subst result. unfold Add_, Get_.
  unfold AddSymbol.
  destruct (IsValidSymbolType t) eqn:Et; [|discriminate].
  destruct (IsValidActiveSymbol a) eqn:Ea; [|discriminate].
  destruct (IsValidRepeatNumber r) eqn:Er; [|discriminate].
  cbn [negb].
  destruct (GetSymbolCount m =? MAX_SYMBOLS) eqn:E3; [discriminate|].
  assert (Hcount : GetSymbolCount (m ++ [0]) - 1 = GetSymbolCount m).
  { unfold GetSymbolCount. rewrite length_app. simpl. lia. }
  rewrite Hcount.
  assert (Hsmall : to_uint32 (GetSymbolCount m) = GetSymbolCount m).
  { unfold to_uint32. apply Z.mod_small.
    unfold GetSymbolCount, MAX_SYMBOLS in *. lia. }
  intros Hok.
  assert (Hi : 0 <= GetSymbolCount m < GetSymbolCount (m ++ [0])).
  { unfold GetSymbolCount. rewrite length_app. simpl. lia. }
  rewrite Hsmall in *.
  destruct (SetSymbol_stores (m ++ [0]) Ht Ha Hr Hi Hok)
    as [Hget [Hlen Hother]].
  unfold Set_, Get_ in Hget, Hlen, Hother.
  split; [|split; [|exact Hget]].
  - rewrite Hlen, length_app. simpl. lia.
  - apply nth_ext with (d := 0) (d' := 0).
    + rewrite length_firstn, Hlen, length_app. simpl. lia.
    + intros k Hk. rewrite length_firstn in Hk.
      rewrite nth_firstn.
      assert (Hklt : (k < length m)%nat) by lia.
      apply Nat.ltb_lt in Hklt as Hb. rewrite Hb.
      rewrite Hother by (unfold GetSymbolCount; lia).
      now rewrite app_nth1.
Qed.
End Facts.
End DirectionSymbolFacts.

(** A direction with the two symbols "To Coda" and "Coda" is indexed as two
    copies of "To Coda"; its "Coda" is not in the symbol index. *)
Example second_symbol_is_not_indexed :
  let s :=
    mkScore [mkSystem [Examples.plainBar 0; Examples.plainBar 10]
                      [mkDirection 4 [mkDirectionSymbol toCoda activeDaCapo 0;
                                      mkDirectionSymbol coda activeNone 0]]
                      [] 10]
            [] [] [] in
  directions (@newRepeatController SpecRepeat.Repeat SpecRepeat.ops s)
  = [(loc_of 0 4, mkDirectionSymbol toCoda activeDaCapo 0);
     (loc_of 0 4, mkDirectionSymbol toCoda activeDaCapo 0)]
  /\ firstLocationOf coda (indexedSymbols s) = None.
Proof. split; reflexivity. Qed.

(** * Instances of the further properties *)

Lemma active_group_is_latest_start_witness :
  exists start r,
    nth_error
      (repeats (fst (playbackRun Examples.daCapoController [loc_of 0 1])))
      (getPreviousRepeatGroup
         (fst (playbackRun Examples.daCapoController [loc_of 0 1])) (loc_of 0 3))
    = Some (start, r)
    /\ loc_leb start (loc_of 0 3) = true
    /\ forall x,
        In x (map fst (repeats
                         (fst (playbackRun Examples.daCapoController
                                           [loc_of 0 1])))) ->
        loc_leb x (loc_of 0 3) = true -> loc_leb x start = true.
Proof.
  apply (@active_group_is_latest_start SpecRepeat.Repeat SpecRepeat.ops
           Examples.daCapoScore [loc_of 0 1] (loc_of 0 3)); simpl; lia.
Defined.


Lemma jump_targets_first_symbol_witness :
  snd (performMusicalDirection
         (@newRepeatController SpecRepeat.Repeat SpecRepeat.ops
                               Examples.segnoScore) dalSegno)
  = loc_of 0 2.
Proof.
  apply (proj1 (proj1 (@jump_targets_first_symbol SpecRepeat.Repeat
                         SpecRepeat.ops Examples.segnoScore [])
                      dalSegno (or_introl eq_refl))).
Defined.

Lemma generateGradualBend_samples_ordered_witness :
  (0 <= timestamp (nth 0 (generateGradualBend 0 500 64 72)
                       (mkBendEventInfo 0 0)))%Q.
Proof.
  pose proof (@generateGradualBend_samples_ordered
                0 500 64 72 ltac:(lia) ltac:(lia) ltac:(discriminate)) as H.
  cbv zeta in H. destruct H as [H _].
  apply H. apply nth_In. simpl. lia.
Defined.

Lemma unsupported_slide_into_is_silent_witness :
  @generateSlides specEnv 0 500 500 Examples.slideIntoNote = [].
Proof.
  apply (@unsupported_slide_into_is_silent specEnv 0 500 500
           Examples.slideIntoNote); reflexivity.
Defined.

Lemma generateEventsForSystem_locations_witness :
  eventOfSystem 0 (GetSystem Examples.letRingScore 0)
                (nth 0 (snd (@generateEventsForSystem specEnv
                               Examples.letRingScore 0 0 0))
                     (StopNoteEvent 0 0 0 0 0)).
Proof.
  apply (@generateEventsForSystem_locations specEnv Examples.letRingScore 0 0 0).
  apply nth_In. vm_compute. lia.
Defined.

Lemma generateVoice_keeps_positions_witness :
  Forall2 sameUpToNoteOrder
          (GetVoice Examples.arpeggioStaff 0)
          (vs_positions
             (fst (@generateVoice specEnv Examples.arpeggioScore 0 0
                     Examples.arpeggioSystem 0 Examples.arpeggioStaff
                     Examples.standardGuitar 0 0 0))).
Proof.
  apply (@generateVoice_keeps_positions specEnv Examples.arpeggioScore 0 0
           Examples.arpeggioSystem 0 Examples.arpeggioStaff
           Examples.standardGuitar 0%nat 0%Q 0%Q).
  apply Qle_refl.
Defined.

Lemma generateMetronome_structure_witness :
  length
    (filter isPulse
            (match @generateMetronome specEnv 15 37 Examples.letRingScore 0 0
                                      Examples.letRingSystem 0 with
             | Some events => events
             | None => []
             end))
  = 4%nat.
Proof.
  apply (@generateMetronome_structure specEnv 15 37 Examples.letRingScore 0 0
           Examples.letRingSystem 0).
  reflexivity.
Defined.

Lemma measureSpan_is_bar_length_witness :
  (@measureSpan specEnv Examples.wholeRestScore 0
                (@GetPrecedingBarline specEnv Examples.wholeRestSystem
                                      (GetPosition Examples.wholeRest))
   == @getCurrentTempo specEnv Examples.wholeRestScore 0 0 * 4 / inject_Z 4
      * inject_Z 4)%Q.
Proof.
  apply (@measureSpan_is_bar_length specEnv Examples.wholeRestScore 0
           Examples.wholeRestSystem Examples.wholeRestStaff Examples.wholeRest
           0%Q); simpl; try lia; reflexivity.
Defined.

Lemma SetSymbol_GetSymbol_round_trip_witness :
  DirectionSymbols.GetSymbol
    65280 192 63 Examples.validSymbolIndex
    (snd (DirectionSymbols.SetSymbol
            Examples.validSymbolType Examples.validActiveSymbol
            Examples.validRepeatNumber Examples.validSymbolIndex
            [0; 0] 1 16 1 2))
    1
  = Some (16, 1, 2).
Proof.
  pose proof (@DirectionSymbolFacts.SetSymbol_GetSymbol_round_trip
                Examples.validSymbolType Examples.validActiveSymbol
                Examples.validRepeatNumber Examples.validSymbolIndex
                [0; 0] 1 16 1 2 ltac:(lia) ltac:(lia) ltac:(lia)
                ltac:(unfold DirectionSymbols.GetSymbolCount; simpl; lia))
    as H.
  cbv zeta in H.
  change (fst (DirectionSymbols.SetSymbol
                 Examples.validSymbolType Examples.validActiveSymbol
                 Examples.validRepeatNumber Examples.validSymbolIndex
                 [0; 0] 1 16 1 2)) with true in H.
  cbv iota in H. exact (proj1 H).
Defined.

Lemma AddSymbol_capacity_witness :
  DirectionSymbols.AddSymbol
    Examples.validSymbolType Examples.validActiveSymbol
    Examples.validRepeatNumber Examples.validSymbolIndex [1; 2; 3] 16 1 2
  = (false, [1; 2; 3]).
Proof.
  apply (@DirectionSymbolFacts.AddSymbol_capacity
           Examples.validSymbolType Examples.validActiveSymbol
           Examples.validRepeatNumber Examples.validSymbolIndex
           [1; 2; 3] 16 1 2);
    unfold DirectionSymbols.GetSymbolCount, DirectionSymbols.MAX_SYMBOLS;
    simpl; lia.
Defined.

Lemma AddSymbol_GetSymbol_witness :
  DirectionSymbols.GetSymbol
    65280 192 63 Examples.validSymbolIndex
    (snd (DirectionSymbols.AddSymbol
            Examples.validSymbolType Examples.validActiveSymbol
            Examples.validRepeatNumber Examples.validSymbolIndex [1280] 16 1 2))
    1
  = Some (16, 1, 2).
Proof.
  apply (@DirectionSymbolFacts.AddSymbol_GetSymbol
           Examples.validSymbolType Examples.validActiveSymbol
           Examples.validRepeatNumber Examples.validSymbolIndex
           [1280] 16 1 2);
    unfold DirectionSymbols.GetSymbolCount, DirectionSymbols.MAX_SYMBOLS;
    simpl; try lia; try reflexivity.
Defined.
